(** * gringo p2p wire framing: header codec, message codecs, framed transport

    A shallow embedding of [p2p/messages.go] and [p2p/protocol.go] together
    with the pieces of Go's [io], [bufio] and [encoding/binary] packages they
    call.  Unsigned machine integers are [Z] with their wrap-around written
    out, byte slices are [list byte], readers and writers are explicit states
    that every call returns in their new value. *)

From Stdlib.Strings Require Import String Byte.
From Stdlib Require Import ZArith List Lia Bool Arith.
Import ListNotations.
Open Scope Z_scope.

(** ** Bytes and fixed-width big-endian integers (encoding/binary) *)

Definition Z_of_byte (b : byte) : Z := Z.of_N (Byte.to_N b).

(** Go's conversion [byte(v)]: the low eight bits. *)
Definition byte_of_Z (v : Z) : byte :=
  match Byte.of_N (Z.to_N (v mod 256)) with
  | Some b => b
  | None => x00
  end.

(** Conversions between integer types: truncation to [w] bits, and the
    reinterpretation of a [w]-bit pattern as a signed number. *)
Definition wrap (w : Z) (v : Z) : Z := v mod 2 ^ w.
Definition uint16 := wrap 16.
Definition uint32 := wrap 32.
Definition uint64 := wrap 64.
Definition signed (w : Z) (v : Z) : Z :=
  let u := wrap w v in if u <? 2 ^ (w - 1) then u else u - 2 ^ w.
Definition int8 := signed 8.
Definition int64 := signed 64.

(** [binary.BigEndian.PutUintN]: byte [i] of [n] is [byte(v >> 8*(n-1-i))]. *)
Fixpoint PutUint (n : nat) (v : Z) : list byte :=
  match n with
  | O => []
  | S n' => byte_of_Z (Z.shiftr v (8 * Z.of_nat n')) :: PutUint n' v
  end.

(** [binary.BigEndian.UintN]: the bytes or-ed together, first byte highest. *)
Definition Uint (bs : list byte) : Z :=
  fold_left (fun acc b => Z.lor (Z.shiftl acc 8) (Z_of_byte b)) bs 0.

(** ** Errors

    Go's [error] values that occur in the code: the sentinels of package
    [io] and the errors made on the spot with [errors.New]. *)
Inductive error : Type :=
| EOF
| ErrUnexpectedEOF
| ErrShortWrite
| ErrShortBuffer
| ErrNoProgress
| errors_New (text : string).

(** The outcome of a call that yields a value or an error. *)
Inductive result (A : Type) : Type :=
| Ok (a : A)
| Err (e : error).
Arguments Ok {A} a.
Arguments Err {A} e.

Definition err_of {A} (x : result A) : option error :=
  match x with Ok _ => None | Err e => Some e end.

(** ** Package io: readers *)
Module io.

(** [Read r n] is the call [r.Read(p)] with [len(p) = n]: the bytes stored
    at the start of [p], the error, and the reader afterwards. *)
Class Reader (R : Type) := Read : R -> nat -> list byte * option error * R.

(** The receiving side of a connection: the bytes the peer has sent and
    that were not read yet, followed by the end of the stream.  A read
    delivers as many of them as fit, as [bytes.Reader] does. *)
Record Stream := { unread : list byte }.

#[global] Instance Stream_Reader : Reader Stream := fun s n =>
  match unread s with
  | [] => ([], Some EOF, s)
  | _ => (firstn n (unread s), None, {| unread := skipn n (unread s) |})
  end.

(** [io.LimitedReader]: reads from [R] and stops with EOF after [N] bytes. *)
Record LimitedReader (R : Type) := { LR : R; N : Z }.
Arguments LR {R} _.
Arguments N {R} _.

Definition LimitReader {R} (r : R) (n : Z) : LimitedReader R :=
  {| LR := r; N := n |}.

#[global] Instance LimitedReader_Reader {R} `{Reader R} : Reader (LimitedReader R) :=
  fun l n =>
    if N l <=? 0 then ([], Some EOF, l)
    else
      let n' := if Z.of_nat n >? N l then Z.to_nat (N l) else n in
      let '(bs, err, r') := Read (LR l) n' in
      (bs, err, {| LR := r'; N := N l - Z.of_nat (length bs) |}).

(** The loop of [io.ReadAtLeast]: [for n < min && err == nil].  A reader
    that keeps returning no byte and no error makes the Go loop spin; the
    model stops with [ErrNoProgress] when [fuel] calls did not fill the
    buffer ([ReadFull_lawful] shows that the readers used here never do
    that). *)
Fixpoint ReadAtLeast_loop {R} `{Reader R} (fuel : nat) (r : R) (len_buf min : nat)
    (got : list byte) (err : option error) : list byte * option error * R :=
  match err with
  | Some _ => (got, err, r)
  | None =>
    if (length got <? min)%nat then
      match fuel with
      | O => (got, Some ErrNoProgress, r)
      | S fuel' =>
        let '(bs, err', r') := Read r (len_buf - length got) in
        ReadAtLeast_loop fuel' r' len_buf min (got ++ bs) err'
      end
    else (got, None, r)
  end.

Definition error_eqb_EOF (e : option error) : bool :=
  match e with Some EOF => true | _ => false end.

Definition ReadAtLeast {R} `{Reader R} (r : R) (len_buf min : nat)
    : list byte * option error * R :=
  if (len_buf <? min)%nat then ([], Some ErrShortBuffer, r)
  else
    let '(got, err, r') := ReadAtLeast_loop (S min) r len_buf min [] None in
    let err :=
      if (min <=? length got)%nat then None
      else if (0 <? length got)%nat && error_eqb_EOF err then Some ErrUnexpectedEOF
      else err in
    (got, err, r').

(** [io.ReadFull(r, buf)] with [len(buf) = n]. *)
Definition ReadFull {R} `{Reader R} (r : R) (n : nat) : list byte * option error * R :=
  ReadAtLeast r n n.

(** Readers that behave as a window on a byte sequence: [avail r] is what
    the reader can still deliver and [advance r k] the reader after [k]
    bytes were taken. *)
Class LawfulReader (R : Type) `{Reader R} := {
  avail : R -> list byte;
  advance : R -> nat -> R;
  Read_eof : forall r n, avail r = [] -> (0 < n)%nat -> Read r n = ([], Some EOF, r);
  Read_some : forall r n, avail r <> [] ->
    Read r n = (firstn n (avail r), None, advance r (length (firstn n (avail r))));
  avail_advance : forall r k, avail (advance r k) = skipn k (avail r);
  advance_0 : forall r, advance r 0 = r;
  advance_add : forall r a b, advance (advance r a) b = advance r (a + b)
}.

(** *** Writers *)

(** [Write w p] is the call [w.Write(p)]: the number of bytes taken from
    [p], the error, and the writer afterwards. *)
Class Writer (W : Type) := Write : W -> list byte -> nat * option error * W.

(** The sending side of a connection: what was written to it so far, how
    many more bytes it takes before it breaks, and the error it reports
    from then on. *)
Record Sink := { written : list byte; room : nat; failure : error }.

#[global] Instance Sink_Writer : Writer Sink := fun w p =>
  if (length p <=? room w)%nat then
    (length p, None,
     {| written := written w ++ p; room := room w - length p; failure := failure w |})
  else
    (room w, Some (failure w),
     {| written := written w ++ firstn (room w) p; room := 0; failure := failure w |}).

End io.

(** ** Package bufio: the buffered writer *)
Module bufio.

Definition defaultBufSize : nat := 4096.

(** [bufio.Writer]: [buf] holds the [b.n] bytes that wait in the buffer,
    [size] is [len(b.buf)], [err] the error that stops all further writes. *)
Record Writer (W : Type) := { err : option error; buf : list byte; size : nat; wr : W }.
Arguments err {W} _.
Arguments buf {W} _.
Arguments size {W} _.
Arguments wr {W} _.

Definition NewWriterSize {W} (w : W) (sz : nat) : Writer W :=
  {| err := None; buf := []; size := sz; wr := w |}.

Definition NewWriter {W} (w : W) : Writer W := NewWriterSize w defaultBufSize.

Definition Available {W} (b : Writer W) : nat := size b - length (buf b).
Definition Buffered {W} (b : Writer W) : nat := length (buf b).

Definition Flush {W} `{io.Writer W} (b : Writer W) : option error * Writer W :=
  match err b with
  | Some e => (Some e, b)
  | None =>
    if (Buffered b =? 0)%nat then (None, b)
    else
      let '(n, e, w') := io.Write (wr b) (buf b) in
      let e := match e with
               | None => if (n <? Buffered b)%nat then Some ErrShortWrite else None
               | Some _ => e
               end in
      match e with
      | Some e' => (Some e', {| err := Some e'; buf := skipn n (buf b); size := size b; wr := w' |})
      | None => (None, {| err := None; buf := []; size := size b; wr := w' |})
      end
  end.

(** The loop of [Writer.Write]: [for len(p) > b.Available() && b.err == nil].
    It yields the writer, what is left of [p], and the count [nn].  An
    underlying writer that takes no byte and gives no error makes the Go
    loop spin; the model records [ErrNoProgress] when the fuel is gone. *)
Fixpoint Write_loop {W} `{io.Writer W} (fuel : nat) (b : Writer W) (p : list byte) (nn : nat)
    : Writer W * list byte * nat :=
  match err b with
  | Some _ => (b, p, nn)
  | None =>
    if (Available b <? length p)%nat then
      match fuel with
      | O => ({| err := Some ErrNoProgress; buf := buf b; size := size b; wr := wr b |}, p, nn)
      | S fuel' =>
        if (Buffered b =? 0)%nat then
          let '(n, e, w') := io.Write (wr b) p in
          Write_loop fuel' {| err := e; buf := buf b; size := size b; wr := w' |}
                     (skipn n p) (nn + n)%nat
        else
          let n := Nat.min (Available b) (length p) in
          let '(_, b') := Flush {| err := err b; buf := buf b ++ firstn n p;
                                   size := size b; wr := wr b |} in
          Write_loop fuel' b' (skipn n p) (nn + n)%nat
      end
    else (b, p, nn)
  end.

Definition Write {W} `{io.Writer W} (b : Writer W) (p : list byte)
    : nat * option error * Writer W :=
  let '(b', p', nn) := Write_loop (length p + 2)%nat b p 0%nat in
  match err b' with
  | Some e => (nn, Some e, b')
  | None =>
    let n := Nat.min (Available b') (length p') in
    ((nn + n)%nat, None,
     {| err := err b'; buf := buf b' ++ firstn n p'; size := size b'; wr := wr b' |})
  end.

#[global] Instance Writer_Writer {W} `{io.Writer W} : io.Writer (Writer W) := Write.

End bufio.

(** ** Stateful, fallible code

    A Go method with a pointer receiver that reads from an [io.Reader] and
    returns an [error] changes two things as it runs, its receiver and the
    reader, and may stop early with an error; what it changed before the
    error stays changed.  [St S A] is such a computation over the state [S]. *)
Definition St (S A : Type) : Type := S -> result A * S.

Definition ret {S A} (a : A) : St S A := fun s => (Ok a, s).

Definition fail {S A} (e : error) : St S A := fun s => (Err e, s).

Definition bind {S A B} (c : St S A) (k : A -> St S B) : St S B :=
  fun s =>
    match c s with
    | (Ok a, s') => k a s'
    | (Err e, s') => (Err e, s')
    end.

Notation "x <- c ;; k" := (bind c (fun x => k))
  (at level 61, c at next level, right associativity).
Notation "c ;;; k" := (bind c (fun _ => k))
  (at level 61, right associativity).

(** A call on the reader [r], the receiver [p] left alone. *)
Definition on_reader {P R A} (f : R -> result A * R) : St (P * R) A :=
  fun '(p, r) => let '(a, r') := f r in (a, (p, r')).

(** An assignment to a field of the receiver. *)
Definition assign {P R} (f : P -> P) : St (P * R) unit :=
  fun '(p, r) => (Ok tt, (f p, r)).

Definition receiver {P R} : St (P * R) P := fun '(p, r) => (Ok p, (p, r)).

(** ** Package encoding/binary *)
Module binary.

(** [binary.Read(r, binary.BigEndian, &x)] for an unsigned [x] of [size]
    bytes: the bytes are read into a scratch buffer with [io.ReadFull]; on
    an error the error is returned and [x] keeps its value. *)
Definition Read {R} `{io.Reader R} (size : nat) (r : R) : result Z * R :=
  let '(bs, err, r') := io.ReadFull r size in
  match err with
  | Some e => (Err e, r')
  | None => (Ok (Uint bs), r')
  end.

(** [io.ReadFull(r, buf)] into a fresh local buffer of [size] bytes. *)
Definition ReadBytes {R} `{io.Reader R} (size : nat) (r : R) : result (list byte) * R :=
  let '(bs, err, r') := io.ReadFull r size in
  match err with
  | Some e => (Err e, r')
  | None => (Ok bs, r')
  end.

End binary.

(** ** Package net *)
Module net.

Definition IPv4len : nat := 4.
Definition IPv6len : nat := 16.

(** [net.TCPAddr]: [IP] is a byte slice, [Port] an [int], [Zone] the IPv6
    scoped addressing zone. *)
Record TCPAddr := { IP : list byte; Port : Z; Zone : string }.

End net.

(** ** Package p2p: data model (messages.go, protocol.go) *)

(** Header of any protocol message. *)
Record Header := { magic : byte * byte; Header_Type : Z; Len : Z }.

Definition Header_zero : Header :=
  {| magic := (x00, x00); Header_Type := 0; Len := 0 |}.

(** Ping request; [TotalDifficulty] is a [consensus.Difficulty], a [uint64]. *)
Record Ping := { TotalDifficulty : Z; Height : Z }.

(** Pong response, same as Ping: the struct embeds a [Ping]. *)
Record Pong := { Pong_Ping : Ping }.

Record GetPeerAddrs := { Capabilities : Z }.

(** [Message] is a Go string: a sequence of bytes. *)
Record PeerError := { Code : Z; PeerError_Message : list byte }.

Record PeerAddrs := { peers : list net.TCPAddr }.

(** Constants of the packages [consensus] and [p2p] that the code names:
    the magic marker, the width of a header on the wire, the largest body
    that is accepted, the type tag of each message, and the ceilings for a
    string and for an address list. *)
Record Constants := {
  MagicCode : byte * byte;
  HeaderLen : Z;
  MaxMsgLen : Z;
  msgTypePing : Z;
  msgTypePong : Z;
  msgTypeGetPeerAddrs : Z;
  msgTypePeerAddrs : Z;
  msgTypeError : Z;
  maxStringLength : Z;
  maxPeerAddresses : Z
}.

(** The interface [Message] of protocol.go.  The methods see the package
    constants [c].  [Bytes] is [None] when the method does not return
    because [logrus.Fatal] ends the process. *)
Class Message (M : Type) := {
  Read : Constants -> forall {R : Type} `{io.Reader R}, St (M * R) unit;
  Bytes : M -> option (list byte);
  Type_ : Constants -> M -> Z
}.

(** [io.ReadFull(r, buf)] where [buf] is a field of the receiver: the bytes
    that arrived are in the field also when the call fails. *)
Definition read_into {P R} `{io.Reader R} (size : nat) (store : list byte -> P -> P)
    : St (P * R) unit :=
  fun '(p, r) =>
    let '(bs, err, r') := io.ReadFull r size in
    match err with
    | Some e => (Err e, (store bs p, r'))
    | None => (Ok tt, (store bs p, r'))
    end.

Definition store_magic (bs : list byte) (h : Header) : Header :=
  let m :=
    match bs with
    | [] => magic h
    | [b0] => (b0, snd (magic h))
    | b0 :: b1 :: _ => (b0, b1)
    end in
  {| magic := m; Header_Type := Header_Type h; Len := Len h |}.

Definition Header_ValidateMagic (h : Header) : bool :=
  (Z_of_byte (fst (magic h)) =? 0x1e) && (Z_of_byte (snd (magic h)) =? 0xc5).

Definition Header_Read {R} `{io.Reader R} : St (Header * R) unit :=
  read_into 2 store_magic ;;;
  h <- receiver ;;
  if negb (Header_ValidateMagic h) then fail (errors_New "invalid magic code")
  else
    t <- on_reader (binary.Read 1) ;;
    assign (fun h => {| magic := magic h; Header_Type := t; Len := Len h |}) ;;;
    l <- on_reader (binary.Read 8) ;;
    assign (fun h => {| magic := magic h; Header_Type := Header_Type h; Len := l |}).

(** The bytes [Header.Write] hands to its writer, in three calls. *)
Definition Header_magic_bytes (h : Header) : list byte := [fst (magic h); snd (magic h)].
Definition Header_bytes (h : Header) : list byte :=
  Header_magic_bytes h ++ PutUint 1 (Header_Type h) ++ PutUint 8 (Len h).

(** *** Ping, Pong *)

Definition Ping_Bytes (p : Ping) : option (list byte) :=
  Some (PutUint 8 (uint64 (TotalDifficulty p)) ++ PutUint 8 (uint64 (Height p))).

Definition Ping_Read {R} `{io.Reader R} : St (Ping * R) unit :=
  v <- on_reader (binary.Read 8) ;;
  assign (fun p => {| TotalDifficulty := v; Height := Height p |}) ;;;
  v <- on_reader (binary.Read 8) ;;
  assign (fun p => {| TotalDifficulty := TotalDifficulty p; Height := v |}).

(** The methods of the embedded [Ping], promoted to [Pong]. *)
Definition Pong_Bytes (p : Pong) : option (list byte) := Ping_Bytes (Pong_Ping p).

Definition Pong_Read {R} `{io.Reader R} : St (Pong * R) unit :=
  fun '(p, r) =>
    let '(res, (q, r')) := Ping_Read (Pong_Ping p, r) in
    (res, ({| Pong_Ping := q |}, r')).

(** *** GetPeerAddrs *)

Definition GetPeerAddrs_Bytes (p : GetPeerAddrs) : option (list byte) :=
  Some (PutUint 4 (uint32 (Capabilities p))).

Definition GetPeerAddrs_Read {R} `{io.Reader R} : St (GetPeerAddrs * R) unit :=
  v <- on_reader (binary.Read 4) ;;
  assign (fun _ => {| Capabilities := v |}).

(** *** PeerAddrs: encoding *)

(** One turn of the loop of [PeerAddrs.Bytes]; [None] is the
    [logrus.Fatal("invalid netaddr")] of the [default] case. *)
Definition PeerAddrs_Bytes_entry (peerAddr : net.TCPAddr) : option (list byte) :=
  let flag :=
    if (length (net.IP peerAddr) =? net.IPv4len)%nat then Some [x00]
    else if (length (net.IP peerAddr) =? net.IPv6len)%nat then Some [x01]
    else None in
  match flag with
  | None => None
  | Some f => Some (f ++ net.IP peerAddr ++ PutUint 2 (uint16 (net.Port peerAddr)))
  end.

Fixpoint PeerAddrs_Bytes_loop (ps : list net.TCPAddr) (buff : list byte)
    : option (list byte) :=
  match ps with
  | [] => Some buff
  | peerAddr :: ps' =>
    match PeerAddrs_Bytes_entry peerAddr with
    | None => None
    | Some bs => PeerAddrs_Bytes_loop ps' (buff ++ bs)
    end
  end.

Definition PeerAddrs_Bytes (p : PeerAddrs) : option (list byte) :=
  PeerAddrs_Bytes_loop (peers p) (PutUint 4 (uint32 (Z.of_nat (length (peers p))))).

(** ** The codecs and transport functions that depend on configuration *)

Section P2P.

Variable c : Constants.

(** *** PeerError *)

Definition PeerError_Bytes (p : PeerError) : option (list byte) :=
  Some (PutUint 4 (uint32 (Code p))
        ++ PutUint 8 (uint64 (Z.of_nat (length (PeerError_Message p))))
        ++ PeerError_Message p).

Definition PeerError_Read {R} `{io.Reader R} : St (PeerError * R) unit :=
  v <- on_reader (binary.Read 4) ;;
  assign (fun p => {| Code := v; PeerError_Message := PeerError_Message p |}) ;;;
  messageLen <- on_reader (binary.Read 8) ;;
  if messageLen >? maxStringLength c
  then fail (errors_New "invalid messageLen len value")
  else
    buff <- on_reader (binary.ReadBytes (Z.to_nat messageLen)) ;;
    assign (fun p => {| Code := Code p; PeerError_Message := buff |}).

(** *** PeerAddrs: decoding *)

(** The body of the loop [for i := uint32(0); i < peersCount; i++], run
    [count] times. *)
Fixpoint PeerAddrs_Read_loop {R} `{io.Reader R} (count : nat) : St (PeerAddrs * R) unit :=
  match count with
  | O => ret tt
  | S count' =>
    flag <- on_reader (binary.Read 1) ;;
    let ipFlag := int8 flag in
    let size := if ipFlag =? 0 then net.IPv4len else net.IPv6len in
    ipAddr <- on_reader (binary.ReadBytes size) ;;
    ipPort <- on_reader (binary.Read 2) ;;
    let addr := {| net.IP := ipAddr; net.Port := ipPort; net.Zone := "" |} in
    assign (fun p => {| peers := peers p ++ [addr] |}) ;;;
    PeerAddrs_Read_loop count'
  end.

Definition PeerAddrs_Read {R} `{io.Reader R} : St (PeerAddrs * R) unit :=
  peersCount <- on_reader (binary.Read 4) ;;
  if peersCount >? maxPeerAddresses c
  then fail (errors_New "invalid peersCount value")
  else PeerAddrs_Read_loop (Z.to_nat peersCount).

End P2P.

(** *** The five implementations of [Message] *)

#[global] Instance Ping_Message : Message Ping :=
  {| Read := fun _ => @Ping_Read; Bytes := Ping_Bytes; Type_ := fun c _ => msgTypePing c |}.

#[global] Instance Pong_Message : Message Pong :=
  {| Read := fun _ => @Pong_Read; Bytes := Pong_Bytes; Type_ := fun c _ => msgTypePong c |}.

#[global] Instance GetPeerAddrs_Message : Message GetPeerAddrs :=
  {| Read := fun _ => @GetPeerAddrs_Read; Bytes := GetPeerAddrs_Bytes;
     Type_ := fun c _ => msgTypeGetPeerAddrs c |}.

#[global] Instance PeerError_Message_ : Message PeerError :=
  {| Read := @PeerError_Read; Bytes := PeerError_Bytes;
     Type_ := fun c _ => msgTypeError c |}.

#[global] Instance PeerAddrs_Message : Message PeerAddrs :=
  {| Read := @PeerAddrs_Read; Bytes := PeerAddrs_Bytes;
     Type_ := fun c _ => msgTypePeerAddrs c |}.

(** ** The framed transport functions (protocol.go) *)
Section Framing.

Variable c : Constants.

(** *** ReadMessage

    The result is the pair the Go function returns, then the stream and the
    message as the call leaves them.  [rh] and [rb] wrap the stream [r]
    itself, so what is read through them is gone from [r]. *)
Definition ReadMessage {R} `{io.Reader R} {M} `{Message M} (r : R) (msg : M)
    : Z * option error * R * M :=
  let header := Header_zero in
  let rh := io.LimitReader r (int64 (HeaderLen c)) in
  match Header_Read (header, rh) with
  | (Err e, (_, rh)) => (0, Some e, io.LR rh, msg)
  | (Ok _, (header, rh)) =>
    let r := io.LR rh in
    if negb (Header_Type header =? Type_ c msg) then
      (uint64 (HeaderLen c), Some (errors_New "receive unexpected message type"), r, msg)
    else if Len header >? MaxMsgLen c then
      (uint64 (HeaderLen c), Some (errors_New "too big message size"), r, msg)
    else
      let rb := io.LimitReader r (int64 (Len header)) in
      let '(res, (msg, rb)) := Read c (msg, rb) in
      (uint64 (uint64 (HeaderLen c) + uint64 (Len header)), err_of res, io.LR rb, msg)
  end.

(** *** Header.Write and WriteMessage *)

Definition Header_Write {W} `{io.Writer W} (h : Header) (wr : W) : option error * W :=
  let '(_, err, wr) := io.Write wr (Header_magic_bytes h) in
  match err with
  | Some e => (Some e, wr)
  | None =>
    let '(_, err, wr) := io.Write wr (PutUint 1 (Header_Type h)) in
    match err with
    | Some e => (Some e, wr)
    | None =>
      let '(_, err, wr) := io.Write wr (PutUint 8 (Len h)) in
      (err, wr)
    end
  end.

(** [None] when [msg.Bytes()] ends the process; otherwise the pair the Go
    function returns and the stream as the call leaves it. *)
Definition WriteMessage {W} `{io.Writer W} {M} `{Message M} (w : W) (msg : M)
    : option (Z * option error * W) :=
  match Bytes msg with
  | None => None
  | Some data =>
    let header := {| magic := MagicCode c; Header_Type := Type_ c msg;
                     Len := uint64 (Z.of_nat (length data)) |} in
    let wr := bufio.NewWriter w in
    match Header_Write header wr with
    | (Some e, wr) => Some (0, Some e, bufio.wr wr)
    | (None, wr) =>
      let '(n, err, wr) := bufio.Write wr data in
      match err with
      | Some e => Some (uint64 (uint64 (Z.of_nat n) + HeaderLen c), Some e, bufio.wr wr)
      | None =>
        let '(err, wr) := bufio.Flush wr in
        Some (uint64 (uint64 (Z.of_nat n) + HeaderLen c), err, bufio.wr wr)
      end
    end
  end.

End Framing.
(** * Properties *)

(** ** Bytes and integers *)

Lemma Z_of_byte_range (b : byte) : 0 <= Z_of_byte b < 256.
Proof.
  unfold Z_of_byte. pose proof (Byte.to_N_bounded b). lia.
Qed.

Lemma Z_of_byte_of_Z (v : Z) : Z_of_byte (byte_of_Z v) = v mod 256.
Proof.
  unfold byte_of_Z, Z_of_byte.
  assert (Hr : 0 <= v mod 256 < 256) by (apply Z.mod_pos_bound; lia).
  destruct (Byte.of_N (Z.to_N (v mod 256))) as [b|] eqn:E.
  - apply Byte.to_of_N in E. rewrite E. lia.
  - apply Byte.of_N_None_iff in E. lia.
Qed.

Lemma byte_of_Z_of_byte (b : byte) : byte_of_Z (Z_of_byte b) = b.
Proof.
  unfold byte_of_Z, Z_of_byte.
  pose proof (Byte.to_N_bounded b) as Hb.
  rewrite Z.mod_small by lia.
  rewrite N2Z.id, Byte.of_to_N. reflexivity.
Qed.

Lemma lor_shiftl_byte (acc v : Z) :
  0 <= v < 256 -> Z.lor (Z.shiftl acc 8) v = acc * 256 + v.
Proof.
  intros Hv.
  rewrite Z.shiftl_mul_pow2 by lia. change (2 ^ 8) with 256.
  rewrite <- Z.lxor_lor, <- Z.add_nocarry_lxor; trivial;
    apply Z.bits_inj'; intros n Hn; rewrite Z.land_spec, Z.bits_0;
    change 256 with (2 ^ 8); rewrite Z.mul_pow2_bits by lia.
  all: destruct (Z.ltb_spec n 8) as [Hlt|Hge].
  all: try (rewrite (Z.testbit_neg_r acc) by lia; reflexivity).
  all: assert (Hbit : Z.testbit v n = false)
      by (destruct (Z.eq_dec v 0) as [->|Hz];
          [ apply Z.bits_0
          | apply Z.bits_above_log2; [lia|];
            apply Z.log2_lt_pow2; [lia|];
            apply Z.lt_le_trans with (2 ^ 8); [change (2 ^ 8) with 256; lia|];
            apply Z.pow_le_mono_r; lia ]).
  all: rewrite Hbit; apply andb_false_r.
Qed.

Lemma Uint_fold (bs : list byte) (acc : Z) :
  fold_left (fun acc b => Z.lor (Z.shiftl acc 8) (Z_of_byte b)) bs acc
  = fold_left (fun acc b => acc * 256 + Z_of_byte b) bs acc.
Proof.
  revert acc. induction bs as [|b bs IH]; intros acc; cbn [fold_left]; trivial.
  rewrite lor_shiftl_byte by apply Z_of_byte_range. apply IH.
Qed.

Lemma length_PutUint (n : nat) (v : Z) : length (PutUint n v) = n.
Proof. induction n; simpl; congruence. Qed.

Lemma Uint_PutUint_acc (n : nat) (v acc : Z) :
  fold_left (fun acc b => acc * 256 + Z_of_byte b) (PutUint n v) acc
  = acc * 2 ^ (8 * Z.of_nat n) + v mod 2 ^ (8 * Z.of_nat n).
Proof.
  revert acc. induction n as [|n IH]; intros acc.
  - simpl. rewrite Z.mod_1_r. lia.
  - cbn [PutUint fold_left]. rewrite IH, Z_of_byte_of_Z.
    rewrite Z.shiftr_div_pow2 by lia.
    replace (8 * Z.of_nat (S n)) with (8 * Z.of_nat n + 8) by lia.
    rewrite Z.pow_add_r by lia. change (2 ^ 8) with 256.
    assert (Hp : 0 < 2 ^ (8 * Z.of_nat n)) by (apply Z.pow_pos_nonneg; lia).
    rewrite (Z.rem_mul_r v (2 ^ (8 * Z.of_nat n)) 256) by lia.
    ring.
Qed.

(** Decoding the [n]-byte encoding of [v] gives [v] truncated to [8n] bits. *)
Lemma Uint_PutUint (n : nat) (v : Z) :
  Uint (PutUint n v) = wrap (8 * Z.of_nat n) v.
Proof.
  unfold Uint, wrap. rewrite Uint_fold, Uint_PutUint_acc. lia.
Qed.

Lemma Uint_range (bs : list byte) :
  0 <= Uint bs < 2 ^ (8 * Z.of_nat (length bs)).
Proof.
  unfold Uint. rewrite Uint_fold.
  assert (G : forall l acc k, 0 <= acc < 2 ^ (8 * Z.of_nat k) ->
    0 <= fold_left (fun acc b => acc * 256 + Z_of_byte b) l acc
      < 2 ^ (8 * Z.of_nat (k + length l))).
  { induction l as [|b l IH]; intros acc k Hacc.
    - simpl. rewrite Nat.add_0_r. exact Hacc.
    - cbn [fold_left length]. replace (k + S (length l))%nat with (S k + length l)%nat by lia.
      apply IH. pose proof (Z_of_byte_range b).
      replace (8 * Z.of_nat (S k)) with (8 * Z.of_nat k + 8) by lia.
      rewrite Z.pow_add_r by lia. change (2 ^ 8) with 256. nia. }
  apply (G bs 0 0%nat). simpl. lia.
Qed.

(** ** Readers *)
Module io_facts.
Import io.

Lemma Stream_Read_eof (s : Stream) (n : nat) :
  unread s = [] -> (0 < n)%nat -> Read s n = ([], Some EOF, s).
Proof.
  destruct s as [u]. simpl. intros -> _. reflexivity.
Qed.

Lemma Stream_Read_some (s : Stream) (n : nat) :
  unread s <> [] ->
  Read s n = (firstn n (unread s), None,
              {| unread := skipn (length (firstn n (unread s))) (unread s) |}).
Proof.
  destruct s as [u]. unfold Read, Stream_Reader. simpl. intros Hu.
  destruct u as [|b u]; [contradiction|].
  rewrite length_firstn. f_equal. f_equal.
  destruct (Nat.le_ge_cases n (length (b :: u))) as [Hle|Hge].
  - rewrite Nat.min_l by exact Hle. reflexivity.
  - rewrite Nat.min_r by exact Hge. rewrite !skipn_all2; trivial.
Qed.

Lemma Stream_advance_add (s : Stream) (a b : nat) :
  {| unread := skipn b (skipn a (unread s)) |} = {| unread := skipn (a + b) (unread s) |}.
Proof.
  rewrite skipn_skipn. f_equal. f_equal. lia.
Qed.

Lemma Stream_advance_0 (s : Stream) : {| unread := skipn 0 (unread s) |} = s.
Proof. destruct s. reflexivity. Qed.

#[global] Instance Stream_Lawful : LawfulReader Stream := {|
  avail := unread;
  advance := fun s k => {| unread := skipn k (unread s) |};
  Read_eof := Stream_Read_eof;
  Read_some := Stream_Read_some;
  avail_advance := fun s k => eq_refl;
  advance_0 := Stream_advance_0;
  advance_add := Stream_advance_add
|}.

Section LimitedReaderLawful.
Context {R : Type} `{LawfulReader R}.

Definition LimitedReader_avail (l : LimitedReader R) : list byte :=
  firstn (Z.to_nat (N l)) (avail (LR l)).

Definition LimitedReader_advance (l : LimitedReader R) (k : nat) : LimitedReader R :=
  {| LR := advance (LR l) k; N := N l - Z.of_nat k |}.

Lemma LimitedReader_Read_eof (l : LimitedReader R) (n : nat) :
  LimitedReader_avail l = [] -> (0 < n)%nat -> Read l n = ([], Some EOF, l).
Proof.
  unfold LimitedReader_avail, Read at 1, LimitedReader_Reader. intros Ha Hn.
  destruct (Z.leb_spec (N l) 0) as [Hle|Hgt]; [reflexivity|].
  assert (Hav : avail (LR l) = []).
  { destruct (avail (LR l)) as [|b a]; [reflexivity|].
    destruct (Z.to_nat (N l)) eqn:E; [lia|discriminate]. }
  rewrite Read_eof.
  - destruct l as [r k]. simpl. rewrite Z.sub_0_r. reflexivity.
  - exact Hav.
  - destruct (Z.of_nat n >? N l); lia.
Qed.

Lemma LimitedReader_Read_some (l : LimitedReader R) (n : nat) :
  LimitedReader_avail l <> [] ->
  Read l n = (firstn n (LimitedReader_avail l), None,
              LimitedReader_advance l (length (firstn n (LimitedReader_avail l)))).
Proof.
  unfold LimitedReader_avail, LimitedReader_advance, Read at 1, LimitedReader_Reader.
  intros Ha.
  destruct (Z.leb_spec (N l) 0) as [Hle|Hgt].
  { replace (Z.to_nat (N l)) with 0%nat in Ha by lia. contradiction. }
  assert (Hav : avail (LR l) <> []).
  { intros E. rewrite E, firstn_nil in Ha. contradiction. }
  rewrite Read_some by exact Hav.
  rewrite firstn_firstn.
  destruct (Z.gtb_spec (Z.of_nat n) (N l)) as [Hbig|Hfit].
  - rewrite Nat.min_r by lia. reflexivity.
  - rewrite Nat.min_l by lia. reflexivity.
Qed.

Lemma LimitedReader_avail_advance (l : LimitedReader R) (k : nat) :
  LimitedReader_avail (LimitedReader_advance l k) = skipn k (LimitedReader_avail l).
Proof.
  unfold LimitedReader_avail, LimitedReader_advance. simpl.
  rewrite avail_advance.
  destruct (Z.le_gt_cases (Z.of_nat k) (N l)) as [Hle|Hgt].
  - rewrite firstn_skipn_comm. f_equal. f_equal. lia.
  - replace (Z.to_nat (N l - Z.of_nat k)) with 0%nat by lia.
    rewrite firstn_O. symmetry. apply skipn_all2.
    rewrite length_firstn. lia.
Qed.

Lemma LimitedReader_advance_0 (l : LimitedReader R) : LimitedReader_advance l 0 = l.
Proof.
  destruct l as [r k]. unfold LimitedReader_advance. simpl.
  rewrite advance_0, Z.sub_0_r. reflexivity.
Qed.

Lemma LimitedReader_advance_add (l : LimitedReader R) (a b : nat) :
  LimitedReader_advance (LimitedReader_advance l a) b = LimitedReader_advance l (a + b).
Proof.
  unfold LimitedReader_advance. simpl. rewrite advance_add. f_equal. lia.
Qed.

#[global] Instance LimitedReader_Lawful : LawfulReader (LimitedReader R) := {|
  avail := LimitedReader_avail;
  advance := LimitedReader_advance;
  Read_eof := LimitedReader_Read_eof;
  Read_some := LimitedReader_Read_some;
  avail_advance := LimitedReader_avail_advance;
  advance_0 := LimitedReader_advance_0;
  advance_add := LimitedReader_advance_add
|}.

End LimitedReaderLawful.

Lemma ReadAtLeast_loop_full {R : Type} `{Reader R} fuel (r : R) len_buf min got :
  (min <= length got)%nat ->
  ReadAtLeast_loop fuel r len_buf min got None = (got, None, r).
Proof.
  intros Hfull.
  destruct fuel; cbn [ReadAtLeast_loop];
    (replace (length got <? min)%nat with false
       by (symmetry; apply Nat.ltb_ge; exact Hfull)); reflexivity.
Qed.

Lemma ReadAtLeast_loop_err {R : Type} `{Reader R} fuel (r : R) len_buf min got e :
  ReadAtLeast_loop fuel r len_buf min got (Some e) = (got, Some e, r).
Proof. destruct fuel; reflexivity. Qed.

Lemma ReadAtLeast_loop_step {R : Type} `{Reader R} fuel (r : R) len_buf min got :
  (length got < min)%nat ->
  ReadAtLeast_loop (S fuel) r len_buf min got None =
    let '(bs, err', r') := Read r (len_buf - length got) in
    ReadAtLeast_loop fuel r' len_buf min (got ++ bs) err'.
Proof.
  intros Hshort. cbn [ReadAtLeast_loop].
  replace (length got <? min)%nat with true
    by (symmetry; apply Nat.ltb_lt; exact Hshort).
  reflexivity.
Qed.

(** What [io.ReadFull] does on a lawful reader: all [n] bytes when they are
    there; EOF and nothing consumed when none is; otherwise everything that
    is left, consumed, with ErrUnexpectedEOF. *)
Lemma ReadFull_lawful {R : Type} `{LawfulReader R} (r : R) (n : nat) :
  ReadFull r n =
    if (n <=? length (avail r))%nat then (firstn n (avail r), None, advance r n)
    else match avail r with
         | [] => ([], Some EOF, r)
         | _ :: _ => (avail r, Some ErrUnexpectedEOF, advance r (length (avail r)))
         end.
Proof.
  unfold ReadFull, ReadAtLeast. rewrite Nat.ltb_irrefl.
  destruct n as [|m].
  { rewrite ReadAtLeast_loop_full by (simpl; lia).
    simpl. rewrite advance_0. reflexivity. }
  rewrite ReadAtLeast_loop_step by (simpl; lia).
  cbn [length app]. rewrite Nat.sub_0_r.
  destruct (avail r) as [|b a] eqn:Ea.
  - rewrite Read_eof by (trivial; lia). rewrite ReadAtLeast_loop_err.
    reflexivity.
  - rewrite Read_some by (rewrite Ea; discriminate). rewrite Ea.
    destruct (Nat.leb_spec (S m) (length (b :: a))) as [Hfit|Hshort].
    + assert (Hlen : length (firstn (S m) (b :: a)) = S m)
        by (rewrite length_firstn; lia).
      rewrite Hlen, ReadAtLeast_loop_full by lia.
      rewrite Hlen, Nat.leb_refl. reflexivity.
    + rewrite firstn_all2 by lia.
      destruct m as [|m']; [simpl in Hshort; lia|].
      rewrite ReadAtLeast_loop_step by lia.
      rewrite Read_eof.
      * rewrite ReadAtLeast_loop_err, app_nil_r.
        replace (S (S m') <=? length (b :: a))%nat with false
          by (symmetry; apply Nat.leb_gt; lia).
        reflexivity.
      * rewrite avail_advance, Ea. apply skipn_all.
      * lia.
Qed.

End io_facts.

(** ** Reading from a lawful reader *)
Section Decoding.
Context {R : Type} `{io.LawfulReader R}.

(** The error of a read that finds too few bytes. *)
Definition short_error (a : list byte) : error :=
  match a with [] => EOF | _ :: _ => ErrUnexpectedEOF end.

Lemma ReadFull_spec (r : R) (n : nat) :
  io.ReadFull r n =
    if (n <=? length (io.avail r))%nat
    then (firstn n (io.avail r), None, io.advance r n)
    else (io.avail r, Some (short_error (io.avail r)),
          io.advance r (length (io.avail r))).
Proof.
  rewrite io_facts.ReadFull_lawful.
  destruct (n <=? length (io.avail r))%nat; [reflexivity|].
  destruct (io.avail r); [|reflexivity].
  simpl. rewrite io.advance_0. reflexivity.
Qed.

Lemma binary_Read_spec (n : nat) (r : R) :
  binary.Read n r =
    if (n <=? length (io.avail r))%nat
    then (Ok (Uint (firstn n (io.avail r))), io.advance r n)
    else (Err (short_error (io.avail r)), io.advance r (length (io.avail r))).
Proof.
  unfold binary.Read. rewrite ReadFull_spec.
  destruct (n <=? length (io.avail r))%nat; reflexivity.
Qed.

Lemma binary_ReadBytes_spec (n : nat) (r : R) :
  binary.ReadBytes n r =
    if (n <=? length (io.avail r))%nat
    then (Ok (firstn n (io.avail r)), io.advance r n)
    else (Err (short_error (io.avail r)), io.advance r (length (io.avail r))).
Proof.
  unfold binary.ReadBytes. rewrite ReadFull_spec.
  destruct (n <=? length (io.avail r))%nat; reflexivity.
Qed.

(** A computation that takes its bytes from the reader and nowhere else:
    it leaves the reader advanced by some [k] bytes that were available. *)
Definition within {P A : Type} (d : St (P * R) A) : Prop :=
  forall (p : P) (r : R),
    exists k : nat, (k <= length (io.avail r))%nat
                    /\ snd (snd (d (p, r))) = io.advance r k.

Lemma within_ret {P A} (a : A) : within (P := P) (ret a).
Proof.
  intros p r. exists 0%nat. split; [lia|]. simpl. symmetry. apply io.advance_0.
Qed.

Lemma within_fail {P A} (e : error) : within (P := P) (A := A) (fail e).
Proof.
  intros p r. exists 0%nat. split; [lia|]. simpl. symmetry. apply io.advance_0.
Qed.

Lemma within_assign {P} (f : P -> P) : within (assign f).
Proof.
  intros p r. exists 0%nat. split; [lia|]. simpl. symmetry. apply io.advance_0.
Qed.

Lemma within_receiver {P} : within (P := P) receiver.
Proof.
  intros p r. exists 0%nat. split; [lia|]. simpl. symmetry. apply io.advance_0.
Qed.

Lemma within_binary_Read {P} (n : nat) : within (P := P) (on_reader (binary.Read n)).
Proof.
  intros p r. unfold on_reader. rewrite binary_Read_spec.
  destruct (Nat.leb_spec n (length (io.avail r))).
  - exists n. split; [lia|reflexivity].
  - exists (length (io.avail r)). split; [lia|reflexivity].
Qed.

Lemma within_binary_ReadBytes {P} (n : nat) :
  within (P := P) (on_reader (binary.ReadBytes n)).
Proof.
  intros p r. unfold on_reader. rewrite binary_ReadBytes_spec.
  destruct (Nat.leb_spec n (length (io.avail r))).
  - exists n. split; [lia|reflexivity].
  - exists (length (io.avail r)). split; [lia|reflexivity].
Qed.

Lemma within_read_into {P} (n : nat) (store : list byte -> P -> P) :
  within (read_into n store).
Proof.
  intros p r. unfold read_into. rewrite ReadFull_spec.
  destruct (Nat.leb_spec n (length (io.avail r))).
  - exists n. split; [lia|reflexivity].
  - exists (length (io.avail r)). split; [lia|reflexivity].
Qed.

Lemma within_bind {P A B} (d : St (P * R) A) (k : A -> St (P * R) B) :
  within d -> (forall a, within (k a)) -> within (bind d k).
Proof.
  intros Hd Hk p r. unfold bind.
  destruct (Hd p r) as (k1 & Hk1 & E1).
  destruct (d (p, r)) as [[a|e] [p1 r1]]; simpl in E1; subst r1.
  - destruct (Hk a p1 (io.advance r k1)) as (k2 & Hk2 & E2).
    rewrite io.avail_advance, length_skipn in Hk2.
    exists (k1 + k2)%nat. split; [lia|].
    rewrite E2. apply io.advance_add.
  - exists k1. split; [exact Hk1|reflexivity].
Qed.

Lemma within_if {P A} (b : bool) (d1 d2 : St (P * R) A) :
  within d1 -> within d2 -> within (if b then d1 else d2).
Proof. destruct b; trivial. Qed.

Create HintDb within.
#[local] Hint Resolve within_ret within_fail within_assign within_receiver
  within_binary_Read within_binary_ReadBytes within_read_into : within.

Ltac within_steps :=
  repeat first [ apply within_bind; [|intros ?]
               | apply within_if
               | solve [auto with within] ].

Lemma within_Header_Read : within Header_Read.
Proof. unfold Header_Read. within_steps. Qed.

Lemma within_Ping_Read : within Ping_Read.
Proof. unfold Ping_Read. within_steps. Qed.

Lemma within_Pong_Read : within Pong_Read.
Proof.
  intros p r. unfold Pong_Read.
  destruct (within_Ping_Read (Pong_Ping p) r) as (k & Hk & E).
  exists k. split; [exact Hk|].
  destruct (Ping_Read (Pong_Ping p, r)) as [res [q r']]. exact E.
Qed.

Lemma within_GetPeerAddrs_Read : within GetPeerAddrs_Read.
Proof. unfold GetPeerAddrs_Read. within_steps. Qed.

Lemma within_PeerError_Read (c : Constants) : within (PeerError_Read c).
Proof. unfold PeerError_Read. within_steps. Qed.

Lemma within_PeerAddrs_Read_loop (count : nat) : within (PeerAddrs_Read_loop count).
Proof.
  induction count as [|count IH]; cbn [PeerAddrs_Read_loop]; within_steps.
Qed.

Lemma within_PeerAddrs_Read (c : Constants) : within (PeerAddrs_Read c).
Proof.
  unfold PeerAddrs_Read. within_steps.
  apply within_PeerAddrs_Read_loop.
Qed.

(** *** Running a decoder step by step *)

Lemma run_binary_Read {P B} (n : nat) (k : Z -> St (P * R) B) (p : P) (r : R) :
  bind (on_reader (binary.Read n)) k (p, r) =
    if (n <=? length (io.avail r))%nat
    then k (Uint (firstn n (io.avail r))) (p, io.advance r n)
    else (Err (short_error (io.avail r)), (p, io.advance r (length (io.avail r)))).
Proof.
  unfold bind, on_reader. rewrite binary_Read_spec.
  destruct (n <=? length (io.avail r))%nat; reflexivity.
Qed.

Lemma run_binary_ReadBytes {P B} (n : nat) (k : list byte -> St (P * R) B) (p : P) (r : R) :
  bind (on_reader (binary.ReadBytes n)) k (p, r) =
    if (n <=? length (io.avail r))%nat
    then k (firstn n (io.avail r)) (p, io.advance r n)
    else (Err (short_error (io.avail r)), (p, io.advance r (length (io.avail r)))).
Proof.
  unfold bind, on_reader. rewrite binary_ReadBytes_spec.
  destruct (n <=? length (io.avail r))%nat; reflexivity.
Qed.

Lemma run_read_into {P B} (n : nat) (store : list byte -> P -> P)
    (k : unit -> St (P * R) B) (p : P) (r : R) :
  bind (read_into n store) k (p, r) =
    if (n <=? length (io.avail r))%nat
    then k tt (store (firstn n (io.avail r)) p, io.advance r n)
    else (Err (short_error (io.avail r)),
          (store (io.avail r) p, io.advance r (length (io.avail r)))).
Proof.
  unfold bind, read_into. rewrite ReadFull_spec.
  destruct (n <=? length (io.avail r))%nat; reflexivity.
Qed.

Lemma run_assign {P B} (f : P -> P) (k : unit -> St (P * R) B) (p : P) (r : R) :
  bind (assign f) k (p, r) = k tt (f p, r).
Proof. reflexivity. Qed.

Lemma run_receiver {P B} (k : P -> St (P * R) B) (p : P) (r : R) :
  bind receiver k (p, r) = k p (p, r).
Proof. reflexivity. Qed.

Lemma run_assign_last {P} (f : P -> P) (p : P) (r : R) :
  assign f (p, r) = (Ok tt, (f p, r)).
Proof. reflexivity. Qed.

Lemma run_fail {P A} (e : error) (p : P) (r : R) :
  fail (A := A) e (p, r) = (Err e, (p, r)).
Proof. reflexivity. Qed.

(** *** Header.Read *)

(** A header is decoded exactly when eleven bytes are there and the first
    two are the magic marker; the reader is then eleven bytes further. *)
Lemma Header_Read_Ok_inv (h h' : Header) (r r' : R) :
  Header_Read (h, r) = (Ok tt, (h', r')) ->
  (11 <= length (io.avail r))%nat
  /\ r' = io.advance r 11
  /\ magic h' = (nth 0 (io.avail r) x00, nth 1 (io.avail r) x00)
  /\ Header_ValidateMagic h' = true
  /\ Header_Type h' = Uint (firstn 1 (skipn 2 (io.avail r)))
  /\ Len h' = Uint (firstn 8 (skipn 3 (io.avail r))).
Proof.
  unfold Header_Read. rewrite run_read_into.
  destruct (Nat.leb_spec 2 (length (io.avail r))) as [H2|H2]; [|discriminate].
  rewrite run_receiver.
  destruct (Header_ValidateMagic (store_magic (firstn 2 (io.avail r)) h)) eqn:Hm;
    cbn [negb]; [|discriminate].
  rewrite run_binary_Read, io.avail_advance.
  destruct (Nat.leb_spec 1 (length (skipn 2 (io.avail r)))) as [H1|H1]; [|discriminate].
  rewrite run_assign, run_binary_Read, io.avail_advance, io.avail_advance.
  rewrite io.advance_add, skipn_skipn. cbn [Nat.add].
  destruct (Nat.leb_spec 8 (length (skipn 3 (io.avail r)))) as [H8|H8]; [|discriminate].
  rewrite run_assign_last, io.advance_add. cbn [Nat.add].
  intros E. injection E as <- <-. cbn [magic Header_Type Len].
  rewrite length_skipn in H8.
  destruct (io.avail r) as [|b0 [|b1 a]]; try (simpl in H2; lia).
  repeat split; trivial. lia.
Qed.

(** The header that a successful decode leaves has fields in their ranges. *)
Lemma Header_Read_Ok_range (h h' : Header) (r r' : R) :
  Header_Read (h, r) = (Ok tt, (h', r')) ->
  0 <= Header_Type h' < 2 ^ 8 /\ 0 <= Len h' < 2 ^ 64.
Proof.
  intros E. apply Header_Read_Ok_inv in E.
  destruct E as (H11 & _ & _ & _ & -> & ->).
  split.
  - pose proof (Uint_range (firstn 1 (skipn 2 (io.avail r)))) as U.
    rewrite length_firstn, length_skipn in U.
    replace (Nat.min 1 (length (io.avail r) - 2)) with 1%nat in U by lia. exact U.
  - pose proof (Uint_range (firstn 8 (skipn 3 (io.avail r)))) as U.
    rewrite length_firstn, length_skipn in U.
    replace (Nat.min 8 (length (io.avail r) - 3)) with 8%nat in U by lia. exact U.
Qed.

(** Two bytes that are not the magic marker: the decode stops there. *)
Lemma Header_Read_bad_magic (h : Header) (r : R) (b0 b1 : byte) (rest : list byte) :
  io.avail r = b0 :: b1 :: rest ->
  (Z_of_byte b0 =? 0x1e) && (Z_of_byte b1 =? 0xc5) = false ->
  Header_Read (h, r) =
    (Err (errors_New "invalid magic code"),
     ({| magic := (b0, b1); Header_Type := Header_Type h; Len := Len h |},
      io.advance r 2)).
Proof.
  intros Ha Hbad. unfold Header_Read. rewrite run_read_into, Ha.
  cbn [length Nat.leb firstn]. rewrite run_receiver.
  unfold Header_ValidateMagic, store_magic. cbn [magic fst snd].
  rewrite Hbad. reflexivity.
Qed.

(** Eleven bytes that start with the magic marker: the header is decoded. *)
Lemma Header_Read_good (h : Header) (r : R) (b0 b1 t : byte) (l rest : list byte) :
  io.avail r = b0 :: b1 :: t :: l ++ rest ->
  length l = 8%nat ->
  (Z_of_byte b0 =? 0x1e) && (Z_of_byte b1 =? 0xc5) = true ->
  Header_Read (h, r) =
    (Ok tt, ({| magic := (b0, b1); Header_Type := Uint [t]; Len := Uint l |},
             io.advance r 11)).
Proof.
  intros Ha Hl Hgood. unfold Header_Read. rewrite run_read_into, Ha.
  cbn [length Nat.leb firstn]. rewrite run_receiver.
  unfold Header_ValidateMagic at 1, store_magic. cbn [magic fst snd].
  rewrite Hgood. cbn [negb].
  rewrite run_binary_Read, io.avail_advance, Ha.
  cbn [skipn length Nat.leb firstn].
  rewrite run_assign, run_binary_Read, io.avail_advance, io.avail_advance, Ha.
  rewrite io.advance_add. cbn [skipn Nat.add].
  rewrite length_app, Hl.
  replace (8 <=? 8 + length rest)%nat with true by (symmetry; apply Nat.leb_le; lia).
  rewrite run_assign_last, io.advance_add. cbn [Nat.add magic Header_Type Len].
  rewrite <- Hl, firstn_app, Nat.sub_diag, firstn_O, app_nil_r, firstn_all.
  reflexivity.
Qed.

End Decoding.

Lemma Z_of_byte_inj (a b : byte) : Z_of_byte a = Z_of_byte b -> a = b.
Proof.
  intros E. rewrite <- (byte_of_Z_of_byte a), <- (byte_of_Z_of_byte b), E. reflexivity.
Qed.

Lemma int64_small (v : Z) : 0 <= v < 2 ^ 63 -> int64 v = v.
Proof.
  intros Hv. unfold int64, signed, wrap. change (64 - 1) with 63.
  rewrite Z.mod_small by (change (2 ^ 64) with (2 * 2 ^ 63); lia).
  destruct (Z.ltb_spec v (2 ^ 63)); lia.
Qed.

Lemma int64_le (v : Z) : 0 <= v -> int64 v <= v.
Proof.
  intros Hv. unfold int64, signed, wrap.
  pose proof (Z.mod_le v (2 ^ 64) Hv ltac:(lia)).
  destruct (v mod 2 ^ 64 <? 2 ^ (64 - 1)); lia.
Qed.

Lemma uint64_small (v : Z) : 0 <= v < 2 ^ 64 -> uint64 v = v.
Proof. intros Hv. apply Z.mod_small. exact Hv. Qed.

(** ** ReadMessage *)
Section Transport.
Variable c : Constants.
Context {R : Type} `{io.LawfulReader R}.
Context {M : Type} `{Message M}.

(** The four ways through [ReadMessage], by what the header decode gives. *)
Lemma ReadMessage_header_error (r : R) (msg : M) e h rh :
  Header_Read (Header_zero, io.LimitReader r (int64 (HeaderLen c))) = (Err e, (h, rh)) ->
  ReadMessage c r msg = (0, Some e, io.LR rh, msg).
Proof. intros E. unfold ReadMessage. rewrite E. reflexivity. Qed.

Lemma ReadMessage_type_differs (r : R) (msg : M) h rh :
  Header_Read (Header_zero, io.LimitReader r (int64 (HeaderLen c))) = (Ok tt, (h, rh)) ->
  Header_Type h <> Type_ c msg ->
  ReadMessage c r msg =
    (uint64 (HeaderLen c), Some (errors_New "receive unexpected message type"),
     io.LR rh, msg).
Proof.
  intros E Ht. unfold ReadMessage. rewrite E.
  destruct (Z.eqb_spec (Header_Type h) (Type_ c msg)); [contradiction|reflexivity].
Qed.

Lemma ReadMessage_too_long (r : R) (msg : M) h rh :
  Header_Read (Header_zero, io.LimitReader r (int64 (HeaderLen c))) = (Ok tt, (h, rh)) ->
  Header_Type h = Type_ c msg ->
  Len h > MaxMsgLen c ->
  ReadMessage c r msg =
    (uint64 (HeaderLen c), Some (errors_New "too big message size"), io.LR rh, msg).
Proof.
  intros E Ht Hl. unfold ReadMessage. rewrite E, Ht, Z.eqb_refl. cbn [negb].
  destruct (Z.gtb_spec (Len h) (MaxMsgLen c)); [reflexivity|lia].
Qed.

Lemma ReadMessage_body (r : R) (msg : M) h rh res msg' rb :
  Header_Read (Header_zero, io.LimitReader r (int64 (HeaderLen c))) = (Ok tt, (h, rh)) ->
  Header_Type h = Type_ c msg ->
  Len h <= MaxMsgLen c ->
  Read c (msg, io.LimitReader (io.LR rh) (int64 (Len h))) = (res, (msg', rb)) ->
  ReadMessage c r msg =
    (uint64 (uint64 (HeaderLen c) + uint64 (Len h)), err_of res, io.LR rb, msg').
Proof.
  intros E Ht Hl Eb. unfold ReadMessage. rewrite E, Ht, Z.eqb_refl. cbn [negb].
  destruct (Z.gtb_spec (Len h) (MaxMsgLen c)); [lia|].
  rewrite Eb. reflexivity.
Qed.

(** A decoded header took eleven bytes from the stream itself. *)
Lemma header_from_stream (r : R) (n : Z) h h' rh :
  Header_Read (h, io.LimitReader r n) = (Ok tt, (h', rh)) ->
  (11 <= length (io.avail r))%nat /\ 11 <= n /\ io.LR rh = io.advance r 11.
Proof.
  intros E. apply Header_Read_Ok_inv in E. destruct E as (H11 & -> & _).
  cbn [io.avail io_facts.LimitedReader_Lawful] in H11.
  unfold io_facts.LimitedReader_avail in H11. cbn [io.LR io.N io.LimitReader] in H11.
  rewrite length_firstn in H11.
  repeat split; try lia.
Qed.

End Transport.

(** A message whose decoder takes its bytes from the reader it is given
    and nowhere else. *)
Definition reads_within (M : Type) `{Message M} : Prop :=
  forall (c : Constants) (R : Type) (HR : io.Reader R) (HL : io.LawfulReader R),
    within (Read c (R := R)).

Lemma Ping_reads_within : reads_within Ping.
Proof. intros c R HR HL. apply within_Ping_Read. Qed.

Lemma Pong_reads_within : reads_within Pong.
Proof. intros c R HR HL. apply within_Pong_Read. Qed.

Lemma GetPeerAddrs_reads_within : reads_within GetPeerAddrs.
Proof. intros c R HR HL. apply within_GetPeerAddrs_Read. Qed.

Lemma PeerError_reads_within : reads_within PeerError.
Proof. intros c R HR HL. apply within_PeerError_Read. Qed.

Lemma PeerAddrs_reads_within : reads_within PeerAddrs.
Proof. intros c R HR HL. apply within_PeerAddrs_Read. Qed.

(** What a call took from a stream: [r'] is [r] with at most [bound] bytes
    removed from its front. *)
Definition consumed_at_most (r r' : io.Stream) (bound : Z) : Prop :=
  exists k : nat,
    (k <= length (io.unread r))%nat
    /\ io.unread r' = skipn k (io.unread r)
    /\ Z.of_nat k <= bound.

(** [ReadMessage] on a stream, for any message that reads within its
    reader: at most the header width when no header is decoded, at most the
    header width and the declared length otherwise. *)
Lemma ReadMessage_bounded (c : Constants) {M : Type} `{Message M} :
  reads_within M ->
  0 <= HeaderLen c ->
  forall (r : io.Stream) (msg : M),
    let '(_, _, r', _) := ReadMessage c r msg in
    match Header_Read (Header_zero, io.LimitReader r (int64 (HeaderLen c))) with
    | (Ok _, (header, _)) => consumed_at_most r r' (HeaderLen c + Len header)
    | (Err _, _) => consumed_at_most r r' (HeaderLen c)
    end.
Proof.
  intros HM Hpos r msg.
  pose proof (int64_le (HeaderLen c) Hpos) as Hle.
  destruct (Header_Read (Header_zero, io.LimitReader r (int64 (HeaderLen c))))
    as [[[]|e] [h rh]] eqn:E.
  - pose proof (header_from_stream _ _ _ _ _ E) as (H11 & HHL & Hrh).
    pose proof (Header_Read_Ok_range _ _ _ _ E) as (_ & HLen).
    destruct (Z.eq_dec (Header_Type h) (Type_ c msg)) as [Ht|Ht].
    + destruct (Z_le_gt_dec (Len h) (MaxMsgLen c)) as [Hfit|Hbig].
      * destruct (Read c (msg, io.LimitReader (io.LR rh) (int64 (Len h))))
          as [res [msg' rb]] eqn:Eb.
        rewrite (ReadMessage_body c r msg h rh res msg' rb E Ht Hfit Eb).
        destruct (HM c _ _ _ msg (io.LimitReader (io.LR rh) (int64 (Len h))))
          as (k & Hk & Ek).
        rewrite Eb in Ek. cbn [snd] in Ek. subst rb.
        cbn [io.avail io_facts.LimitedReader_Lawful] in Hk.
        unfold io_facts.LimitedReader_avail in Hk.
        cbn [io.LR io.N io.LimitReader] in Hk.
        rewrite Hrh in *. rewrite length_firstn in Hk.
        cbn [io.avail io.advance io_facts.Stream_Lawful io.unread] in Hk.
        rewrite length_skipn in Hk.
        pose proof (int64_le (Len h) (proj1 HLen)) as HleL.
        exists (11 + k)%nat. repeat split.
        -- cbn [io.avail io_facts.Stream_Lawful] in H11. lia.
        -- cbn [io.advance io_facts.LimitedReader_Lawful].
           unfold io_facts.LimitedReader_advance.
           cbn [io.LR io.LimitReader io.advance io_facts.Stream_Lawful io.unread].
           rewrite skipn_skipn. f_equal. lia.
        -- lia.
      * rewrite (ReadMessage_too_long c r msg h rh E Ht Hbig), Hrh.
        exists 11%nat. cbn [io.avail io_facts.Stream_Lawful] in H11.
        repeat split; [lia|lia].
    + rewrite (ReadMessage_type_differs c r msg h rh E Ht), Hrh.
      exists 11%nat. cbn [io.avail io_facts.Stream_Lawful] in H11.
      repeat split; [lia|lia].
  - rewrite (ReadMessage_header_error c r msg e h rh E).
    destruct (within_Header_Read Header_zero (io.LimitReader r (int64 (HeaderLen c))))
      as (k & Hk & Ek).
    rewrite E in Ek. cbn [snd] in Ek. subst rh.
    cbn [io.avail io_facts.LimitedReader_Lawful] in Hk.
    unfold io_facts.LimitedReader_avail in Hk.
    cbn [io.LR io.N io.LimitReader io.avail io_facts.Stream_Lawful] in Hk.
    rewrite length_firstn in Hk.
    exists k. repeat split; [lia|lia].
Qed.

(** ** Sample values

    A configuration to run the model on: the magic marker is the one
    [Header.ValidateMagic] accepts and the header width that of
    magic[2] | type[1] | length[8]. *)
Definition sample_constants : Constants :=
  {| MagicCode := (x1e, xc5);
     HeaderLen := 11;
     MaxMsgLen := 20000000;
     msgTypePing := 0;
     msgTypePong := 1;
     msgTypeGetPeerAddrs := 2;
     msgTypePeerAddrs := 3;
     msgTypeError := 4;
     maxStringLength := 1024;
     maxPeerAddresses := 256 |}.

Definition Ping_zero : Ping := {| TotalDifficulty := 0; Height := 0 |}.
Definition Pong_zero : Pong := {| Pong_Ping := Ping_zero |}.
Definition GetPeerAddrs_zero : GetPeerAddrs := {| Capabilities := 0 |}.
Definition PeerError_zero : PeerError := {| Code := 0; PeerError_Message := [] |}.
Definition PeerAddrs_zero : PeerAddrs := {| peers := [] |}.

(** A header with the Ping tag of [sample_constants] that declares [len]
    body bytes. *)
Definition sample_ping_header (len : Z) : list byte :=
  [x1e; xc5; x00] ++ PutUint 8 len.

(** The body of Ping{1000, 42}. *)
Definition sample_ping_body : list byte :=
  PutUint 8 1000 ++ PutUint 8 42.

(** * The claims *)

(** What [ReadMessage c r msg] took from the stream [r] stays within the
    frame: the header width, and the declared length once a header is
    decoded. *)
Definition ReadMessage_within_frame (c : Constants) {M : Type} `{Message M}
    (r : io.Stream) (msg : M) : Prop :=
  let '(_, _, r', _) := ReadMessage c r msg in
  match Header_Read (Header_zero, io.LimitReader r (int64 (HeaderLen c))) with
  | (Ok _, (header, _)) => consumed_at_most r r' (HeaderLen c + Len header)
  | (Err _, _) => consumed_at_most r r' (HeaderLen c)
  end.

(** C4: for every input stream and every expected message of the five
    variants, ReadMessage never consumes more than header width +
    header.length bytes from the stream (never more than the header width
    when no header is decoded): the header is decoded through a reader
    limited to the header width and the body through a reader limited to
    header.length, so a malformed body cannot read into the next message. *)
Theorem ReadMessage_stays_within_frame (c : Constants) (r : io.Stream) :
  0 <= HeaderLen c ->
  (forall msg : Ping, ReadMessage_within_frame c r msg)
  /\ (forall msg : Pong, ReadMessage_within_frame c r msg)
  /\ (forall msg : GetPeerAddrs, ReadMessage_within_frame c r msg)
  /\ (forall msg : PeerError, ReadMessage_within_frame c r msg)
  /\ (forall msg : PeerAddrs, ReadMessage_within_frame c r msg).
Proof.
  intros Hpos. unfold ReadMessage_within_frame.
  repeat split; intros msg.
  - apply (ReadMessage_bounded c Ping_reads_within Hpos r msg).
  - apply (ReadMessage_bounded c Pong_reads_within Hpos r msg).
  - apply (ReadMessage_bounded c GetPeerAddrs_reads_within Hpos r msg).
  - apply (ReadMessage_bounded c PeerError_reads_within Hpos r msg).
  - apply (ReadMessage_bounded c PeerAddrs_reads_within Hpos r msg).
Qed.

(** A PeerAddrs frame that declares a body of five bytes and a count of
    two addresses, followed by the next frame: the decoder stops at the end
    of the five bytes. *)
Definition sample_short_addrs_stream : io.Stream :=
  {| io.unread := [x1e; xc5; x03] ++ PutUint 8 5 ++ PutUint 4 2 ++ [x00]
                  ++ sample_ping_header 16 ++ sample_ping_body |}.

Lemma ReadMessage_stays_within_frame_witness :
  0 <= HeaderLen sample_constants
  /\ ReadMessage_within_frame sample_constants sample_short_addrs_stream PeerAddrs_zero.
Proof.
  assert (Hpos : 0 <= HeaderLen sample_constants) by (vm_compute; discriminate).
  split; [exact Hpos|].
  apply (ReadMessage_stays_within_frame sample_constants sample_short_addrs_stream Hpos).
Defined.

(** C5: Header decode reads exactly two bytes for the magic marker; when
    they are not the fixed magic constant 0x1e 0xc5 it fails with the
    invalid-magic error and takes nothing more from the reader: type and
    length are not read and keep their values. *)
Theorem Header_Read_invalid_magic {R : Type} `{io.LawfulReader R}
    (h : Header) (r : R) (b0 b1 : byte) (rest : list byte) :
  io.avail r = b0 :: b1 :: rest ->
  (b0, b1) <> (x1e, xc5) ->
  Header_Read (h, r) =
    (Err (errors_New "invalid magic code"),
     ({| magic := (b0, b1); Header_Type := Header_Type h; Len := Len h |},
      io.advance r 2))
  /\ io.avail (io.advance r 2) = rest.
Proof.
  intros Ha Hne. split.
  - apply Header_Read_bad_magic with (rest := rest); [exact Ha|].
    apply andb_false_iff.
    destruct (Z.eqb_spec (Z_of_byte b0) 0x1e) as [E0|]; [|left; reflexivity].
    destruct (Z.eqb_spec (Z_of_byte b1) 0xc5) as [E1|]; [|right; reflexivity].
    exfalso. apply Hne. f_equal; apply Z_of_byte_inj; assumption.
  - rewrite io.avail_advance, Ha. reflexivity.
Qed.

Lemma Header_Read_invalid_magic_witness :
  (x1e, xc6) <> (x1e, xc5)
  /\ Header_Read (Header_zero, {| io.unread := [x1e; xc6; x00; x07] |}) =
     (Err (errors_New "invalid magic code"),
      ({| magic := (x1e, xc6); Header_Type := 0; Len := 0 |},
       {| io.unread := [x00; x07] |})).
Proof.
  assert (Hne : (x1e, xc6) <> (x1e, xc5)) by discriminate.
  split; [exact Hne|].
  exact (proj1 (Header_Read_invalid_magic Header_zero
                  {| io.unread := [x1e; xc6; x00; x07] |} x1e xc6 [x00; x07]
                  eq_refl Hne)).
Defined.

(** C6: when the type tag of a successfully decoded header differs from
    the expected message's Type(), ReadMessage fails with the
    unexpected-message-type error, returns the header width as bytes read,
    and has taken the eleven header bytes from the stream and no byte of
    the body; the message is untouched. *)
Theorem ReadMessage_unexpected_message_type (c : Constants) {M : Type} `{Message M}
    (r : io.Stream) (msg : M) (h : Header) (rh : io.LimitedReader io.Stream) :
  0 <= HeaderLen c < 2 ^ 64 ->
  Header_Read (Header_zero, io.LimitReader r (int64 (HeaderLen c))) = (Ok tt, (h, rh)) ->
  Header_Type h <> Type_ c msg ->
  ReadMessage c r msg =
    (HeaderLen c, Some (errors_New "receive unexpected message type"),
     {| io.unread := skipn 11 (io.unread r) |}, msg)
  /\ (11 <= length (io.unread r))%nat.
Proof.
  intros HHL E Ht.
  destruct (header_from_stream _ _ _ _ _ E) as (H11 & _ & Hrh).
  split; [|exact H11].
  rewrite (ReadMessage_type_differs c r msg h rh E Ht), Hrh, uint64_small by exact HHL.
  reflexivity.
Qed.

(** A Ping-tagged frame read with a Pong decoder. *)
Lemma ReadMessage_unexpected_message_type_witness :
  let r := {| io.unread := sample_ping_header 16 ++ sample_ping_body |} in
  let h := {| magic := (x1e, xc5); Header_Type := 0; Len := 16 |} in
  let rh := {| io.LR := {| io.unread := sample_ping_body |}; io.N := 0 |} in
  0 <= HeaderLen sample_constants < 2 ^ 64
  /\ Header_Read (Header_zero, io.LimitReader r (int64 (HeaderLen sample_constants)))
     = (Ok tt, (h, rh))
  /\ Header_Type h <> Type_ sample_constants Pong_zero
  /\ ReadMessage sample_constants r Pong_zero =
       (11, Some (errors_New "receive unexpected message type"),
        {| io.unread := sample_ping_body |}, Pong_zero).
Proof.
  intros r h rh.
  assert (H1 : 0 <= HeaderLen sample_constants < 2 ^ 64)
    by (vm_compute; split; [discriminate|reflexivity]).
  assert (H2 : Header_Read (Header_zero,
                 io.LimitReader r (int64 (HeaderLen sample_constants)))
               = (Ok tt, (h, rh))) by (vm_compute; reflexivity).
  assert (H3 : Header_Type h <> Type_ sample_constants Pong_zero)
    by (vm_compute; discriminate).
  refine (conj H1 (conj H2 (conj H3 _))).
  exact (proj1 (ReadMessage_unexpected_message_type sample_constants r Pong_zero h rh
                  H1 H2 H3)).
Defined.

Section Oversized.
Context {R : Type} `{io.LawfulReader R}.
Variable c : Constants.

Lemma PeerError_Read_oversized (p : PeerError) (r : R) :
  (12 <= length (io.avail r))%nat ->
  Uint (firstn 8 (skipn 4 (io.avail r))) > maxStringLength c ->
  PeerError_Read c (p, r) =
    (Err (errors_New "invalid messageLen len value"),
     ({| Code := Uint (firstn 4 (io.avail r));
         PeerError_Message := PeerError_Message p |},
      io.advance r 12)).
Proof.
  intros Hlen Hbig. unfold PeerError_Read.
  rewrite run_binary_Read.
  replace (4 <=? length (io.avail r))%nat with true by (symmetry; apply Nat.leb_le; lia).
  rewrite run_assign, run_binary_Read, io.avail_advance, length_skipn.
  replace (8 <=? length (io.avail r) - 4)%nat with true
    by (symmetry; apply Nat.leb_le; lia).
  destruct (Z.gtb_spec (Uint (firstn 8 (skipn 4 (io.avail r)))) (maxStringLength c));
    [|lia].
  rewrite run_fail, io.advance_add. reflexivity.
Qed.

Lemma PeerAddrs_Read_oversized (p : PeerAddrs) (r : R) :
  (4 <= length (io.avail r))%nat ->
  Uint (firstn 4 (io.avail r)) > maxPeerAddresses c ->
  PeerAddrs_Read c (p, r) =
    (Err (errors_New "invalid peersCount value"), (p, io.advance r 4)).
Proof.
  intros Hlen Hbig. unfold PeerAddrs_Read.
  rewrite run_binary_Read.
  replace (4 <=? length (io.avail r))%nat with true by (symmetry; apply Nat.leb_le; lia).
  destruct (Z.gtb_spec (Uint (firstn 4 (io.avail r))) (maxPeerAddresses c)); [|lia].
  apply run_fail.
Qed.

End Oversized.

(** C2: every oversized declaration is rejected before its payload is
    read.  ReadMessage fails when the length of the decoded header exceeds
    MaxMsgLen, with the stream advanced by the eleven header bytes only;
    PeerError.Read fails when the declared message length exceeds
    maxStringLength, with the reader advanced by the code and the length
    field only; PeerAddrs.Read fails when the declared count exceeds
    maxPeerAddresses, with the reader advanced by the count field only. *)
Theorem oversized_declaration_rejected (c : Constants)
    {M : Type} `{Message M} {R : Type} `{io.LawfulReader R}
    (s : io.Stream) (msg : M) (h : Header) (rh : io.LimitedReader io.Stream)
    (pe : PeerError) (pa : PeerAddrs) (r : R) :
  (0 <= HeaderLen c < 2 ^ 64 ->
   Header_Read (Header_zero, io.LimitReader s (int64 (HeaderLen c))) = (Ok tt, (h, rh)) ->
   Header_Type h = Type_ c msg ->
   Len h > MaxMsgLen c ->
   ReadMessage c s msg =
     (HeaderLen c, Some (errors_New "too big message size"),
      {| io.unread := skipn 11 (io.unread s) |}, msg)
   /\ (11 <= length (io.unread s))%nat)
  /\ ((12 <= length (io.avail r))%nat ->
      Uint (firstn 8 (skipn 4 (io.avail r))) > maxStringLength c ->
      PeerError_Read c (pe, r) =
        (Err (errors_New "invalid messageLen len value"),
         ({| Code := Uint (firstn 4 (io.avail r));
             PeerError_Message := PeerError_Message pe |},
          io.advance r 12)))
  /\ ((4 <= length (io.avail r))%nat ->
      Uint (firstn 4 (io.avail r)) > maxPeerAddresses c ->
      PeerAddrs_Read c (pa, r) =
        (Err (errors_New "invalid peersCount value"), (pa, io.advance r 4))).
Proof.
  split; [|split].
  - intros HHL E Ht Hbig.
    destruct (header_from_stream _ _ _ _ _ E) as (H11 & _ & Hrh).
    split; [|exact H11].
    rewrite (ReadMessage_too_long c s msg h rh E Ht Hbig), Hrh, uint64_small
      by exact HHL.
    reflexivity.
  - apply PeerError_Read_oversized.
  - apply PeerAddrs_Read_oversized.
Qed.

(** A frame that declares 20000001 body bytes, a PeerError body that
    declares a message of 1025 bytes, a PeerAddrs body that declares 257
    addresses. *)
Lemma oversized_declaration_rejected_witness :
  let s := {| io.unread := sample_ping_header 20000001 ++ [x01; x02] |} in
  let h := {| magic := (x1e, xc5); Header_Type := 0; Len := 20000001 |} in
  let rh := {| io.LR := {| io.unread := [x01; x02] |}; io.N := 0 |} in
  let r1 := {| io.unread := PutUint 4 7 ++ PutUint 8 1025 ++ [x41; x42] |} in
  let r2 := {| io.unread := PutUint 4 257 ++ [x00; x01] |} in
  (0 <= HeaderLen sample_constants < 2 ^ 64
   /\ Header_Read (Header_zero, io.LimitReader s (int64 (HeaderLen sample_constants)))
      = (Ok tt, (h, rh))
   /\ Header_Type h = Type_ sample_constants Ping_zero
   /\ Len h > MaxMsgLen sample_constants
   /\ ReadMessage sample_constants s Ping_zero =
        (11, Some (errors_New "too big message size"),
         {| io.unread := [x01; x02] |}, Ping_zero))
  /\ ((12 <= length (io.avail r1))%nat
      /\ Uint (firstn 8 (skipn 4 (io.avail r1))) > maxStringLength sample_constants
      /\ PeerError_Read sample_constants (PeerError_zero, r1) =
           (Err (errors_New "invalid messageLen len value"),
            ({| Code := 7; PeerError_Message := [] |}, {| io.unread := [x41; x42] |})))
  /\ ((4 <= length (io.avail r2))%nat
      /\ Uint (firstn 4 (io.avail r2)) > maxPeerAddresses sample_constants
      /\ PeerAddrs_Read sample_constants (PeerAddrs_zero, r2) =
           (Err (errors_New "invalid peersCount value"),
            (PeerAddrs_zero, {| io.unread := [x00; x01] |}))).
Proof.
  intros s h rh r1 r2.
  assert (A1 : 0 <= HeaderLen sample_constants < 2 ^ 64)
    by (vm_compute; split; [discriminate|reflexivity]).
  assert (A2 : Header_Read (Header_zero,
                 io.LimitReader s (int64 (HeaderLen sample_constants)))
               = (Ok tt, (h, rh))) by (vm_compute; reflexivity).
  assert (A3 : Header_Type h = Type_ sample_constants Ping_zero) by reflexivity.
  assert (A4 : Len h > MaxMsgLen sample_constants) by reflexivity.
  assert (B1 : (12 <= length (io.avail r1))%nat) by (vm_compute; lia).
  assert (B2 : Uint (firstn 8 (skipn 4 (io.avail r1))) > maxStringLength sample_constants)
    by reflexivity.
  assert (C1 : (4 <= length (io.avail r2))%nat) by (vm_compute; lia).
  assert (C2 : Uint (firstn 4 (io.avail r2)) > maxPeerAddresses sample_constants)
    by reflexivity.
  pose proof (oversized_declaration_rejected sample_constants s Ping_zero h rh
                PeerError_zero PeerAddrs_zero r1) as T1.
  pose proof (oversized_declaration_rejected sample_constants s Ping_zero h rh
                PeerError_zero PeerAddrs_zero r2) as T2.
  split; [|split].
  - refine (conj A1 (conj A2 (conj A3 (conj A4 _)))).
    exact (proj1 (proj1 T1 A1 A2 A3 A4)).
  - refine (conj B1 (conj B2 _)). exact (proj1 (proj2 T1) B1 B2).
  - refine (conj C1 (conj C2 _)). exact (proj2 (proj2 T2) C1 C2).
Defined.

(** C10: when the body decoder fails after a valid header of the expected
    type and of an accepted length, ReadMessage returns that error together
    with the count header width + header.length, the declared total,
    whatever the decoder took from the stream before it failed. *)
Theorem ReadMessage_body_error_count (c : Constants) {M : Type} `{Message M}
    (r : io.Stream) (msg msg' : M) (h : Header) (rh rb : io.LimitedReader io.Stream)
    (e : error) :
  0 <= HeaderLen c ->
  HeaderLen c + MaxMsgLen c < 2 ^ 64 ->
  Header_Read (Header_zero, io.LimitReader r (int64 (HeaderLen c))) = (Ok tt, (h, rh)) ->
  Header_Type h = Type_ c msg ->
  Len h <= MaxMsgLen c ->
  Read c (msg, io.LimitReader (io.LR rh) (int64 (Len h))) = (Err e, (msg', rb)) ->
  ReadMessage c r msg = (HeaderLen c + Len h, Some e, io.LR rb, msg').
Proof.
  intros Hpos Hsum E Ht Hfit Eb.
  destruct (Header_Read_Ok_range _ _ _ _ E) as (_ & HLen).
  rewrite (ReadMessage_body c r msg h rh (Err e) msg' rb E Ht Hfit Eb).
  rewrite (uint64_small (HeaderLen c)), (uint64_small (Len h)), uint64_small by lia.
  reflexivity.
Qed.

(** A Ping frame that declares sixteen body bytes of which three arrive:
    the count is 27 although fourteen bytes were taken from the stream. *)
Lemma ReadMessage_body_error_count_witness :
  let r := {| io.unread := sample_ping_header 16 ++ [x01; x02; x03] |} in
  let h := {| magic := (x1e, xc5); Header_Type := 0; Len := 16 |} in
  let rh := {| io.LR := {| io.unread := [x01; x02; x03] |}; io.N := 0 |} in
  let rb := {| io.LR := {| io.unread := [] |}; io.N := 13 |} in
  0 <= HeaderLen sample_constants
  /\ HeaderLen sample_constants + MaxMsgLen sample_constants < 2 ^ 64
  /\ Header_Read (Header_zero, io.LimitReader r (int64 (HeaderLen sample_constants)))
     = (Ok tt, (h, rh))
  /\ Header_Type h = Type_ sample_constants Ping_zero
  /\ Len h <= MaxMsgLen sample_constants
  /\ Read sample_constants (Ping_zero, io.LimitReader (io.LR rh) (int64 (Len h)))
     = (Err ErrUnexpectedEOF, (Ping_zero, rb))
  /\ ReadMessage sample_constants r Ping_zero =
       (27, Some ErrUnexpectedEOF, {| io.unread := [] |}, Ping_zero).
Proof.
  intros r h rh rb.
  assert (A1 : 0 <= HeaderLen sample_constants) by (vm_compute; discriminate).
  assert (A2 : HeaderLen sample_constants + MaxMsgLen sample_constants < 2 ^ 64)
    by reflexivity.
  assert (A3 : Header_Read (Header_zero,
                 io.LimitReader r (int64 (HeaderLen sample_constants)))
               = (Ok tt, (h, rh))) by (vm_compute; reflexivity).
  assert (A4 : Header_Type h = Type_ sample_constants Ping_zero) by reflexivity.
  assert (A5 : Len h <= MaxMsgLen sample_constants) by (vm_compute; discriminate).
  assert (A6 : Read sample_constants
                 (Ping_zero, io.LimitReader (io.LR rh) (int64 (Len h)))
               = (Err ErrUnexpectedEOF, (Ping_zero, rb))) by (vm_compute; reflexivity).
  refine (conj A1 (conj A2 (conj A3 (conj A4 (conj A5 (conj A6 _)))))).
  exact (ReadMessage_body_error_count sample_constants r Ping_zero Ping_zero h rh rb
           ErrUnexpectedEOF A1 A2 A3 A4 A5 A6).
Defined.

(** ** Decoding what was encoded *)
Section RoundTrip.
Context {R : Type} `{io.LawfulReader R}.

Lemma avail_advance_app (r : R) (bs rest : list byte) (n : nat) :
  io.avail r = bs ++ rest -> length bs = n -> io.avail (io.advance r n) = rest.
Proof.
  intros Ha <-. rewrite io.avail_advance, Ha, skipn_app, skipn_all, Nat.sub_diag.
  reflexivity.
Qed.

Lemma run_binary_Read_app {P B} (n : nat) (k : Z -> St (P * R) B) (p : P) (r : R)
    (bs rest : list byte) :
  io.avail r = bs ++ rest -> length bs = n ->
  bind (on_reader (binary.Read n)) k (p, r) = k (Uint bs) (p, io.advance r n).
Proof.
  intros Ha <-. rewrite run_binary_Read, Ha, length_app.
  replace (length bs <=? length bs + length rest)%nat with true
    by (symmetry; apply Nat.leb_le; lia).
  rewrite firstn_app, firstn_all, Nat.sub_diag, firstn_O, app_nil_r. reflexivity.
Qed.

Lemma run_binary_ReadBytes_app {P B} (n : nat) (k : list byte -> St (P * R) B)
    (p : P) (r : R) (bs rest : list byte) :
  io.avail r = bs ++ rest -> length bs = n ->
  bind (on_reader (binary.ReadBytes n)) k (p, r) = k bs (p, io.advance r n).
Proof.
  intros Ha <-. rewrite run_binary_ReadBytes, Ha, length_app.
  replace (length bs <=? length bs + length rest)%nat with true
    by (symmetry; apply Nat.leb_le; lia).
  rewrite firstn_app, firstn_all, Nat.sub_diag, firstn_O, app_nil_r. reflexivity.
Qed.

Lemma Uint_PutUint_small (n : nat) (v : Z) :
  0 <= v < 2 ^ (8 * Z.of_nat n) -> Uint (PutUint n v) = v.
Proof. intros Hv. rewrite Uint_PutUint. apply Z.mod_small. exact Hv. Qed.

(** The fields of a Ping are [uint64]. *)
Definition Ping_valid (p : Ping) : Prop :=
  0 <= TotalDifficulty p < 2 ^ 64 /\ 0 <= Height p < 2 ^ 64.

Lemma Ping_Read_Bytes (p p0 : Ping) (r : R) (rest : list byte) :
  Ping_valid p ->
  io.avail r = PutUint 8 (uint64 (TotalDifficulty p))
               ++ PutUint 8 (uint64 (Height p)) ++ rest ->
  Ping_Read (p0, r) = (Ok tt, (p, io.advance r 16)).
Proof.
  intros [Htd Hh] Ha. unfold Ping_Read.
  rewrite (run_binary_Read_app 8 _ _ r _ _ Ha (length_PutUint _ _)), run_assign.
  pose proof (avail_advance_app r _ _ 8 Ha (length_PutUint _ _)) as Ha1.
  rewrite (run_binary_Read_app 8 _ _ _ _ _ Ha1 (length_PutUint _ _)), run_assign_last.
  rewrite io.advance_add. cbn [Nat.add TotalDifficulty Height].
  rewrite !Uint_PutUint_small, !uint64_small; trivial.
  - destruct p; reflexivity.
  - rewrite uint64_small by exact Hh. exact Hh.
  - rewrite uint64_small by exact Htd. exact Htd.
Qed.

(** The field of a GetPeerAddrs is a [uint32]. *)
Definition GetPeerAddrs_valid (p : GetPeerAddrs) : Prop := 0 <= Capabilities p < 2 ^ 32.

Lemma GetPeerAddrs_Read_Bytes (p p0 : GetPeerAddrs) (r : R) (rest : list byte) :
  GetPeerAddrs_valid p ->
  io.avail r = PutUint 4 (uint32 (Capabilities p)) ++ rest ->
  GetPeerAddrs_Read (p0, r) = (Ok tt, (p, io.advance r 4)).
Proof.
  intros Hc Ha. unfold GetPeerAddrs_Read.
  rewrite (run_binary_Read_app 4 _ _ r _ _ Ha (length_PutUint _ _)), run_assign_last.
  assert (Hw : uint32 (Capabilities p) = Capabilities p) by (apply Z.mod_small; exact Hc).
  rewrite Uint_PutUint_small, Hw by (rewrite Hw; exact Hc).
  destruct p; reflexivity.
Qed.

(** [Code] is a [uint32]; the message is no longer than the ceiling, which
    is itself a constant that is compared with a [uint64]. *)
Definition PeerError_valid (c : Constants) (p : PeerError) : Prop :=
  0 <= Code p < 2 ^ 32
  /\ Z.of_nat (length (PeerError_Message p)) <= maxStringLength c
  /\ maxStringLength c < 2 ^ 64.

Lemma PeerError_Read_Bytes (c : Constants) (p p0 : PeerError) (r : R) (rest : list byte) :
  PeerError_valid c p ->
  io.avail r = PutUint 4 (uint32 (Code p))
               ++ PutUint 8 (uint64 (Z.of_nat (length (PeerError_Message p))))
               ++ PeerError_Message p ++ rest ->
  PeerError_Read c (p0, r) =
    (Ok tt, (p, io.advance r (12 + length (PeerError_Message p)))).
Proof.
  intros (Hc & Hlen & Hmax) Ha. unfold PeerError_Read.
  assert (Hw : uint32 (Code p) = Code p) by (apply Z.mod_small; exact Hc).
  assert (Hl : uint64 (Z.of_nat (length (PeerError_Message p)))
               = Z.of_nat (length (PeerError_Message p))) by (apply uint64_small; lia).
  rewrite Hw, Hl in Ha.
  rewrite (run_binary_Read_app 4 _ _ r _ _ Ha (length_PutUint _ _)), run_assign.
  pose proof (avail_advance_app r _ _ 4 Ha (length_PutUint _ _)) as Ha1.
  rewrite (run_binary_Read_app 8 _ _ _ _ _ Ha1 (length_PutUint _ _)).
  pose proof (avail_advance_app _ _ _ 8 Ha1 (length_PutUint _ _)) as Ha2.
  rewrite !Uint_PutUint_small by (simpl Z.of_nat; lia).
  destruct (Z.gtb_spec (Z.of_nat (length (PeerError_Message p))) (maxStringLength c));
    [lia|].
  rewrite Nat2Z.id.
  rewrite (run_binary_ReadBytes_app _ _ _ _ _ _ Ha2 eq_refl), run_assign_last.
  rewrite !io.advance_add. cbn [Code]. destruct p; reflexivity.
Qed.

End RoundTrip.

Section RoundTripAddrs.
Context {R : Type} `{io.LawfulReader R}.

(** An address that the wire format carries in full: four or sixteen
    address bytes, a port that fits sixteen bits, no zone. *)
Definition TCPAddr_valid (a : net.TCPAddr) : Prop :=
  (length (net.IP a) = net.IPv4len \/ length (net.IP a) = net.IPv6len)
  /\ 0 <= net.Port a < 2 ^ 16
  /\ net.Zone a = ""%string.

(** The bytes of one entry of an address list. *)
Definition entry_bytes (a : net.TCPAddr) : list byte :=
  (if (length (net.IP a) =? net.IPv4len)%nat then [x00] else [x01])
  ++ net.IP a ++ PutUint 2 (uint16 (net.Port a)).

Lemma PeerAddrs_Bytes_entry_Some (a : net.TCPAddr) :
  length (net.IP a) = net.IPv4len \/ length (net.IP a) = net.IPv6len ->
  PeerAddrs_Bytes_entry a = Some (entry_bytes a).
Proof.
  unfold PeerAddrs_Bytes_entry, entry_bytes. intros [E|E]; rewrite E; reflexivity.
Qed.

Lemma PeerAddrs_Bytes_loop_Some (ps : list net.TCPAddr) (buff : list byte) :
  Forall (fun a => length (net.IP a) = net.IPv4len \/ length (net.IP a) = net.IPv6len) ps ->
  PeerAddrs_Bytes_loop ps buff = Some (buff ++ flat_map entry_bytes ps).
Proof.
  intros Hall. revert buff.
  induction Hall as [|a ps Ha _ IH]; intros buff; cbn [PeerAddrs_Bytes_loop flat_map].
  - rewrite app_nil_r. reflexivity.
  - rewrite (PeerAddrs_Bytes_entry_Some a Ha), IH, app_assoc. reflexivity.
Qed.

Lemma length_entry_bytes (a : net.TCPAddr) :
  length (entry_bytes a) = (3 + length (net.IP a))%nat.
Proof.
  unfold entry_bytes. rewrite !length_app, length_PutUint.
  destruct (length (net.IP a) =? net.IPv4len)%nat; simpl; lia.
Qed.

(** One turn of the decoding loop on the bytes of one entry. *)
Lemma PeerAddrs_Read_loop_entry (count : nat) (a : net.TCPAddr) (acc : list net.TCPAddr)
    (r : R) (rest : list byte) :
  TCPAddr_valid a ->
  io.avail r = entry_bytes a ++ rest ->
  PeerAddrs_Read_loop (S count) ({| peers := acc |}, r) =
    PeerAddrs_Read_loop count
      ({| peers := acc ++ [a] |}, io.advance r (length (entry_bytes a))).
Proof.
  intros (Hip & Hport & Hzone) Ha.
  rewrite length_entry_bytes.
  unfold entry_bytes in Ha. rewrite <- !app_assoc in Ha.
  cbn [PeerAddrs_Read_loop].
  assert (Hp : Uint (PutUint 2 (uint16 (net.Port a))) = net.Port a).
  { assert (Hw : uint16 (net.Port a) = net.Port a) by (apply Z.mod_small; exact Hport).
    rewrite Hw. apply Uint_PutUint_small. exact Hport. }
  assert (Hrec : {| net.IP := net.IP a; net.Port := net.Port a; net.Zone := "" |} = a)
    by (destruct a; cbn in *; subst; reflexivity).
  destruct Hip as [E|E]; rewrite E in Ha; cbn [Nat.eqb net.IPv4len net.IPv6len] in Ha.
  - rewrite (run_binary_Read_app 1 _ _ r [x00] _ Ha eq_refl).
    pose proof (avail_advance_app r [x00] _ 1 Ha eq_refl) as Ha1.
    change (int8 (Uint [x00]) =? 0) with true. cbv iota.
    rewrite (run_binary_ReadBytes_app _ _ _ _ _ _ Ha1 E).
    pose proof (avail_advance_app _ _ _ _ Ha1 E) as Ha2.
    rewrite (run_binary_Read_app 2 _ _ _ _ _ Ha2 (length_PutUint _ _)), run_assign.
    rewrite Hp, Hrec, !io.advance_add, E. reflexivity.
  - rewrite (run_binary_Read_app 1 _ _ r [x01] _ Ha eq_refl).
    pose proof (avail_advance_app r [x01] _ 1 Ha eq_refl) as Ha1.
    change (int8 (Uint [x01]) =? 0) with false. cbv iota.
    rewrite (run_binary_ReadBytes_app _ _ _ _ _ _ Ha1 E).
    pose proof (avail_advance_app _ _ _ _ Ha1 E) as Ha2.
    rewrite (run_binary_Read_app 2 _ _ _ _ _ Ha2 (length_PutUint _ _)), run_assign.
    rewrite Hp, Hrec, !io.advance_add, E. reflexivity.
Qed.

Lemma PeerAddrs_Read_loop_entries (ps acc : list net.TCPAddr) (r : R) (rest : list byte) :
  Forall TCPAddr_valid ps ->
  io.avail r = flat_map entry_bytes ps ++ rest ->
  PeerAddrs_Read_loop (length ps) ({| peers := acc |}, r) =
    (Ok tt, ({| peers := acc ++ ps |},
             io.advance r (length (flat_map entry_bytes ps)))).
Proof.
  intros Hall. revert acc r.
  induction Hall as [|a ps Ha _ IH]; intros acc r Hr.
  - cbn. rewrite app_nil_r, io.advance_0. reflexivity.
  - cbn [length flat_map] in *. rewrite <- app_assoc in Hr.
    rewrite (PeerAddrs_Read_loop_entry _ a acc r _ Ha Hr).
    rewrite (IH (acc ++ [a]) _ (avail_advance_app r _ _ _ Hr eq_refl)).
    rewrite <- app_assoc, io.advance_add, length_app. reflexivity.
Qed.

(** The list is no longer than the ceiling, which is itself a constant
    that is compared with a [uint32], and every address is one the wire
    format carries in full. *)
Definition PeerAddrs_valid (c : Constants) (p : PeerAddrs) : Prop :=
  Z.of_nat (length (peers p)) <= maxPeerAddresses c
  /\ maxPeerAddresses c < 2 ^ 32
  /\ Forall TCPAddr_valid (peers p).

Lemma Forall_TCPAddr_valid_len (ps : list net.TCPAddr) :
  Forall TCPAddr_valid ps ->
  Forall (fun a => length (net.IP a) = net.IPv4len \/ length (net.IP a) = net.IPv6len) ps.
Proof. apply Forall_impl. intros a (Hip & _). exact Hip. Qed.

Lemma PeerAddrs_Bytes_valid (c : Constants) (p : PeerAddrs) :
  PeerAddrs_valid c p ->
  PeerAddrs_Bytes p =
    Some (PutUint 4 (Z.of_nat (length (peers p))) ++ flat_map entry_bytes (peers p)).
Proof.
  intros (Hlen & Hmax & Hall). unfold PeerAddrs_Bytes.
  rewrite (PeerAddrs_Bytes_loop_Some _ _ (Forall_TCPAddr_valid_len _ Hall)).
  unfold uint32, wrap. rewrite Z.mod_small by lia. reflexivity.
Qed.

Lemma PeerAddrs_Read_Bytes (c : Constants) (p : PeerAddrs) (r : R) (rest : list byte) :
  PeerAddrs_valid c p ->
  io.avail r = PutUint 4 (Z.of_nat (length (peers p)))
               ++ flat_map entry_bytes (peers p) ++ rest ->
  PeerAddrs_Read c (PeerAddrs_zero, r) =
    (Ok tt, (p, io.advance r (4 + length (flat_map entry_bytes (peers p))))).
Proof.
  intros (Hlen & Hmax & Hall) Ha. unfold PeerAddrs_Read, PeerAddrs_zero.
  rewrite (run_binary_Read_app 4 _ _ r _ _ Ha (length_PutUint _ _)).
  pose proof (avail_advance_app r _ _ 4 Ha (length_PutUint _ _)) as Ha1.
  rewrite Uint_PutUint_small by (simpl Z.of_nat; lia).
  destruct (Z.gtb_spec (Z.of_nat (length (peers p))) (maxPeerAddresses c)); [lia|].
  rewrite Nat2Z.id.
  rewrite (PeerAddrs_Read_loop_entries _ [] _ _ Hall Ha1), io.advance_add.
  destruct p; reflexivity.
Qed.

End RoundTripAddrs.

(** [m] is what [Read] makes of the receiver [m0] when it is given the
    bytes of [m.Bytes()] and nothing else; all of them are consumed. *)
Definition decodes_back (c : Constants) {M : Type} `{Message M} (m m0 : M) : Prop :=
  exists body : list byte,
    Bytes m = Some body
    /\ Read c (m0, {| io.unread := body |}) = (Ok tt, (m, {| io.unread := [] |})).

Lemma advance_whole (body : list byte) (n : nat) :
  n = length body ->
  io.advance {| io.unread := body |} n = {| io.unread := [] |}.
Proof.
  intros ->. cbn [io.advance io_facts.Stream_Lawful io.unread].
  rewrite skipn_all. reflexivity.
Qed.

(** C1 (amended): for every message variant and field values that the
    wire format carries in full (integers within their width, message
    string length within maxStringLength, address count within
    maxPeerAddresses, every address 4 or 16 bytes long with a port below
    65536 and no zone), decoding the bytes produced by the variant's
    Bytes() with that variant's Read reproduces the original value, whatever
    the receiver held before; for PeerAddrs, whose Read appends, the
    receiver is empty. *)
Theorem Bytes_Read_round_trip (c : Constants) :
  (forall p p0 : Ping, Ping_valid p -> decodes_back c p p0)
  /\ (forall p p0 : Pong, Ping_valid (Pong_Ping p) -> decodes_back c p p0)
  /\ (forall p p0 : GetPeerAddrs, GetPeerAddrs_valid p -> decodes_back c p p0)
  /\ (forall p p0 : PeerError, PeerError_valid c p -> decodes_back c p p0)
  /\ (forall p : PeerAddrs, PeerAddrs_valid c p -> decodes_back c p PeerAddrs_zero).
Proof.
  unfold decodes_back. repeat split.
  - intros p p0 Hv. eexists. split; [reflexivity|].
    cbn [Read Ping_Message].
    rewrite (Ping_Read_Bytes p p0 _ [] Hv)
      by (cbn [io.avail io_facts.Stream_Lawful io.unread];
          rewrite app_nil_r; reflexivity).
    rewrite advance_whole; [reflexivity|].
    rewrite length_app, !length_PutUint. reflexivity.
  - intros p p0 Hv. eexists. split; [reflexivity|].
    cbn [Read Pong_Message]. unfold Pong_Read.
    rewrite (Ping_Read_Bytes (Pong_Ping p) (Pong_Ping p0) _ [] Hv)
      by (cbn [io.avail io_facts.Stream_Lawful io.unread];
          rewrite app_nil_r; reflexivity).
    rewrite advance_whole; [destruct p; reflexivity|].
    rewrite length_app, !length_PutUint. reflexivity.
  - intros p p0 Hv. eexists. split; [reflexivity|].
    cbn [Read GetPeerAddrs_Message].
    rewrite (GetPeerAddrs_Read_Bytes p p0 _ [] Hv)
      by (cbn [io.avail io_facts.Stream_Lawful io.unread];
          rewrite app_nil_r; reflexivity).
    rewrite advance_whole; [reflexivity|].
    rewrite length_PutUint. reflexivity.
  - intros p p0 Hv. eexists. split; [reflexivity|].
    cbn [Read PeerError_Message_].
    rewrite (PeerError_Read_Bytes c p p0 _ [] Hv)
      by (cbn [io.avail io_facts.Stream_Lawful io.unread];
          rewrite app_nil_r; reflexivity).
    rewrite advance_whole; [reflexivity|].
    rewrite !length_app, !length_PutUint. lia.
  - intros p Hv. eexists. split.
    + cbn [Bytes PeerAddrs_Message]. apply (PeerAddrs_Bytes_valid c p Hv).
    + cbn [Read PeerAddrs_Message].
      rewrite (PeerAddrs_Read_Bytes c p _ [] Hv)
        by (cbn [io.avail io_facts.Stream_Lawful io.unread];
            rewrite app_nil_r; reflexivity).
      rewrite advance_whole; [reflexivity|].
      rewrite !length_app, !length_PutUint. reflexivity.
Qed.

Definition sample_ping : Ping := {| TotalDifficulty := 1000; Height := 42 |}.
Definition sample_pong : Pong := {| Pong_Ping := sample_ping |}.
Definition sample_get_peer_addrs : GetPeerAddrs := {| Capabilities := 15 |}.

(** A PeerError with the message "bad". *)
Definition sample_peer_error : PeerError :=
  {| Code := 7; PeerError_Message := [x62; x61; x64] |}.

(** 127.0.0.1:13414 and [::1]:3414. *)
Definition sample_peer_addrs : PeerAddrs :=
  {| peers :=
       [ {| net.IP := [x7f; x00; x00; x01]; net.Port := 13414; net.Zone := "" |};
         {| net.IP := [x00; x00; x00; x00; x00; x00; x00; x00;
                       x00; x00; x00; x00; x00; x00; x00; x01];
            net.Port := 3414; net.Zone := "" |} ] |}.

Ltac decide_ranges :=
  vm_compute; repeat split; first [discriminate | reflexivity].

Lemma sample_ping_valid : Ping_valid sample_ping.
Proof. decide_ranges. Defined.

Lemma sample_get_peer_addrs_valid : GetPeerAddrs_valid sample_get_peer_addrs.
Proof. decide_ranges. Defined.

Lemma sample_peer_error_valid : PeerError_valid sample_constants sample_peer_error.
Proof. decide_ranges. Defined.

Lemma sample_peer_addrs_valid : PeerAddrs_valid sample_constants sample_peer_addrs.
Proof.
  split; [|split]; [decide_ranges|decide_ranges|].
  repeat constructor; try (left; reflexivity); try (right; reflexivity);
    decide_ranges.
Defined.

Lemma Bytes_Read_round_trip_witness :
  (Ping_valid sample_ping /\ decodes_back sample_constants sample_ping Ping_zero)
  /\ (Ping_valid (Pong_Ping sample_pong)
      /\ decodes_back sample_constants sample_pong Pong_zero)
  /\ (GetPeerAddrs_valid sample_get_peer_addrs
      /\ decodes_back sample_constants sample_get_peer_addrs GetPeerAddrs_zero)
  /\ (PeerError_valid sample_constants sample_peer_error
      /\ decodes_back sample_constants sample_peer_error PeerError_zero)
  /\ (PeerAddrs_valid sample_constants sample_peer_addrs
      /\ decodes_back sample_constants sample_peer_addrs PeerAddrs_zero).
Proof.
  destruct (Bytes_Read_round_trip sample_constants) as (T1 & T2 & T3 & T4 & T5).
  exact (conj (conj sample_ping_valid
                    (T1 sample_ping Ping_zero sample_ping_valid))
        (conj (conj sample_ping_valid
                    (T2 sample_pong Pong_zero sample_ping_valid))
        (conj (conj sample_get_peer_addrs_valid
                    (T3 sample_get_peer_addrs GetPeerAddrs_zero
                        sample_get_peer_addrs_valid))
        (conj (conj sample_peer_error_valid
                    (T4 sample_peer_error PeerError_zero sample_peer_error_valid))
              (conj sample_peer_addrs_valid
                    (T5 sample_peer_addrs sample_peer_addrs_valid)))))).
Defined.

(** C1 as stated fails: an address list of one four-byte address within
    the configured maximum whose port, an [int], is 70000.  [Bytes] writes
    [uint16(70000)], that is 4464, and [Read] gives back the port 4464. *)
Lemma Bytes_Read_round_trip_counterexample :
  let p := {| peers := [ {| net.IP := [x7f; x00; x00; x01]; net.Port := 70000;
                            net.Zone := "" |} ] |} in
  let p' := {| peers := [ {| net.IP := [x7f; x00; x00; x01]; net.Port := 4464;
                             net.Zone := "" |} ] |} in
  let body := [x00; x00; x00; x01; x00; x7f; x00; x00; x01; x11; x70] in
  Z.of_nat (length (peers p)) <= maxPeerAddresses sample_constants
  /\ Forall (fun a => length (net.IP a) = 4%nat \/ length (net.IP a) = 16%nat) (peers p)
  /\ Bytes p = Some body
  /\ Read sample_constants (PeerAddrs_zero, {| io.unread := body |})
     = (Ok tt, (p', {| io.unread := [] |}))
  /\ p' <> p
  /\ ~ decodes_back sample_constants p PeerAddrs_zero.
Proof.
  intros p p' body.
  assert (HB : Bytes p = Some body) by (vm_compute; reflexivity).
  assert (HR : Read sample_constants (PeerAddrs_zero, {| io.unread := body |})
               = (Ok tt, (p', {| io.unread := [] |}))) by (vm_compute; reflexivity).
  assert (Hne : p' <> p) by (intros E; discriminate E).
  repeat split; trivial.
  - vm_compute. discriminate.
  - repeat constructor.
  - intros (body' & HB' & HR').
    rewrite HB in HB'. injection HB' as <-.
    rewrite HR in HR'. apply Hne. congruence.
Qed.

(** ** What a successful decode has consumed *)


Lemma state_eq_inv {A P S : Type} (a a' : A) (p p' : P) (s s' : S) :
  (a, (p, s)) = (a', (p', s')) -> p = p' /\ s = s'.
Proof. intros E. injection E. auto. Qed.

Section ExactDecoding.
Context {R : Type} `{io.LawfulReader R}.

Lemma Ping_Read_Ok_inv (p0 p' : Ping) (r r' : R) :
  Ping_Read (p0, r) = (Ok tt, (p', r')) ->
  (16 <= length (io.avail r))%nat /\ r' = io.advance r 16.
Proof.
  unfold Ping_Read. rewrite run_binary_Read.
  destruct (Nat.leb_spec 8 (length (io.avail r))) as [H1|H1]; [|discriminate].
  rewrite run_assign, run_binary_Read, io.avail_advance, length_skipn.
  destruct (Nat.leb_spec 8 (length (io.avail r) - 8)) as [H2|H2]; [|discriminate].
  rewrite run_assign_last, io.advance_add. intros E. injection E as _ <-.
  split; [lia|reflexivity].
Qed.

Lemma GetPeerAddrs_Read_Ok_inv (p0 p' : GetPeerAddrs) (r r' : R) :
  GetPeerAddrs_Read (p0, r) = (Ok tt, (p', r')) ->
  (4 <= length (io.avail r))%nat /\ r' = io.advance r 4.
Proof.
  unfold GetPeerAddrs_Read. rewrite run_binary_Read.
  destruct (Nat.leb_spec 4 (length (io.avail r))) as [H1|H1]; [|discriminate].
  rewrite run_assign_last. intros E. injection E as _ <-.
  split; [lia|reflexivity].
Qed.

Lemma PeerError_Read_Ok_inv (c : Constants) (p0 p' : PeerError) (r r' : R) :
  PeerError_Read c (p0, r) = (Ok tt, (p', r')) ->
  (12 + length (PeerError_Message p') <= length (io.avail r))%nat
  /\ r' = io.advance r (12 + length (PeerError_Message p')).
Proof.
  unfold PeerError_Read. rewrite run_binary_Read.
  destruct (Nat.leb_spec 4 (length (io.avail r))) as [H1|H1]; [|discriminate].
  rewrite run_assign, run_binary_Read, io.avail_advance, length_skipn.
  destruct (Nat.leb_spec 8 (length (io.avail r) - 4)) as [H2|H2]; [|discriminate].
  destruct (Uint (firstn 8 (skipn 4 (io.avail r))) >? maxStringLength c);
    [discriminate|].
  set (n := Z.to_nat (Uint (firstn 8 (skipn 4 (io.avail r))))).
  rewrite run_binary_ReadBytes, !io.avail_advance, skipn_skipn, length_skipn.
  cbn [Nat.add].
  destruct (Nat.leb_spec n (length (io.avail r) - 12)) as [H3|H3]; [|discriminate].
  rewrite run_assign_last, !io.advance_add. intros E.
  apply state_eq_inv in E. destruct E as [<- <-].
  cbv beta iota delta [PeerError_Message]. rewrite length_firstn, length_skipn.
  rewrite Nat.min_l by lia. split; [lia|f_equal; lia].
Qed.



End ExactDecoding.












(** ** What a failed decode leaves in the receiver *)
Section FailedDecoding.
Context {R : Type} `{io.LawfulReader R}.






End FailedDecoding.



(** A PeerError body that ends inside its message, and a PeerAddrs body
    that ends inside its second entry. *)
Definition sample_cut_error_body : list byte :=
  PutUint 4 7 ++ PutUint 8 3 ++ [x62].




(** ** Writing to a connection through a buffered writer *)

(** The connection after it took all of [p]. *)
Definition Sink_push (w : io.Sink) (p : list byte) : io.Sink :=
  {| io.written := io.written w ++ p;
     io.room := io.room w - length p;
     io.failure := io.failure w |}.

Lemma Sink_Write_fits (w : io.Sink) (p : list byte) :
  (length p <= io.room w)%nat -> io.Write w p = (length p, None, Sink_push w p).
Proof.
  intros Hfit. unfold io.Write, io.Sink_Writer.
  replace (length p <=? io.room w)%nat with true by (symmetry; apply Nat.leb_le; lia).
  reflexivity.
Qed.

Lemma Sink_Write_short (w : io.Sink) (p : list byte) :
  (io.room w < length p)%nat ->
  io.Write w p =
    (io.room w, Some (io.failure w),
     {| io.written := io.written w ++ firstn (io.room w) p;
        io.room := 0; io.failure := io.failure w |}).
Proof.
  intros Hshort. unfold io.Write, io.Sink_Writer.
  replace (length p <=? io.room w)%nat with false by (symmetry; apply Nat.leb_gt; lia).
  reflexivity.
Qed.

Lemma Sink_push_push (w : io.Sink) (p q : list byte) :
  Sink_push (Sink_push w p) q = Sink_push w (p ++ q).
Proof.
  unfold Sink_push. cbn [io.written io.room io.failure].
  rewrite <- app_assoc, length_app, Nat.sub_add_distr. reflexivity.
Qed.

Lemma Sink_push_nil (w : io.Sink) : Sink_push w [] = w.
Proof.
  destruct w. unfold Sink_push. cbn. rewrite app_nil_r, Nat.sub_0_r. reflexivity.
Qed.

Section BufferedWriter.
Context {W : Type} `{io.Writer W}.

Lemma Write_loop_stop (fuel : nat) (b : bufio.Writer W) (p : list byte) (nn : nat) :
  bufio.err b = None ->
  (length p <= bufio.Available b)%nat ->
  bufio.Write_loop fuel b p nn = (b, p, nn).
Proof.
  intros He Hfit.
  destruct fuel; cbn [bufio.Write_loop]; rewrite He;
    (replace (bufio.Available b <? length p)%nat with false
       by (symmetry; apply Nat.ltb_ge; exact Hfit)); reflexivity.
Qed.

Lemma Write_loop_failed (fuel : nat) (b : bufio.Writer W) (p : list byte) (nn : nat)
    (e : error) :
  bufio.err b = Some e -> bufio.Write_loop fuel b p nn = (b, p, nn).
Proof. intros He. destruct fuel; cbn [bufio.Write_loop]; rewrite He; reflexivity. Qed.

Lemma Write_loop_direct (fuel : nat) (b : bufio.Writer W) (p : list byte) (nn : nat) :
  bufio.err b = None ->
  (bufio.Available b < length p)%nat ->
  bufio.Buffered b = 0%nat ->
  bufio.Write_loop (S fuel) b p nn =
    let '(n, e, w') := io.Write (bufio.wr b) p in
    bufio.Write_loop fuel
      {| bufio.err := e; bufio.buf := bufio.buf b; bufio.size := bufio.size b;
         bufio.wr := w' |}
      (skipn n p) (nn + n)%nat.
Proof.
  intros He Hbig H0. cbn [bufio.Write_loop]. rewrite He, H0.
  replace (bufio.Available b <? length p)%nat with true
    by (symmetry; apply Nat.ltb_lt; exact Hbig).
  reflexivity.
Qed.

Lemma Write_loop_fill (fuel : nat) (b : bufio.Writer W) (p : list byte) (nn : nat) :
  bufio.err b = None ->
  (bufio.Available b < length p)%nat ->
  bufio.Buffered b <> 0%nat ->
  bufio.Write_loop (S fuel) b p nn =
    let n := Nat.min (bufio.Available b) (length p) in
    let '(_, b') :=
      bufio.Flush {| bufio.err := bufio.err b; bufio.buf := bufio.buf b ++ firstn n p;
                     bufio.size := bufio.size b; bufio.wr := bufio.wr b |} in
    bufio.Write_loop fuel b' (skipn n p) (nn + n)%nat.
Proof.
  intros He Hbig H0. cbn [bufio.Write_loop]. rewrite He.
  replace (bufio.Available b <? length p)%nat with true
    by (symmetry; apply Nat.ltb_lt; exact Hbig).
  replace (bufio.Buffered b =? 0)%nat with false
    by (symmetry; apply Nat.eqb_neq; exact H0).
  reflexivity.
Qed.

(** A write that fits in the buffer only fills the buffer. *)
Lemma bufio_Write_buffered (b : bufio.Writer W) (p : list byte) :
  bufio.err b = None ->
  (length p <= bufio.Available b)%nat ->
  bufio.Write b p =
    (length p, None,
     {| bufio.err := None; bufio.buf := bufio.buf b ++ p;
        bufio.size := bufio.size b; bufio.wr := bufio.wr b |}).
Proof.
  intros He Hfit. unfold bufio.Write.
  rewrite (Write_loop_stop _ b p 0 He Hfit), He.
  rewrite Nat.min_r by exact Hfit. rewrite firstn_all. reflexivity.
Qed.

End BufferedWriter.

Lemma Header_Write_buffered {W : Type} `{io.Writer W} (h : Header) (w : W) (sz : nat) :
  (11 <= sz)%nat ->
  Header_Write h (bufio.NewWriterSize w sz) =
    (None, {| bufio.err := None; bufio.buf := Header_bytes h;
              bufio.size := sz; bufio.wr := w |}).
Proof.
  intros Hsz. unfold Header_Write, bufio.NewWriterSize, Header_bytes.
  change (@io.Write (bufio.Writer W) _) with (@bufio.Write W _).
  rewrite bufio_Write_buffered
    by (trivial; unfold bufio.Available;
        cbn [bufio.size bufio.buf length Header_magic_bytes]; lia).
  cbn [bufio.buf bufio.size bufio.wr app].
  rewrite bufio_Write_buffered
    by (trivial; unfold bufio.Available;
        cbn [bufio.size bufio.buf length Header_magic_bytes]; rewrite length_PutUint; lia).
  cbn [bufio.buf bufio.size bufio.wr].
  rewrite bufio_Write_buffered
    by (trivial; unfold bufio.Available; cbn [bufio.size bufio.buf];
        rewrite length_app, !length_PutUint; cbn [length Header_magic_bytes]; lia).
  cbn [bufio.buf bufio.size bufio.wr]. rewrite <- app_assoc. reflexivity.
Qed.

Lemma length_Header_bytes (h : Header) : length (Header_bytes h) = 11%nat.
Proof. unfold Header_bytes. rewrite !length_app, !length_PutUint. reflexivity. Qed.

Section WriteThenFlush.
Variable w : io.Sink.
Variables hdr data : list byte.
Variable sz : nat.
Hypothesis hdr_some : (0 < length hdr)%nat.
Hypothesis hdr_fits : (length hdr <= sz)%nat.

(** The buffered writer after the header went into its buffer. *)
Definition after_header : bufio.Writer io.Sink :=
  {| bufio.err := None; bufio.buf := hdr; bufio.size := sz; bufio.wr := w |}.

Lemma Flush_fits (b : bufio.Writer io.Sink) :
  bufio.err b = None ->
  (0 < length (bufio.buf b))%nat ->
  (length (bufio.buf b) <= io.room (bufio.wr b))%nat ->
  bufio.Flush b =
    (None, {| bufio.err := None; bufio.buf := []; bufio.size := bufio.size b;
              bufio.wr := Sink_push (bufio.wr b) (bufio.buf b) |}).
Proof.
  intros He Hbuf Hroom. unfold bufio.Flush, bufio.Buffered. rewrite He.
  replace (length (bufio.buf b) =? 0)%nat with false
    by (symmetry; apply Nat.eqb_neq; lia).
  rewrite Sink_Write_fits by exact Hroom. rewrite Nat.ltb_irrefl. reflexivity.
Qed.

Lemma Flush_short (b : bufio.Writer io.Sink) :
  bufio.err b = None ->
  (io.room (bufio.wr b) < length (bufio.buf b))%nat ->
  exists b' : bufio.Writer io.Sink,
    bufio.Flush b = (Some (io.failure (bufio.wr b)), b')
    /\ bufio.err b' = Some (io.failure (bufio.wr b)).
Proof.
  intros He Hroom. unfold bufio.Flush, bufio.Buffered. rewrite He.
  replace (length (bufio.buf b) =? 0)%nat with false
    by (symmetry; apply Nat.eqb_neq; lia).
  rewrite Sink_Write_short by exact Hroom.
  eexists. split; reflexivity.
Qed.

Lemma Flush_nothing (b : bufio.Writer io.Sink) :
  bufio.err b = None -> bufio.buf b = [] -> bufio.Flush b = (None, b).
Proof.
  intros He Hbuf. unfold bufio.Flush, bufio.Buffered. rewrite He, Hbuf. reflexivity.
Qed.

(** Enough room for header and body: the body is written in full and the
    connection has received the header followed by the body. *)
Lemma Write_Flush_fits :
  (length hdr + length data <= io.room w)%nat ->
  exists b1 b2 : bufio.Writer io.Sink,
    bufio.Write after_header data = (length data, None, b1)
    /\ bufio.Flush b1 = (None, b2)
    /\ bufio.wr b2 = Sink_push w (hdr ++ data).
Proof.
  intros Hroom.
  destruct (Nat.le_gt_cases (length data) (sz - length hdr)) as [Hsmall|Hbig].
  - (* the body fits in the buffer *)
    rewrite bufio_Write_buffered by (trivial; exact Hsmall).
    cbn [after_header bufio.buf bufio.size bufio.wr].
    eexists. eexists. split; [reflexivity|].
    rewrite Flush_fits by (cbn [bufio.err bufio.buf bufio.wr]; trivial;
                           rewrite length_app; lia).
    split; reflexivity.
  - (* the buffer is filled and flushed, the rest follows *)
    unfold bufio.Write.
    replace (length data + 2)%nat with (S (S (length data))) by lia.
    rewrite Write_loop_fill
      by (trivial; unfold bufio.Buffered; cbn [after_header bufio.buf]; lia).
    cbn [after_header bufio.err bufio.buf bufio.size bufio.wr].
    change (bufio.Available after_header) with (sz - length hdr)%nat.
    rewrite Nat.min_l by lia.
    set (k := (sz - length hdr)%nat).
    assert (Hk : length (firstn k data) = k) by (rewrite length_firstn; lia).
    rewrite Flush_fits
      by (cbn [bufio.err bufio.buf bufio.wr]; trivial; rewrite length_app, Hk; lia).
    cbn [bufio.buf bufio.size bufio.wr Nat.add].
    set (w1 := Sink_push w (hdr ++ firstn k data)).
    assert (Hroom1 : (length (skipn k data) <= io.room w1)%nat).
    { unfold w1, Sink_push. cbn [io.room].
      rewrite length_skipn, length_app, Hk. lia. }
    assert (Hjoin : Sink_push w1 (skipn k data) = Sink_push w (hdr ++ data)).
    { unfold w1. rewrite Sink_push_push, <- app_assoc, firstn_skipn. reflexivity. }
    assert (Hlen : (k + length (skipn k data))%nat = length data)
      by (rewrite length_skipn; lia).
    destruct (Nat.le_gt_cases (length (skipn k data)) sz) as [Hrest|Hrest].
    + rewrite Write_loop_stop
        by (trivial; unfold bufio.Available; cbn [bufio.size bufio.buf length]; lia).
      unfold bufio.Available.
      cbn [bufio.err bufio.buf bufio.size bufio.wr length app].
      rewrite Nat.sub_0_r, Nat.min_r by exact Hrest.
      rewrite firstn_all, Hlen.
      eexists. eexists. split; [reflexivity|].
      rewrite Flush_fits
        by (cbn [bufio.err bufio.buf bufio.wr]; trivial; rewrite length_skipn; lia).
      cbn [bufio.buf bufio.wr]. split; [reflexivity|exact Hjoin].
    + rewrite Write_loop_direct
        by (trivial; unfold bufio.Available; cbn [bufio.size bufio.buf length]; lia).
      cbn [bufio.buf bufio.size bufio.wr].
      rewrite Sink_Write_fits by exact Hroom1.
      rewrite skipn_all.
      rewrite Write_loop_stop by (trivial; cbn [length]; lia).
      unfold bufio.Available.
      cbn [bufio.err bufio.buf bufio.size bufio.wr length app].
      rewrite Nat.min_r by lia. cbn [firstn].
      rewrite Nat.add_0_r, Hlen.
      eexists. eexists. split; [reflexivity|].
      rewrite Flush_nothing by reflexivity.
      split; [reflexivity|exact Hjoin].
Qed.

(** Not enough room: the error of the connection comes back, from the
    write of the body or from the flush after it. *)
Lemma Write_Flush_short :
  (io.room w < length hdr + length data)%nat ->
  (exists (n : nat) (b1 : bufio.Writer io.Sink),
      bufio.Write after_header data = (n, Some (io.failure w), b1))
  \/ (exists b1 b2 : bufio.Writer io.Sink,
        bufio.Write after_header data = (length data, None, b1)
        /\ bufio.Flush b1 = (Some (io.failure w), b2)).
Proof.
  intros Hroom.
  destruct (Nat.le_gt_cases (length data) (sz - length hdr)) as [Hsmall|Hbig].
  - right. rewrite bufio_Write_buffered by (trivial; exact Hsmall).
    cbn [after_header bufio.buf bufio.size bufio.wr].
    destruct (Flush_short
                {| bufio.err := None; bufio.buf := hdr ++ data;
                   bufio.size := sz; bufio.wr := w |} eq_refl) as (b' & Hf & _).
    { cbn [bufio.buf bufio.wr]. rewrite length_app. lia. }
    eexists. exists b'. split; [reflexivity|exact Hf].
  - unfold bufio.Write.
    replace (length data + 2)%nat with (S (S (length data))) by lia.
    rewrite Write_loop_fill
      by (trivial; unfold bufio.Buffered; cbn [after_header bufio.buf]; lia).
    cbn [after_header bufio.err bufio.buf bufio.size bufio.wr].
    change (bufio.Available after_header) with (sz - length hdr)%nat.
    rewrite Nat.min_l by lia.
    set (k := (sz - length hdr)%nat).
    assert (Hk : length (firstn k data) = k) by (rewrite length_firstn; lia).
    destruct (Nat.le_gt_cases sz (io.room w)) as [Hflush|Hflush].
    + rewrite Flush_fits
        by (cbn [bufio.err bufio.buf bufio.wr]; trivial; rewrite length_app, Hk; lia).
      cbn [bufio.buf bufio.size bufio.wr Nat.add].
      set (w1 := Sink_push w (hdr ++ firstn k data)).
      assert (Hroom1 : (io.room w1 < length (skipn k data))%nat).
      { unfold w1, Sink_push. cbn [io.room].
        rewrite length_skipn, length_app, Hk. lia. }
      assert (Hlen : (k + length (skipn k data))%nat = length data)
        by (rewrite length_skipn; lia).
      destruct (Nat.le_gt_cases (length (skipn k data)) sz) as [Hrest|Hrest].
      * right.
        rewrite Write_loop_stop
          by (trivial; unfold bufio.Available; cbn [bufio.size bufio.buf length]; lia).
        unfold bufio.Available.
        cbn [bufio.err bufio.buf bufio.size bufio.wr length app].
        rewrite Nat.sub_0_r, Nat.min_r by exact Hrest.
        rewrite firstn_all, Hlen.
        destruct (Flush_short
                    {| bufio.err := None; bufio.buf := skipn k data;
                       bufio.size := sz; bufio.wr := w1 |} eq_refl) as (b' & Hf & _).
        { cbn [bufio.buf bufio.wr]. exact Hroom1. }
        eexists. exists b'. split; [reflexivity|exact Hf].
      * left.
        rewrite Write_loop_direct
          by (trivial; unfold bufio.Available; cbn [bufio.size bufio.buf length]; lia).
        cbn [bufio.buf bufio.size bufio.wr].
        rewrite Sink_Write_short by exact Hroom1.
        rewrite Write_loop_failed with (e := io.failure w1) by reflexivity.
        cbn [bufio.err]. eexists. eexists. reflexivity.
    + left.
      destruct (Flush_short
                  {| bufio.err := None; bufio.buf := hdr ++ firstn k data;
                     bufio.size := sz; bufio.wr := w |} eq_refl) as (b' & Hf & Hb').
      { cbn [bufio.buf bufio.wr]. rewrite length_app, Hk. lia. }
      cbn [bufio.wr] in Hf, Hb'. rewrite Hf.
      rewrite Write_loop_failed with (e := io.failure w) by exact Hb'.
      rewrite Hb'. eexists. eexists. reflexivity.
Qed.

End WriteThenFlush.

Lemma defaultBufSize_holds_header : (11 <= bufio.defaultBufSize)%nat.
Proof. apply Nat.leb_le. vm_compute. reflexivity. Qed.

(** ** WriteMessage on a connection *)
Section WriteMessageFacts.
Variable c : Constants.
Context {M : Type} `{Message M}.

(** The header [WriteMessage] builds for a message with the body [data]. *)
Definition header_for (msg : M) (data : list byte) : Header :=
  {| magic := MagicCode c; Header_Type := Type_ c msg;
     Len := uint64 (Z.of_nat (length data)) |}.

Lemma WriteMessage_fits (w : io.Sink) (msg : M) (data : list byte) :
  Bytes msg = Some data ->
  (11 + length data <= io.room w)%nat ->
  WriteMessage c w msg =
    Some (uint64 (uint64 (Z.of_nat (length data)) + HeaderLen c), None,
          Sink_push w (Header_bytes (header_for msg data) ++ data)).
Proof.
  intros HB Hroom. unfold WriteMessage. rewrite HB. unfold bufio.NewWriter.
  rewrite Header_Write_buffered by exact defaultBufSize_holds_header.
  fold (header_for msg data).
  destruct (Write_Flush_fits w (Header_bytes (header_for msg data)) data
              bufio.defaultBufSize)
    as (b1 & b2 & HW & HF & Hwr).
  - rewrite length_Header_bytes. lia.
  - rewrite length_Header_bytes. exact defaultBufSize_holds_header.
  - rewrite length_Header_bytes. exact Hroom.
  - unfold after_header in HW. rewrite HW, HF, Hwr. reflexivity.
Qed.

Lemma WriteMessage_short (w : io.Sink) (msg : M) (data : list byte) :
  Bytes msg = Some data ->
  (io.room w < 11 + length data)%nat ->
  exists (n : Z) (w' : io.Sink),
    WriteMessage c w msg = Some (n, Some (io.failure w), w').
Proof.
  intros HB Hroom. unfold WriteMessage. rewrite HB. unfold bufio.NewWriter.
  rewrite Header_Write_buffered by exact defaultBufSize_holds_header.
  fold (header_for msg data).
  destruct (Write_Flush_short w (Header_bytes (header_for msg data)) data
              bufio.defaultBufSize)
    as [(n & b1 & HW)|(b1 & b2 & HW & HF)].
  - rewrite length_Header_bytes. lia.
  - rewrite length_Header_bytes. exact defaultBufSize_holds_header.
  - rewrite length_Header_bytes. exact Hroom.
  - unfold after_header in HW. rewrite HW. eexists. eexists. reflexivity.
  - unfold after_header in HW. rewrite HW, HF. eexists. eexists. reflexivity.
Qed.

End WriteMessageFacts.

Lemma written_eq_inv {A B C : Type} (a a' : A) (b b' : B) (x x' : C) :
  Some (a, b, x) = Some (a', b', x') -> a = a' /\ x = x'.
Proof. intros E. injection E. auto. Qed.

(** C9: for every message, WriteMessage builds a header whose length field
    is the byte length of the body returned by the message's Bytes(), and
    on success it returns the fixed header size plus that body length; the
    connection has then received the eleven bytes of that header followed
    by the body.  Success is what happens when the connection takes
    that many bytes. *)
Theorem WriteMessage_header_length_and_count (c : Constants) {M : Type} `{Message M}
    (w : io.Sink) (msg : M) (data : list byte) :
  0 <= HeaderLen c ->
  HeaderLen c + Z.of_nat (length data) < 2 ^ 64 ->
  Bytes msg = Some data ->
  ((11 + length data <= io.room w)%nat ->
   exists w' : io.Sink,
     WriteMessage c w msg = Some (HeaderLen c + Z.of_nat (length data), None, w'))
  /\ (forall (n : Z) (w' : io.Sink),
        WriteMessage c w msg = Some (n, None, w') ->
        n = HeaderLen c + Z.of_nat (length data)
        /\ exists h : Header,
             magic h = MagicCode c
             /\ Header_Type h = Type_ c msg
             /\ Len h = Z.of_nat (length data)
             /\ io.written w' = io.written w ++ Header_bytes h ++ data
             /\ length (io.written w') = (length (io.written w) + 11 + length data)%nat).
Proof.
  intros Hpos Hsum HB.
  assert (Hn : uint64 (uint64 (Z.of_nat (length data)) + HeaderLen c)
               = HeaderLen c + Z.of_nat (length data)).
  { rewrite (uint64_small (Z.of_nat (length data))) by lia.
    rewrite uint64_small by lia. lia. }
  split.
  - intros Hroom. rewrite (WriteMessage_fits c w msg data HB Hroom), Hn.
    eexists. reflexivity.
  - intros n w' E.
    destruct (Nat.le_gt_cases (11 + length data) (io.room w)) as [Hroom|Hroom].
    + rewrite (WriteMessage_fits c w msg data HB Hroom), Hn in E.
      apply written_eq_inv in E. destruct E as [<- <-]. split; [reflexivity|].
      exists (header_for c msg data).
      split; [reflexivity|]. split; [reflexivity|].
      split; [apply uint64_small; lia|]. split; [reflexivity|].
      unfold Sink_push. cbn [io.written].
      rewrite !length_app, length_Header_bytes. lia.
    + destruct (WriteMessage_short c w msg data HB Hroom) as (n' & w'' & E').
      rewrite E' in E. discriminate.
Qed.

(** A connection that takes a hundred bytes. *)
Definition sample_sink : io.Sink :=
  {| io.written := []; io.room := 100; io.failure := errors_New "broken pipe" |}.

Lemma WriteMessage_header_length_and_count_witness :
  let data := PutUint 4 7 ++ PutUint 8 3 ++ [x62; x61; x64] in
  0 <= HeaderLen sample_constants
  /\ HeaderLen sample_constants + Z.of_nat (length data) < 2 ^ 64
  /\ Bytes sample_peer_error = Some data
  /\ (11 + length data <= io.room sample_sink)%nat
  /\ exists w' : io.Sink,
       WriteMessage sample_constants sample_sink sample_peer_error
       = Some (HeaderLen sample_constants + Z.of_nat (length data), None, w').
Proof.
  intros data.
  assert (A1 : 0 <= HeaderLen sample_constants) by (vm_compute; discriminate).
  assert (A2 : HeaderLen sample_constants + Z.of_nat (length data) < 2 ^ 64)
    by reflexivity.
  assert (A3 : Bytes sample_peer_error = Some data) by reflexivity.
  assert (A4 : (11 + length data <= io.room sample_sink)%nat)
    by (apply Nat.leb_le; vm_compute; reflexivity).
  refine (conj A1 (conj A2 (conj A3 (conj A4 _)))).
  exact (proj1 (WriteMessage_header_length_and_count sample_constants sample_sink
                  sample_peer_error data A1 A2 A3) A4).
Defined.

(** The frame of Ping{total_difficulty: 1000, height: 42}: the two magic
    bytes, the Ping tag, the length 16 on eight bytes, then 0x3E8 and 0x2A
    on eight bytes each, all big-endian. *)
Definition ping_1000_42_frame (c : Constants) : list byte :=
  [fst (MagicCode c); snd (MagicCode c); byte_of_Z (msgTypePing c)]
  ++ [x00; x00; x00; x00; x00; x00; x00; x10]
  ++ [x00; x00; x00; x00; x00; x00; x03; xe8]
  ++ [x00; x00; x00; x00; x00; x00; x00; x2a].

Lemma Uint_byte_of_Z (v : Z) : 0 <= v < 256 -> Uint [byte_of_Z v] = v.
Proof.
  intros Hv. unfold Uint. rewrite Uint_fold. cbn [fold_left].
  rewrite Z_of_byte_of_Z, Z.mod_small by exact Hv. lia.
Qed.

Lemma PutUint_1 (v : Z) : PutUint 1 v = [byte_of_Z v].
Proof. cbn [PutUint]. rewrite Z.shiftr_0_r. reflexivity. Qed.

(** C8: WriteMessage of Ping{1000, 42} puts exactly the frame
    magic, Ping tag, 00 00 00 00 00 00 00 10,
    00 00 00 00 00 00 03 E8, 00 00 00 00 00 00 00 2A
    on the connection; and ReadMessage of that byte sequence into an empty
    Ping gives total difficulty 1000 and height 42 and leaves what follows
    the frame in the stream. *)
Theorem WriteMessage_ReadMessage_Ping_1000_42 (c : Constants) (w : io.Sink)
    (rest : list byte) :
  MagicCode c = (x1e, xc5) ->
  0 <= msgTypePing c < 256 ->
  11 <= HeaderLen c < 2 ^ 63 ->
  16 <= MaxMsgLen c ->
  (27 <= io.room w)%nat ->
  WriteMessage c w {| TotalDifficulty := 1000; Height := 42 |}
    = Some (HeaderLen c + 16, None, Sink_push w (ping_1000_42_frame c))
  /\ ReadMessage c {| io.unread := ping_1000_42_frame c ++ rest |} Ping_zero
     = (HeaderLen c + 16, None, {| io.unread := rest |},
        {| TotalDifficulty := 1000; Height := 42 |}).
Proof.
  intros Hmagic Htag HHL Hmax Hroom.
  set (p := {| TotalDifficulty := 1000; Height := 42 |}).
  split.
  - assert (HB : Bytes p = Some (PutUint 8 (uint64 1000) ++ PutUint 8 (uint64 42)))
      by reflexivity.
    rewrite (WriteMessage_fits c w p _ HB)
      by (rewrite length_app, !length_PutUint; exact Hroom).
    rewrite length_app, !length_PutUint.
    change (uint64 (Z.of_nat (8 + 8))) with 16.
    rewrite uint64_small by lia. rewrite Z.add_comm.
    unfold header_for, Header_bytes, Header_magic_bytes, ping_1000_42_frame.
    cbn [magic Header_Type Len Type_ Ping_Message].
    rewrite PutUint_1, length_app, !length_PutUint. reflexivity.
  - set (r := {| io.unread := ping_1000_42_frame c ++ rest |}).
    set (k := (Z.to_nat (HeaderLen c) - 11)%nat).
    assert (Hhead : Header_Read (Header_zero, io.LimitReader r (int64 (HeaderLen c)))
              = (Ok tt,
                 ({| magic := (x1e, xc5); Header_Type := msgTypePing c; Len := 16 |},
                  io.advance (io.LimitReader r (int64 (HeaderLen c))) 11))).
    { rewrite <- (Uint_byte_of_Z (msgTypePing c) Htag).
      apply Header_Read_good
        with (l := [x00; x00; x00; x00; x00; x00; x00; x10])
             (rest := firstn k (skipn 11 (ping_1000_42_frame c ++ rest)));
        [|reflexivity|reflexivity].
      cbn [io.avail io_facts.LimitedReader_Lawful].
      unfold io_facts.LimitedReader_avail.
      cbn [io.LR io.N io.LimitReader io.avail io_facts.Stream_Lawful io.unread r].
      rewrite int64_small by lia.
      replace (Z.to_nat (HeaderLen c)) with (11 + k)%nat by (unfold k; lia).
      unfold ping_1000_42_frame. rewrite Hmagic.
      cbn [fst snd app Nat.add firstn skipn]. reflexivity. }
    set (h := {| magic := (x1e, xc5); Header_Type := msgTypePing c; Len := 16 |}) in *.
    set (rh := io.advance (io.LimitReader r (int64 (HeaderLen c))) 11) in *.
    assert (Hbody : Read c (Ping_zero, io.LimitReader (io.LR rh) (int64 (Len h)))
              = (Ok tt, (p, io.advance (io.LimitReader (io.LR rh) (int64 (Len h))) 16))).
    { cbn [Read Ping_Message].
      apply Ping_Read_Bytes with (rest := []); [unfold p; decide_ranges|].
      cbn [io.avail io_facts.LimitedReader_Lawful].
      unfold io_facts.LimitedReader_avail, rh.
      cbn [io.LR io.N io.LimitReader io.advance io_facts.LimitedReader_Lawful].
      unfold io_facts.LimitedReader_advance.
      cbn [io.LR io.N io.LimitReader io.advance io.avail io_facts.Stream_Lawful
           io.unread r Len h].
      unfold ping_1000_42_frame.
      change (Z.to_nat (int64 16)) with 16%nat.
      cbn [fst snd app skipn firstn]. reflexivity. }
    assert (Htype : Header_Type h = Type_ c Ping_zero) by reflexivity.
    assert (Hfit : Len h <= MaxMsgLen c) by (cbn [Len h]; lia).
    rewrite (ReadMessage_body c r Ping_zero h rh _ _ _ Hhead Htype Hfit Hbody).
    cbn [err_of Len h].
    rewrite (uint64_small (HeaderLen c)), (uint64_small 16), uint64_small by lia.
    reflexivity.
Qed.

Lemma WriteMessage_ReadMessage_Ping_1000_42_witness :
  let frame := [x1e; xc5; x00;
                x00; x00; x00; x00; x00; x00; x00; x10;
                x00; x00; x00; x00; x00; x00; x03; xe8;
                x00; x00; x00; x00; x00; x00; x00; x2a] in
  MagicCode sample_constants = (x1e, xc5)
  /\ 0 <= msgTypePing sample_constants < 256
  /\ 11 <= HeaderLen sample_constants < 2 ^ 63
  /\ 16 <= MaxMsgLen sample_constants
  /\ (27 <= io.room sample_sink)%nat
  /\ WriteMessage sample_constants sample_sink sample_ping
     = Some (27, None,
             {| io.written := frame; io.room := 73;
                io.failure := errors_New "broken pipe" |})
  /\ ReadMessage sample_constants {| io.unread := frame ++ [xff] |} Ping_zero
     = (27, None, {| io.unread := [xff] |}, sample_ping).
Proof.
  intros frame.
  assert (A1 : MagicCode sample_constants = (x1e, xc5)) by reflexivity.
  assert (A2 : 0 <= msgTypePing sample_constants < 256) by decide_ranges.
  assert (A3 : 11 <= HeaderLen sample_constants < 2 ^ 63) by decide_ranges.
  assert (A4 : 16 <= MaxMsgLen sample_constants) by decide_ranges.
  assert (A5 : (27 <= io.room sample_sink)%nat)
    by (apply Nat.leb_le; vm_compute; reflexivity).
  refine (conj A1 (conj A2 (conj A3 (conj A4 (conj A5 _))))).
  exact (WriteMessage_ReadMessage_Ping_1000_42 sample_constants sample_sink [xff]
           A1 A2 A3 A4 A5).
Defined.

(** * Further properties of the code *)

(** ** Header.Read and Header.Write *)
Section HeaderCodec.
Context {R : Type} `{io.LawfulReader R}.

Lemma ValidateMagic_bytes (b0 b1 : byte) :
  (Z_of_byte b0 =? 0x1e) && (Z_of_byte b1 =? 0xc5) = true <-> b0 = x1e /\ b1 = xc5.
Proof.
  rewrite andb_true_iff, !Z.eqb_eq. split.
  - intros [E0 E1]. split; apply Z_of_byte_inj; assumption.
  - intros [-> ->]. split; reflexivity.
Qed.

Lemma cut_eleven (a : list byte) :
  (11 <= length a)%nat ->
  a = nth 0 a x00 :: nth 1 a x00 :: nth 2 a x00 :: firstn 8 (skipn 3 a) ++ skipn 11 a.
Proof.
  intros Hlen. destruct a as [|b0 [|b1 [|t a]]]; try (simpl in Hlen; lia).
  cbn [nth skipn]. change (skipn 11 (b0 :: b1 :: t :: a)) with (skipn 8 a).
  rewrite firstn_skipn. reflexivity.
Qed.

(** X1: Header.Read succeeds exactly when eleven bytes are available and
    the first two are 0x1e 0xc5; the header it then leaves holds those two
    bytes, the third byte as type and the next eight as big-endian length,
    and the reader is eleven bytes further. *)
Theorem Header_Read_succeeds_iff (h : Header) (r : R) :
  ((exists h' r', Header_Read (h, r) = (Ok tt, (h', r')))
   <-> ((11 <= length (io.avail r))%nat
        /\ nth 0 (io.avail r) x00 = x1e /\ nth 1 (io.avail r) x00 = xc5))
  /\ ((11 <= length (io.avail r))%nat ->
      nth 0 (io.avail r) x00 = x1e ->
      nth 1 (io.avail r) x00 = xc5 ->
      Header_Read (h, r) =
        (Ok tt, ({| magic := (x1e, xc5);
                    Header_Type := Z_of_byte (nth 2 (io.avail r) x00);
                    Len := Uint (firstn 8 (skipn 3 (io.avail r))) |},
                 io.advance r 11))).
Proof.
  assert (Hgood : (11 <= length (io.avail r))%nat ->
            nth 0 (io.avail r) x00 = x1e ->
            nth 1 (io.avail r) x00 = xc5 ->
            Header_Read (h, r) =
              (Ok tt, ({| magic := (x1e, xc5);
                          Header_Type := Z_of_byte (nth 2 (io.avail r) x00);
                          Len := Uint (firstn 8 (skipn 3 (io.avail r))) |},
                       io.advance r 11))).
  { intros Hlen H0' H1'.
    pose proof (cut_eleven _ Hlen) as Hcut. rewrite H0', H1' in Hcut.
    rewrite (Header_Read_good h r x1e xc5 (nth 2 (io.avail r) x00)
               (firstn 8 (skipn 3 (io.avail r))) (skipn 11 (io.avail r)) Hcut).
    - reflexivity.
    - rewrite length_firstn, length_skipn. lia.
    - reflexivity. }
  split; [split|exact Hgood].
  - intros (h' & r' & E). apply Header_Read_Ok_inv in E.
    destruct E as (Hlen & _ & Hm & Hv & _).
    split; [exact Hlen|].
    unfold Header_ValidateMagic in Hv. rewrite Hm in Hv. cbn [fst snd] in Hv.
    apply ValidateMagic_bytes in Hv. exact Hv.
  - intros (Hlen & H0' & H1'). eexists. eexists. apply Hgood; assumption.
Qed.

End HeaderCodec.

Lemma Header_Read_succeeds_iff_witness :
  let r := {| io.unread := [x1e; xc5; x04] ++ PutUint 8 300 ++ [xaa] |} in
  (11 <= length (io.avail r))%nat
  /\ nth 0 (io.avail r) x00 = x1e
  /\ nth 1 (io.avail r) x00 = xc5
  /\ Header_Read (Header_zero, r) =
       (Ok tt, ({| magic := (x1e, xc5); Header_Type := 4; Len := 300 |},
                {| io.unread := [xaa] |})).
Proof.
  intros r.
  assert (A1 : (11 <= length (io.avail r))%nat) by (apply Nat.leb_le; reflexivity).
  assert (A2 : nth 0 (io.avail r) x00 = x1e) by reflexivity.
  assert (A3 : nth 1 (io.avail r) x00 = xc5) by reflexivity.
  refine (conj A1 (conj A2 (conj A3 _))).
  exact (proj2 (Header_Read_succeeds_iff Header_zero r) A1 A2 A3).
Defined.

(** The connection after it was offered [p]: it has taken as much of [p]
    as it had room for. *)
Definition Sink_take (w : io.Sink) (p : list byte) : io.Sink :=
  {| io.written := io.written w ++ firstn (io.room w) p;
     io.room := io.room w - length p;
     io.failure := io.failure w |}.

Lemma Sink_Write_take (w : io.Sink) (p : list byte) :
  io.Write w p =
    (Nat.min (length p) (io.room w),
     if (length p <=? io.room w)%nat then None else Some (io.failure w),
     Sink_take w p).
Proof.
  unfold io.Write, io.Sink_Writer, Sink_take.
  destruct (Nat.leb_spec (length p) (io.room w)) as [Hfit|Hshort].
  - rewrite Nat.min_l, firstn_all2 by lia. reflexivity.
  - rewrite Nat.min_r by lia.
    replace (io.room w - length p)%nat with 0%nat by lia. reflexivity.
Qed.

Lemma Sink_take_take (w : io.Sink) (p q : list byte) :
  Sink_take (Sink_take w p) q = Sink_take w (p ++ q).
Proof.
  unfold Sink_take. cbn [io.written io.room io.failure].
  rewrite <- app_assoc, firstn_app, length_app, Nat.sub_add_distr. reflexivity.
Qed.

Lemma Sink_take_fits (w : io.Sink) (p : list byte) :
  (length p <= io.room w)%nat -> Sink_take w p = Sink_push w p.
Proof.
  intros Hfit. unfold Sink_take, Sink_push. rewrite firstn_all2 by lia. reflexivity.
Qed.

Lemma Sink_take_spent (w : io.Sink) (p : list byte) :
  io.room w = 0%nat -> Sink_take w p = w.
Proof.
  destruct w as [wr rm fl]. cbn. intros ->. unfold Sink_take. cbn.
  rewrite app_nil_r. reflexivity.
Qed.

(** X2: Header.Write straight to a connection puts on it as much of the
    eleven header bytes (magic, type, big-endian length) as the connection
    takes, in order, and nothing after the write that failed; it returns
    the connection's error exactly when fewer than eleven bytes were
    taken. *)
Theorem Header_Write_to_connection (h : Header) (w : io.Sink) :
  Header_Write h w =
    (if (11 <=? io.room w)%nat then None else Some (io.failure w),
     Sink_take w (Header_bytes h)).
Proof.
  unfold Header_Write, Header_bytes.
  rewrite <- !Sink_take_take.
  rewrite Sink_Write_take.
  change (length (Header_magic_bytes h)) with 2%nat.
  destruct (2 <=? io.room w)%nat eqn:E2.
  - apply Nat.leb_le in E2.
    rewrite Sink_Write_take, length_PutUint.
    change (io.room (Sink_take w (Header_magic_bytes h))) with (io.room w - 2)%nat.
    change (io.failure (Sink_take w (Header_magic_bytes h))) with (io.failure w).
    destruct (1 <=? io.room w - 2)%nat eqn:E1.
    + apply Nat.leb_le in E1.
      rewrite Sink_Write_take, length_PutUint.
      change (io.failure (Sink_take (Sink_take w (Header_magic_bytes h))
                            (PutUint 1 (Header_Type h)))) with (io.failure w).
      change (io.room (Sink_take (Sink_take w (Header_magic_bytes h))
                         (PutUint 1 (Header_Type h))))
        with (io.room w - 2 - length (PutUint 1 (Header_Type h)))%nat.
      rewrite length_PutUint.
      destruct (Nat.leb_spec 8 (io.room w - 2 - 1));
        destruct (Nat.leb_spec 11 (io.room w)); try lia; reflexivity.
    + apply Nat.leb_gt in E1.
      destruct (Nat.leb_spec 11 (io.room w)); [lia|].
      rewrite (Sink_take_spent _ (PutUint 8 (Len h))); [reflexivity|].
      cbn [Sink_take io.room]. rewrite length_PutUint.
      cbn [length Header_magic_bytes]. lia.
  - apply Nat.leb_gt in E2.
    destruct (Nat.leb_spec 11 (io.room w)); [lia|].
    rewrite (Sink_take_spent _ (PutUint 8 (Len h)))
      by (cbn [Sink_take io.room]; rewrite length_PutUint;
          cbn [length Header_magic_bytes]; lia).
    rewrite (Sink_take_spent _ (PutUint 1 (Header_Type h)))
      by (cbn [Sink_take io.room length Header_magic_bytes]; lia).
    reflexivity.
Qed.

(** The fields of a header are its two magic bytes, which are the marker,
    a [uint8] and a [uint64]. *)
Definition Header_valid (h : Header) : Prop :=
  magic h = (x1e, xc5) /\ 0 <= Header_Type h < 2 ^ 8 /\ 0 <= Len h < 2 ^ 64.


Lemma Header_Read_bytes {R : Type} `{io.LawfulReader R}
    (h h0 : Header) (r : R) (rest : list byte) :
  Header_valid h ->
  io.avail r = Header_bytes h ++ rest ->
  Header_Read (h0, r) = (Ok tt, (h, io.advance r 11)).
Proof.
  intros (Hm & Ht & Hl) Ha.
  unfold Header_bytes, Header_magic_bytes in Ha.
  rewrite PutUint_1, Hm in Ha. cbn [fst snd app] in Ha.
  rewrite (Header_Read_good h0 r x1e xc5 _ _ _ Ha (length_PutUint _ _) eq_refl).
  rewrite Uint_byte_of_Z by exact Ht.
  rewrite Uint_PutUint_small by exact Hl.
  destruct h as [m t l]. cbn in Hm. subst m. reflexivity.
Qed.

(** X3: header round trip.  What Header.Write puts on a connection that
    takes eleven bytes, Header.Read decodes back to the same header,
    whatever the receiver held, leaving what follows in the stream. *)
Theorem Header_Write_Read_round_trip (h h0 : Header) (w : io.Sink) (rest : list byte) :
  Header_valid h ->
  (11 <= io.room w)%nat ->
  exists bytes : list byte,
    Header_Write h w = (None, Sink_push w bytes)
    /\ length bytes = 11%nat
    /\ Header_Read (h0, {| io.unread := bytes ++ rest |})
       = (Ok tt, (h, {| io.unread := rest |})).
Proof.
  intros Hv Hroom. exists (Header_bytes h).
  split; [|split].
  - unfold Header_Write, Header_bytes.
    rewrite Sink_Write_fits by (cbn [length Header_magic_bytes]; lia).
    rewrite Sink_Write_fits
      by (rewrite length_PutUint; cbn [Sink_push io.room length Header_magic_bytes]; lia).
    rewrite Sink_Write_fits
      by (rewrite length_PutUint;
          cbn [Sink_push io.room length Header_magic_bytes];
          rewrite length_PutUint; lia).
    rewrite !Sink_push_push. reflexivity.
  - apply length_Header_bytes.
  - rewrite (Header_Read_bytes h h0 {| io.unread := Header_bytes h ++ rest |} rest Hv)
      by reflexivity.
    cbn [io.advance io_facts.Stream_Lawful io.unread].
    rewrite skipn_app, length_Header_bytes, Nat.sub_diag.
    rewrite skipn_all2 by (rewrite length_Header_bytes; lia). reflexivity.
Qed.

Lemma Header_Write_Read_round_trip_witness :
  let h := {| magic := (x1e, xc5); Header_Type := 4; Len := 300 |} in
  Header_valid h
  /\ (11 <= io.room sample_sink)%nat
  /\ exists bytes : list byte,
       Header_Write h sample_sink = (None, Sink_push sample_sink bytes)
       /\ length bytes = 11%nat
       /\ Header_Read (Header_zero, {| io.unread := bytes ++ [xaa] |})
          = (Ok tt, (h, {| io.unread := [xaa] |})).
Proof.
  intros h.
  assert (A1 : Header_valid h) by decide_ranges.
  assert (A2 : (11 <= io.room sample_sink)%nat) by (apply Nat.leb_le; reflexivity).
  refine (conj A1 (conj A2 _)).
  exact (Header_Write_Read_round_trip h Header_zero sample_sink [xaa] A1 A2).
Defined.

(** ** ReadMessage when no header is decoded *)

(** X4: on a stream whose first two bytes are not the magic marker,
    ReadMessage returns the invalid-magic error with the count 0 and the
    message untouched, and exactly those two bytes are gone from the
    stream. *)
Theorem ReadMessage_invalid_magic (c : Constants) {M : Type} `{Message M}
    (msg : M) (b0 b1 : byte) (rest : list byte) :
  2 <= HeaderLen c < 2 ^ 63 ->
  (b0, b1) <> (x1e, xc5) ->
  ReadMessage c {| io.unread := b0 :: b1 :: rest |} msg =
    (0, Some (errors_New "invalid magic code"), {| io.unread := rest |}, msg).
Proof.
  intros HHL Hne.
  set (r := {| io.unread := b0 :: b1 :: rest |}).
  assert (Hbad : (Z_of_byte b0 =? 0x1e) && (Z_of_byte b1 =? 0xc5) = false).
  { destruct ((Z_of_byte b0 =? 0x1e) && (Z_of_byte b1 =? 0xc5)) eqn:E; [|reflexivity].
    apply ValidateMagic_bytes in E. destruct E as [-> ->]. contradiction. }
  assert (Ha : io.avail (io.LimitReader r (int64 (HeaderLen c)))
               = b0 :: b1 :: firstn (Z.to_nat (HeaderLen c) - 2) rest).
  { cbn [io.avail io_facts.LimitedReader_Lawful].
    unfold io_facts.LimitedReader_avail.
    cbn [io.LR io.N io.LimitReader io.avail io_facts.Stream_Lawful io.unread r].
    rewrite int64_small by lia.
    replace (Z.to_nat (HeaderLen c)) with (2 + (Z.to_nat (HeaderLen c) - 2))%nat at 1
      by lia.
    reflexivity. }
  rewrite (ReadMessage_header_error c r msg _ _ _
             (Header_Read_bad_magic Header_zero _ b0 b1 _ Ha Hbad)).
  reflexivity.
Qed.

Lemma ReadMessage_invalid_magic_witness :
  2 <= HeaderLen sample_constants < 2 ^ 63
  /\ (x47, x45) <> (x1e, xc5)
  /\ ReadMessage sample_constants {| io.unread := [x47; x45; x54; x20] |} Ping_zero =
       (0, Some (errors_New "invalid magic code"), {| io.unread := [x54; x20] |},
        Ping_zero).
Proof.
  assert (A1 : 2 <= HeaderLen sample_constants < 2 ^ 63) by decide_ranges.
  assert (A2 : (x47, x45) <> (x1e, xc5)) by discriminate.
  refine (conj A1 (conj A2 _)).
  exact (ReadMessage_invalid_magic sample_constants Ping_zero x47 x45 [x54; x20] A1 A2).
Defined.

(** X5: on a stream that ends before eleven bytes, ReadMessage returns an
    error with the count 0 and the message untouched; on a stream that is
    at its end the error is EOF and the stream is as it was. *)
Theorem ReadMessage_short_stream (c : Constants) {M : Type} `{Message M}
    (r : io.Stream) (msg : M) :
  ((length (io.unread r) < 11)%nat ->
   exists (e : error) (r' : io.Stream), ReadMessage c r msg = (0, Some e, r', msg))
  /\ (io.unread r = [] -> ReadMessage c r msg = (0, Some EOF, r, msg)).
Proof.
  split.
  - intros Hshort.
    destruct (Header_Read (Header_zero, io.LimitReader r (int64 (HeaderLen c))))
      as [[[]|e] [h rh]] eqn:E.
    + destruct (header_from_stream _ _ _ _ _ E) as (H11 & _).
      cbn [io.avail io_facts.Stream_Lawful] in H11. lia.
    + rewrite (ReadMessage_header_error c r msg e h rh E). eexists. eexists. reflexivity.
  - intros Hend.
    assert (Ha : io.avail (io.LimitReader r (int64 (HeaderLen c))) = []).
    { cbn [io.avail io_facts.LimitedReader_Lawful].
      unfold io_facts.LimitedReader_avail.
      cbn [io.LR io.N io.LimitReader io.avail io_facts.Stream_Lawful].
      rewrite Hend. apply firstn_nil. }
    assert (E : Header_Read (Header_zero, io.LimitReader r (int64 (HeaderLen c)))
                = (Err EOF, (Header_zero, io.LimitReader r (int64 (HeaderLen c))))).
    { unfold Header_Read. rewrite run_read_into, Ha. cbn [length Nat.leb].
      cbn [short_error store_magic]. rewrite io.advance_0. reflexivity. }
    rewrite (ReadMessage_header_error c r msg _ _ _ E). reflexivity.
Qed.

Lemma ReadMessage_short_stream_witness :
  let r := {| io.unread := [x1e; xc5; x00; x00; x00] |} in
  (length (io.unread r) < 11)%nat
  /\ exists (e : error) (r' : io.Stream),
       ReadMessage sample_constants r Ping_zero = (0, Some e, r', Ping_zero).
Proof.
  intros r.
  assert (A1 : (length (io.unread r) < 11)%nat) by (apply Nat.ltb_lt; reflexivity).
  split; [exact A1|].
  exact (proj1 (ReadMessage_short_stream sample_constants r Ping_zero) A1).
Defined.

(** ** Frames: WriteMessage followed by ReadMessage *)

(** [m] travels unchanged: [body] is what [m.Bytes()] returns, the receiver
    [m0] has the type tag of [m], and [Read] into [m0] from any reader that
    starts with [body] gives [m] and takes exactly [body]. *)
Definition wire_faithful (c : Constants) {M : Type} `{Message M} (m m0 : M)
    (body : list byte) : Prop :=
  Bytes m = Some body
  /\ Type_ c m0 = Type_ c m
  /\ forall (R : Type) (HR : io.Reader R) (HL : io.LawfulReader R)
            (r : R) (rest : list byte),
       io.avail r = body ++ rest ->
       Read c (m0, r) = (Ok tt, (m, io.advance r (length body))).

Lemma Ping_wire_faithful (c : Constants) (p p0 : Ping) :
  Ping_valid p ->
  wire_faithful c p p0 (PutUint 8 (uint64 (TotalDifficulty p))
                        ++ PutUint 8 (uint64 (Height p))).
Proof.
  intros Hv. split; [reflexivity|]. split; [reflexivity|].
  intros R HR HL r rest Ha. rewrite <- app_assoc in Ha.
  rewrite length_app, !length_PutUint.
  apply (Ping_Read_Bytes p p0 r rest Hv Ha).
Qed.

Lemma Pong_wire_faithful (c : Constants) (p p0 : Pong) :
  Ping_valid (Pong_Ping p) ->
  wire_faithful c p p0 (PutUint 8 (uint64 (TotalDifficulty (Pong_Ping p)))
                        ++ PutUint 8 (uint64 (Height (Pong_Ping p)))).
Proof.
  intros Hv. split; [reflexivity|]. split; [reflexivity|].
  intros R HR HL r rest Ha. rewrite <- app_assoc in Ha.
  rewrite length_app, !length_PutUint.
  cbn [Read Pong_Message]. unfold Pong_Read.
  rewrite (Ping_Read_Bytes (Pong_Ping p) (Pong_Ping p0) r rest Hv Ha).
  destruct p; reflexivity.
Qed.

Lemma GetPeerAddrs_wire_faithful (c : Constants) (p p0 : GetPeerAddrs) :
  GetPeerAddrs_valid p ->
  wire_faithful c p p0 (PutUint 4 (uint32 (Capabilities p))).
Proof.
  intros Hv. split; [reflexivity|]. split; [reflexivity|].
  intros R HR HL r rest Ha. rewrite length_PutUint.
  apply (GetPeerAddrs_Read_Bytes p p0 r rest Hv Ha).
Qed.

Lemma PeerError_wire_faithful (c : Constants) (p p0 : PeerError) :
  PeerError_valid c p ->
  wire_faithful c p p0
    (PutUint 4 (uint32 (Code p))
     ++ PutUint 8 (uint64 (Z.of_nat (length (PeerError_Message p))))
     ++ PeerError_Message p).
Proof.
  intros Hv. split; [reflexivity|]. split; [reflexivity|].
  intros R HR HL r rest Ha. rewrite <- !app_assoc in Ha.
  rewrite !length_app, !length_PutUint. cbn [Read PeerError_Message_].
  rewrite (PeerError_Read_Bytes c p p0 r rest Hv Ha). reflexivity.
Qed.

Lemma PeerAddrs_wire_faithful (c : Constants) (p : PeerAddrs) :
  PeerAddrs_valid c p ->
  wire_faithful c p PeerAddrs_zero
    (PutUint 4 (Z.of_nat (length (peers p))) ++ flat_map entry_bytes (peers p)).
Proof.
  intros Hv. split; [apply (PeerAddrs_Bytes_valid c p Hv)|]. split; [reflexivity|].
  intros R HR HL r rest Ha. rewrite <- app_assoc in Ha.
  rewrite length_app, length_PutUint.
  apply (PeerAddrs_Read_Bytes c p r rest Hv Ha).
Qed.

(** The frame of a message: a header with the marker, the tag and the
    length of the body, then the body. *)
Definition frame_of (c : Constants) {M : Type} `{Message M} (m : M) (body : list byte)
    : list byte :=
  Header_bytes {| magic := (x1e, xc5); Header_Type := Type_ c m;
                  Len := Z.of_nat (length body) |} ++ body.

Lemma length_frame_of (c : Constants) {M : Type} `{Message M} (m : M) (body : list byte) :
  length (frame_of c m body) = (11 + length body)%nat.
Proof. unfold frame_of. rewrite length_app, length_Header_bytes. reflexivity. Qed.

Section Frames.
Variable c : Constants.
Hypothesis magic_ok : MagicCode c = (x1e, xc5).
Hypothesis HeaderLen_ok : 11 <= HeaderLen c < 2 ^ 63.
Hypothesis MaxMsgLen_ok : MaxMsgLen c < 2 ^ 63.
Context {M : Type} `{Message M}.
Variables (m m0 : M) (body : list byte).
Hypothesis faithful : wire_faithful c m m0 body.
Hypothesis tag_ok : 0 <= Type_ c m < 2 ^ 8.
Hypothesis body_ok : Z.of_nat (length body) <= MaxMsgLen c.

Lemma WriteMessage_frame (w : io.Sink) :
  (11 + length body <= io.room w)%nat ->
  WriteMessage c w m =
    Some (HeaderLen c + Z.of_nat (length body), None, Sink_push w (frame_of c m body)).
Proof.
  intros Hroom. destruct faithful as (HB & _ & _).
  rewrite (WriteMessage_fits c w m body HB Hroom).
  rewrite (uint64_small (Z.of_nat (length body))) by lia.
  rewrite uint64_small by lia.
  unfold frame_of, header_for. rewrite magic_ok.
  rewrite (uint64_small (Z.of_nat (length body))) by lia.
  rewrite Z.add_comm. reflexivity.
Qed.

Lemma ReadMessage_frame (rest : list byte) :
  ReadMessage c {| io.unread := frame_of c m body ++ rest |} m0 =
    (HeaderLen c + Z.of_nat (length body), None, {| io.unread := rest |}, m).
Proof.
  destruct faithful as (HB & Htag & Hread).
  set (h := {| magic := (x1e, xc5); Header_Type := Type_ c m;
               Len := Z.of_nat (length body) |}).
  set (r := {| io.unread := frame_of c m body ++ rest |}).
  assert (Hv : Header_valid h) by (repeat split; cbn [Header_Type Len h]; lia).
  assert (Hhead : Header_Read (Header_zero, io.LimitReader r (int64 (HeaderLen c)))
                  = (Ok tt, (h, io.advance (io.LimitReader r (int64 (HeaderLen c))) 11))).
  { apply Header_Read_bytes
      with (rest := firstn (Z.to_nat (HeaderLen c) - 11) (body ++ rest)); [exact Hv|].
    cbn [io.avail io_facts.LimitedReader_Lawful].
    unfold io_facts.LimitedReader_avail.
    cbn [io.LR io.N io.LimitReader io.avail io_facts.Stream_Lawful io.unread r].
    rewrite int64_small by lia.
    unfold frame_of. fold h. rewrite <- app_assoc, firstn_app, length_Header_bytes.
    rewrite firstn_all2 by (rewrite length_Header_bytes; lia). reflexivity. }
  set (rh := io.advance (io.LimitReader r (int64 (HeaderLen c))) 11) in *.
  assert (Hrest : io.unread (io.LR rh) = body ++ rest).
  { unfold rh. cbn [io.advance io_facts.LimitedReader_Lawful].
    unfold io_facts.LimitedReader_advance.
    cbn [io.LR io.LimitReader io.advance io_facts.Stream_Lawful io.unread r].
    unfold frame_of. fold h. rewrite <- app_assoc, skipn_app, length_Header_bytes.
    rewrite skipn_all2 by (rewrite length_Header_bytes; lia). reflexivity. }
  set (rb := io.LimitReader (io.LR rh) (int64 (Len h))).
  assert (Hbody : Read c (m0, rb) = (Ok tt, (m, io.advance rb (length body)))).
  { apply Hread with (rest := @nil byte).
    cbn [io.avail io_facts.LimitedReader_Lawful].
    unfold io_facts.LimitedReader_avail.
    cbn [io.LR io.N io.LimitReader rb io.avail io_facts.Stream_Lawful Len h].
    rewrite Hrest, int64_small, Nat2Z.id by lia.
    rewrite firstn_app, firstn_all, Nat.sub_diag, firstn_O. reflexivity. }
  assert (Htype : Header_Type h = Type_ c m0) by (symmetry; exact Htag).
  assert (Hfit : Len h <= MaxMsgLen c) by exact body_ok.
  rewrite (ReadMessage_body c r m0 h rh _ _ _ Hhead Htype Hfit Hbody).
  cbn [err_of Len h].
  rewrite (uint64_small (HeaderLen c)), (uint64_small (Z.of_nat (length body))),
    uint64_small by lia.
  f_equal. f_equal.
  unfold rb. cbn [io.advance io_facts.LimitedReader_Lawful].
  unfold io_facts.LimitedReader_advance.
  cbn [io.LR io.LimitReader io.advance io_facts.Stream_Lawful].
  rewrite Hrest, skipn_app, skipn_all, Nat.sub_diag. reflexivity.
Qed.

End Frames.

(** A message survives the trip over the wire: WriteMessage puts its frame
    on the connection, and ReadMessage on a stream that starts with that
    frame gives the message back with the same count and leaves what
    follows the frame. *)
Definition frame_round_trips (c : Constants) {M : Type} `{Message M}
    (w : io.Sink) (m m0 : M) (rest : list byte) : Prop :=
  exists body : list byte,
    Bytes m = Some body
    /\ (Z.of_nat (length body) <= MaxMsgLen c ->
        (11 + length body <= io.room w)%nat ->
        WriteMessage c w m =
          Some (HeaderLen c + Z.of_nat (length body), None,
                Sink_push w (frame_of c m body))
        /\ ReadMessage c {| io.unread := frame_of c m body ++ rest |} m0 =
             (HeaderLen c + Z.of_nat (length body), None, {| io.unread := rest |}, m)).

Lemma frame_round_trips_of_faithful (c : Constants) {M : Type} `{Message M}
    (w : io.Sink) (m m0 : M) (body rest : list byte) :
  MagicCode c = (x1e, xc5) ->
  11 <= HeaderLen c < 2 ^ 63 ->
  MaxMsgLen c < 2 ^ 63 ->
  0 <= Type_ c m < 2 ^ 8 ->
  wire_faithful c m m0 body ->
  frame_round_trips c w m m0 rest.
Proof.
  intros Hmagic HHL Hmax Htag Hf. exists body. split; [apply Hf|].
  intros Hbody Hroom. split.
  - apply WriteMessage_frame with (m0 := m0); assumption.
  - apply ReadMessage_frame; assumption.
Qed.

(** X6: frame round trip.  With the magic marker that Header.Read accepts,
    a header width of at least eleven and type tags that fit a byte, each
    of the five messages with fields the wire format carries in full is
    written by WriteMessage as one frame of 11 + len(body) bytes that
    ReadMessage decodes back into the same message, with the same count on
    both sides, leaving the bytes after the frame in the stream. *)
Theorem WriteMessage_ReadMessage_round_trip (c : Constants) (w : io.Sink)
    (rest : list byte) :
  MagicCode c = (x1e, xc5) ->
  11 <= HeaderLen c < 2 ^ 63 ->
  MaxMsgLen c < 2 ^ 63 ->
  (forall p p0 : Ping,
      0 <= msgTypePing c < 2 ^ 8 -> Ping_valid p -> frame_round_trips c w p p0 rest)
  /\ (forall p p0 : Pong,
        0 <= msgTypePong c < 2 ^ 8 -> Ping_valid (Pong_Ping p) ->
        frame_round_trips c w p p0 rest)
  /\ (forall p p0 : GetPeerAddrs,
        0 <= msgTypeGetPeerAddrs c < 2 ^ 8 -> GetPeerAddrs_valid p ->
        frame_round_trips c w p p0 rest)
  /\ (forall p p0 : PeerError,
        0 <= msgTypeError c < 2 ^ 8 -> PeerError_valid c p ->
        frame_round_trips c w p p0 rest)
  /\ (forall p : PeerAddrs,
        0 <= msgTypePeerAddrs c < 2 ^ 8 -> PeerAddrs_valid c p ->
        frame_round_trips c w p PeerAddrs_zero rest).
Proof.
  intros Hmagic HHL Hmax.
  split; [|split; [|split; [|split]]].
  - intros p p0 Htag Hv.
    exact (frame_round_trips_of_faithful c w p p0 _ rest Hmagic HHL Hmax Htag
             (Ping_wire_faithful c p p0 Hv)).
  - intros p p0 Htag Hv.
    exact (frame_round_trips_of_faithful c w p p0 _ rest Hmagic HHL Hmax Htag
             (Pong_wire_faithful c p p0 Hv)).
  - intros p p0 Htag Hv.
    exact (frame_round_trips_of_faithful c w p p0 _ rest Hmagic HHL Hmax Htag
             (GetPeerAddrs_wire_faithful c p p0 Hv)).
  - intros p p0 Htag Hv.
    exact (frame_round_trips_of_faithful c w p p0 _ rest Hmagic HHL Hmax Htag
             (PeerError_wire_faithful c p p0 Hv)).
  - intros p Htag Hv.
    exact (frame_round_trips_of_faithful c w p PeerAddrs_zero _ rest Hmagic HHL Hmax
             Htag (PeerAddrs_wire_faithful c p Hv)).
Qed.

Lemma WriteMessage_ReadMessage_round_trip_witness :
  MagicCode sample_constants = (x1e, xc5)
  /\ 11 <= HeaderLen sample_constants < 2 ^ 63
  /\ MaxMsgLen sample_constants < 2 ^ 63
  /\ 0 <= msgTypePeerAddrs sample_constants < 2 ^ 8
  /\ PeerAddrs_valid sample_constants sample_peer_addrs
  /\ frame_round_trips sample_constants sample_sink sample_peer_addrs PeerAddrs_zero
       [xff].
Proof.
  assert (A1 : MagicCode sample_constants = (x1e, xc5)) by reflexivity.
  assert (A2 : 11 <= HeaderLen sample_constants < 2 ^ 63) by decide_ranges.
  assert (A3 : MaxMsgLen sample_constants < 2 ^ 63) by reflexivity.
  assert (A4 : 0 <= msgTypePeerAddrs sample_constants < 2 ^ 8) by decide_ranges.
  refine (conj A1 (conj A2 (conj A3 (conj A4 (conj sample_peer_addrs_valid _))))).
  exact (proj2 (proj2 (proj2 (proj2
           (WriteMessage_ReadMessage_round_trip sample_constants sample_sink [xff]
              A1 A2 A3))))
           sample_peer_addrs A4 sample_peer_addrs_valid).
Defined.

(** X7: two messages written one after the other are read back in the
    same order.  For messages that travel unchanged (as the five variants
    with valid fields do), a connection with room for both frames receives
    the first frame followed by the second, and two calls of ReadMessage on
    a stream that starts with these bytes give the first message, then the
    second, and leave what follows. *)
Theorem two_frames_in_order (c : Constants) {M1 M2 : Type} `{Message M1} `{Message M2}
    (a a0 : M1) (b b0 : M2) (body_a body_b : list byte)
    (w : io.Sink) (rest : list byte) :
  MagicCode c = (x1e, xc5) ->
  11 <= HeaderLen c < 2 ^ 63 ->
  MaxMsgLen c < 2 ^ 63 ->
  wire_faithful c a a0 body_a ->
  wire_faithful c b b0 body_b ->
  0 <= Type_ c a < 2 ^ 8 ->
  0 <= Type_ c b < 2 ^ 8 ->
  Z.of_nat (length body_a) <= MaxMsgLen c ->
  Z.of_nat (length body_b) <= MaxMsgLen c ->
  (22 + length body_a + length body_b <= io.room w)%nat ->
  exists (w1 w2 : io.Sink) (r1 : io.Stream),
    WriteMessage c w a = Some (HeaderLen c + Z.of_nat (length body_a), None, w1)
    /\ WriteMessage c w1 b = Some (HeaderLen c + Z.of_nat (length body_b), None, w2)
    /\ io.written w2 = io.written w ++ frame_of c a body_a ++ frame_of c b body_b
    /\ ReadMessage c {| io.unread := frame_of c a body_a ++ frame_of c b body_b ++ rest |}
         a0
       = (HeaderLen c + Z.of_nat (length body_a), None, r1, a)
    /\ ReadMessage c r1 b0
       = (HeaderLen c + Z.of_nat (length body_b), None, {| io.unread := rest |}, b).
Proof.
  intros Hmagic HHL Hmax Hfa Hfb Hta Htb Hla Hlb Hroom.
  exists (Sink_push w (frame_of c a body_a)),
         (Sink_push (Sink_push w (frame_of c a body_a)) (frame_of c b body_b)),
         {| io.unread := frame_of c b body_b ++ rest |}.
  split; [|split; [|split; [|split]]].
  - apply WriteMessage_frame with (m0 := a0); trivial. lia.
  - apply WriteMessage_frame with (m0 := b0); trivial.
    cbn [Sink_push io.room]. rewrite length_frame_of. lia.
  - cbn [Sink_push io.written]. rewrite <- app_assoc. reflexivity.
  - apply ReadMessage_frame; trivial.
  - apply ReadMessage_frame; trivial.
Qed.

(** A Ping followed by an address list. *)
Lemma two_frames_in_order_witness :
  let body_a := PutUint 8 (uint64 1000) ++ PutUint 8 (uint64 42) in
  let body_b := PutUint 4 2 ++ flat_map entry_bytes (peers sample_peer_addrs) in
  MagicCode sample_constants = (x1e, xc5)
  /\ 11 <= HeaderLen sample_constants < 2 ^ 63
  /\ MaxMsgLen sample_constants < 2 ^ 63
  /\ wire_faithful sample_constants sample_ping Ping_zero body_a
  /\ wire_faithful sample_constants sample_peer_addrs PeerAddrs_zero body_b
  /\ (22 + length body_a + length body_b <= io.room sample_sink)%nat
  /\ exists (w1 w2 : io.Sink) (r1 : io.Stream),
       WriteMessage sample_constants sample_sink sample_ping
       = Some (HeaderLen sample_constants + Z.of_nat (length body_a), None, w1)
       /\ WriteMessage sample_constants w1 sample_peer_addrs
          = Some (HeaderLen sample_constants + Z.of_nat (length body_b), None, w2)
       /\ io.written w2
          = io.written sample_sink ++ frame_of sample_constants sample_ping body_a
            ++ frame_of sample_constants sample_peer_addrs body_b
       /\ ReadMessage sample_constants
            {| io.unread := frame_of sample_constants sample_ping body_a
                            ++ frame_of sample_constants sample_peer_addrs body_b
                            ++ [xff] |} Ping_zero
          = (HeaderLen sample_constants + Z.of_nat (length body_a), None, r1,
             sample_ping)
       /\ ReadMessage sample_constants r1 PeerAddrs_zero
          = (HeaderLen sample_constants + Z.of_nat (length body_b), None,
             {| io.unread := [xff] |}, sample_peer_addrs).
Proof.
  intros body_a body_b.
  assert (A1 : MagicCode sample_constants = (x1e, xc5)) by reflexivity.
  assert (A2 : 11 <= HeaderLen sample_constants < 2 ^ 63) by decide_ranges.
  assert (A3 : MaxMsgLen sample_constants < 2 ^ 63) by reflexivity.
  pose proof (Ping_wire_faithful sample_constants sample_ping Ping_zero
                sample_ping_valid) as A4.
  pose proof (PeerAddrs_wire_faithful sample_constants sample_peer_addrs
                sample_peer_addrs_valid) as A5.
  assert (A6 : (22 + length body_a + length body_b <= io.room sample_sink)%nat)
    by (apply Nat.leb_le; vm_compute; reflexivity).
  refine (conj A1 (conj A2 (conj A3 (conj A4 (conj A5 (conj A6 _)))))).
  refine (two_frames_in_order sample_constants sample_ping Ping_zero
            sample_peer_addrs PeerAddrs_zero body_a body_b sample_sink [xff]
            A1 A2 A3 A4 A5 _ _ _ _ A6); decide_ranges.
Defined.

(** ** WriteMessage on a connection that may break *)

Lemma Sink_take_nil (w : io.Sink) : Sink_take w [] = w.
Proof.
  destruct w. unfold Sink_take. cbn. rewrite firstn_nil, app_nil_r, Nat.sub_0_r.
  reflexivity.
Qed.

Lemma Sink_take_cut (w : io.Sink) (p q : list byte) :
  (io.room w <= length p)%nat -> Sink_take w (p ++ q) = Sink_take w p.
Proof.
  intros Hfull. rewrite <- Sink_take_take.
  apply Sink_take_spent. cbn [Sink_take io.room]. lia.
Qed.

(** The part of [WriteMessage] after the header went into the buffer: the
    body is written, and flushed if that gave no error. *)
Definition write_then_flush {W : Type} `{io.Writer W} (b : bufio.Writer W)
    (data : list byte) : nat * option error * W :=
  let '(n, e, b1) := bufio.Write b data in
  match e with
  | Some e' => (n, Some e', bufio.wr b1)
  | None => let '(e2, b2) := bufio.Flush b1 in (n, e2, bufio.wr b2)
  end.

Lemma WriteMessage_write_then_flush (c : Constants) {M : Type} `{Message M}
    {W : Type} `{io.Writer W} (w : W) (msg : M) (data : list byte) :
  Bytes msg = Some data ->
  WriteMessage c w msg =
    let '(n, e, w') :=
      write_then_flush
        {| bufio.err := None; bufio.buf := Header_bytes (header_for c msg data);
           bufio.size := bufio.defaultBufSize; bufio.wr := w |} data in
    Some (uint64 (uint64 (Z.of_nat n) + HeaderLen c), e, w').
Proof.
  intros HB. unfold WriteMessage. rewrite HB. unfold bufio.NewWriter.
  rewrite Header_Write_buffered by exact defaultBufSize_holds_header.
  fold (header_for c msg data). unfold write_then_flush.
  destruct (bufio.Write _ data) as [[n e] b1].
  destruct e as [e'|]; [reflexivity|].
  destruct (bufio.Flush b1) as [e2 b2]. reflexivity.
Qed.

(** A flush hands the buffer to the connection. *)
Lemma Flush_Sink (b : bufio.Writer io.Sink) :
  bufio.err b = None ->
  exists b' : bufio.Writer io.Sink,
    bufio.Flush b =
      (if (length (bufio.buf b) <=? io.room (bufio.wr b))%nat
       then None else Some (io.failure (bufio.wr b)), b')
    /\ bufio.wr b' = Sink_take (bufio.wr b) (bufio.buf b)
    /\ bufio.err b' =
         (if (length (bufio.buf b) <=? io.room (bufio.wr b))%nat
          then None else Some (io.failure (bufio.wr b)))
    /\ bufio.size b' = bufio.size b
    /\ ((length (bufio.buf b) <= io.room (bufio.wr b))%nat -> bufio.buf b' = []).
Proof.
  intros He. unfold bufio.Flush, bufio.Buffered. rewrite He.
  destruct (Nat.eqb_spec (length (bufio.buf b)) 0) as [E0|E0].
  - exists b. rewrite E0. cbn [Nat.leb].
    apply length_zero_iff_nil in E0. rewrite E0, Sink_take_nil.
    repeat split; trivial.
  - rewrite Sink_Write_take.
    destruct (Nat.leb_spec (length (bufio.buf b)) (io.room (bufio.wr b))) as [Hfit|Hshort].
    + rewrite Nat.min_l by exact Hfit. rewrite Nat.ltb_irrefl.
      eexists. repeat split; reflexivity.
    + eexists. repeat split; try reflexivity. cbn [bufio.buf]. lia.
Qed.

Section WriteThenFlushWire.
Variable w : io.Sink.
Variables hdr data : list byte.
Variable sz : nat.
Hypothesis hdr_some : (0 < length hdr)%nat.
Hypothesis hdr_fits : (length hdr <= sz)%nat.

(** Whatever room the connection has, it ends up with as much of header
    and body as it takes, and the error is nil exactly when it took
    everything; a body that fits in the buffer is counted in full. *)
Lemma write_then_flush_wire :
  exists (n : nat) (e : option error),
    write_then_flush (after_header w hdr sz) data = (n, e, Sink_take w (hdr ++ data))
    /\ e = (if (length hdr + length data <=? io.room w)%nat
            then None else Some (io.failure w))
    /\ ((length data <= sz - length hdr)%nat -> n = length data)
    /\ (n <= length data)%nat.
Proof.
  unfold write_then_flush.
  destruct (Nat.le_gt_cases (length data) (sz - length hdr)) as [Hsmall|Hbig].
  - (* the body fits in the buffer *)
    rewrite bufio_Write_buffered by (trivial; exact Hsmall).
    cbn [after_header bufio.buf bufio.size bufio.wr].
    destruct (Flush_Sink {| bufio.err := None; bufio.buf := hdr ++ data;
                            bufio.size := sz; bufio.wr := w |} eq_refl)
      as (b' & HF & Hwr & _).
    cbn [bufio.buf bufio.wr] in HF, Hwr. rewrite HF, Hwr, length_app.
    eexists. eexists. split; [reflexivity|]. split; [reflexivity|]. split; trivial.
  - (* the buffer is filled and flushed, the rest follows *)
    unfold bufio.Write.
    replace (length data + 2)%nat with (S (S (length data))) by lia.
    rewrite Write_loop_fill
      by (trivial; unfold bufio.Buffered; cbn [after_header bufio.buf]; lia).
    cbn [after_header bufio.err bufio.buf bufio.size bufio.wr].
    change (bufio.Available (after_header w hdr sz)) with (sz - length hdr)%nat.
    rewrite Nat.min_l by lia.
    set (k := (sz - length hdr)%nat).
    assert (Hk : length (firstn k data) = k) by (rewrite length_firstn; lia).
    assert (Hfull : length (hdr ++ firstn k data) = sz) by (rewrite length_app, Hk; lia).
    assert (Hlen : (k + length (skipn k data))%nat = length data)
      by (rewrite length_skipn; lia).
    assert (Hjoin : (hdr ++ firstn k data) ++ skipn k data = hdr ++ data)
      by (rewrite <- app_assoc, firstn_skipn; reflexivity).
    destruct (Flush_Sink {| bufio.err := None; bufio.buf := hdr ++ firstn k data;
                            bufio.size := sz; bufio.wr := w |} eq_refl)
      as (b1 & HF & Hwr & Herr & Hsz & Hbuf).
    cbn [bufio.buf bufio.wr bufio.size] in HF, Hwr, Herr, Hsz, Hbuf.
    rewrite Hfull in HF, Herr, Hbuf. rewrite HF. cbn [Nat.add].
    destruct (Nat.leb_spec sz (io.room w)) as [Hflush|Hflush].
    + (* the full buffer went out *)
      specialize (Hbuf Hflush).
      assert (Hroom1 : io.room (bufio.wr b1) = (io.room w - sz)%nat)
        by (rewrite Hwr; cbn [Sink_take io.room]; rewrite Hfull; reflexivity).
      assert (Hfail1 : io.failure (bufio.wr b1) = io.failure w)
        by (rewrite Hwr; reflexivity).
      assert (Hend : Sink_take (bufio.wr b1) (skipn k data) = Sink_take w (hdr ++ data))
        by (rewrite Hwr, Sink_take_take, Hjoin; reflexivity).
      assert (Hfit_iff : (length (skipn k data) <=? io.room (bufio.wr b1))%nat
                         = (length hdr + length data <=? io.room w)%nat).
      { rewrite Hroom1.
        destruct (Nat.leb_spec (length (skipn k data)) (io.room w - sz));
          destruct (Nat.leb_spec (length hdr + length data) (io.room w));
          trivial; lia. }
      destruct (Nat.le_gt_cases (length (skipn k data)) sz) as [Hrest|Hrest].
      * rewrite Write_loop_stop
          by (trivial; unfold bufio.Available; rewrite Hsz, Hbuf; cbn [length]; lia).
        rewrite Herr. unfold bufio.Available. rewrite Hsz, Hbuf.
        cbn [length app]. rewrite Nat.sub_0_r, Nat.min_r by exact Hrest.
        rewrite firstn_all, Hlen.
        destruct (Flush_Sink {| bufio.err := None; bufio.buf := skipn k data;
                                bufio.size := sz; bufio.wr := bufio.wr b1 |} eq_refl)
          as (b2 & HF2 & Hwr2 & _).
        cbn [bufio.buf bufio.wr] in HF2, Hwr2.
        rewrite HF2, Hwr2, Hend, Hfit_iff, Hfail1.
        eexists. eexists. split; [reflexivity|]. split; [reflexivity|]. split; [lia|lia].
      * rewrite Write_loop_direct
          by (trivial; unfold bufio.Available, bufio.Buffered;
              rewrite ?Hsz, Hbuf; cbn [length]; lia).
        rewrite Sink_Write_take, Hend, Hfit_iff, Hfail1.
        destruct (Nat.leb_spec (length hdr + length data) (io.room w)) as [Hall|Hcut].
        -- rewrite Nat.min_l by (rewrite Hroom1, length_skipn; lia).
           rewrite skipn_all.
           rewrite Write_loop_stop by (trivial; cbn [length]; lia).
           cbn [bufio.err bufio.buf bufio.size bufio.wr length].
           unfold bufio.Available. cbn [bufio.buf bufio.size].
           rewrite Hbuf. cbn [length app]. rewrite Nat.min_r by lia. cbn [firstn].
           rewrite Flush_nothing by reflexivity. cbn [bufio.wr].
           rewrite Nat.add_0_r, Hlen.
           eexists. eexists. split; [reflexivity|]. split; [reflexivity|].
           split; [lia|lia].
        -- rewrite Write_loop_failed with (e := io.failure w) by reflexivity.
           cbn [bufio.err bufio.wr].
           eexists. eexists. split; [reflexivity|]. split; [reflexivity|].
           split; [lia|].
           rewrite Nat.min_r by (rewrite Hroom1, length_skipn; lia).
           rewrite Hroom1. lia.
    + (* the connection broke during the flush of the full buffer *)
      rewrite Write_loop_failed with (e := io.failure w) by exact Herr.
      rewrite Herr, Hwr.
      replace (length hdr + length data <=? io.room w)%nat with false
        by (symmetry; apply Nat.leb_gt; lia).
      rewrite <- Hjoin.
      rewrite (Sink_take_cut w (hdr ++ firstn k data) (skipn k data))
        by (rewrite Hfull; lia).
      eexists. eexists. split; [reflexivity|]. split; [reflexivity|].
      split; [lia|unfold k; lia].
Qed.

End WriteThenFlushWire.

(** X8: whatever the connection takes, WriteMessage leaves on it a prefix
    of the frame (the eleven header bytes followed by the body): as many
    of its bytes as the connection had room for, in order and nothing
    else.  The error is nil exactly when the whole frame was taken, and is
    the connection's error otherwise; the count is the header width plus
    the number of body bytes the buffered writer accepted, never more than
    the body has. *)
Theorem WriteMessage_leaves_frame_prefix (c : Constants) {M : Type} `{Message M}
    (w : io.Sink) (msg : M) (data : list byte) :
  Bytes msg = Some data ->
  exists (k : nat) (e : option error) (w' : io.Sink),
    WriteMessage c w msg = Some (uint64 (uint64 (Z.of_nat k) + HeaderLen c), e, w')
    /\ (k <= length data)%nat
    /\ io.written w' =
         io.written w
         ++ firstn (io.room w) (Header_bytes (header_for c msg data) ++ data)
    /\ e = (if (11 + length data <=? io.room w)%nat
            then None else Some (io.failure w)).
Proof.
  intros HB. rewrite (WriteMessage_write_then_flush c w msg data HB).
  destruct (write_then_flush_wire w (Header_bytes (header_for c msg data)) data
              bufio.defaultBufSize)
    as (n & e & HW & He & _ & Hn).
  - rewrite length_Header_bytes. lia.
  - rewrite length_Header_bytes. exact defaultBufSize_holds_header.
  - unfold after_header in HW. rewrite HW.
    rewrite length_Header_bytes in He.
    exists n, e, (Sink_take w (Header_bytes (header_for c msg data) ++ data)).
    split; [reflexivity|]. split; [exact Hn|]. split; [reflexivity|exact He].
Qed.

(** A connection that breaks after twenty bytes. *)
Definition sample_broken_sink : io.Sink :=
  {| io.written := []; io.room := 20; io.failure := errors_New "broken pipe" |}.

Lemma WriteMessage_leaves_frame_prefix_witness :
  let data := PutUint 8 (uint64 1000) ++ PutUint 8 (uint64 42) in
  Bytes sample_ping = Some data
  /\ exists (k : nat) (e : option error) (w' : io.Sink),
       WriteMessage sample_constants sample_broken_sink sample_ping
       = Some (uint64 (uint64 (Z.of_nat k) + HeaderLen sample_constants), e, w')
       /\ (k <= length data)%nat
       /\ io.written w' =
            io.written sample_broken_sink
            ++ firstn (io.room sample_broken_sink)
                 (Header_bytes (header_for sample_constants sample_ping data) ++ data)
       /\ e = (if (11 + length data <=? io.room sample_broken_sink)%nat
               then None else Some (io.failure sample_broken_sink)).
Proof.
  intros data.
  assert (A1 : Bytes sample_ping = Some data) by reflexivity.
  split; [exact A1|].
  exact (WriteMessage_leaves_frame_prefix sample_constants sample_broken_sink
           sample_ping data A1).
Defined.

(** X9: when the body fits in the buffer beside the header (at most
    defaultBufSize - 11 = 4085 bytes) nothing reaches the connection before
    the final flush; if the connection then takes fewer than 11 + len(body)
    bytes, WriteMessage returns the connection's error together with the
    full count header width + len(body), although the connection received
    only the bytes it had room for. *)
Theorem WriteMessage_flush_failure_count (c : Constants) {M : Type} `{Message M}
    (w : io.Sink) (msg : M) (data : list byte) :
  Bytes msg = Some data ->
  0 <= HeaderLen c ->
  HeaderLen c + Z.of_nat (length data) < 2 ^ 64 ->
  (length data <= bufio.defaultBufSize - 11)%nat ->
  (io.room w < 11 + length data)%nat ->
  exists w' : io.Sink,
    WriteMessage c w msg
    = Some (HeaderLen c + Z.of_nat (length data), Some (io.failure w), w')
    /\ length (io.written w') = (length (io.written w) + io.room w)%nat.
Proof.
  intros HB Hpos Hsum Hsmall Hroom.
  rewrite (WriteMessage_write_then_flush c w msg data HB).
  destruct (write_then_flush_wire w (Header_bytes (header_for c msg data)) data
              bufio.defaultBufSize)
    as (n & e & HW & He & Hn & _).
  - rewrite length_Header_bytes. lia.
  - rewrite length_Header_bytes. exact defaultBufSize_holds_header.
  - unfold after_header in HW. rewrite HW.
    rewrite length_Header_bytes in He, Hn. rewrite (Hn Hsmall).
    replace (11 + length data <=? io.room w)%nat with false in He
      by (symmetry; apply Nat.leb_gt; exact Hroom).
    rewrite He.
    rewrite (uint64_small (Z.of_nat (length data))) by lia.
    rewrite uint64_small by lia. rewrite Z.add_comm.
    eexists. split; [reflexivity|].
    cbn [Sink_take io.written].
    rewrite length_app, length_firstn, length_app, length_Header_bytes. lia.
Qed.

Lemma WriteMessage_flush_failure_count_witness :
  let data := PutUint 8 (uint64 1000) ++ PutUint 8 (uint64 42) in
  Bytes sample_ping = Some data
  /\ 0 <= HeaderLen sample_constants
  /\ HeaderLen sample_constants + Z.of_nat (length data) < 2 ^ 64
  /\ (length data <= bufio.defaultBufSize - 11)%nat
  /\ (io.room sample_broken_sink < 11 + length data)%nat
  /\ exists w' : io.Sink,
       WriteMessage sample_constants sample_broken_sink sample_ping
       = Some (HeaderLen sample_constants + Z.of_nat (length data),
               Some (io.failure sample_broken_sink), w')
       /\ length (io.written w')
          = (length (io.written sample_broken_sink) + io.room sample_broken_sink)%nat.
Proof.
  intros data.
  assert (A1 : Bytes sample_ping = Some data) by reflexivity.
  assert (A2 : 0 <= HeaderLen sample_constants) by (vm_compute; discriminate).
  assert (A3 : HeaderLen sample_constants + Z.of_nat (length data) < 2 ^ 64)
    by reflexivity.
  assert (A4 : (length data <= bufio.defaultBufSize - 11)%nat)
    by (apply Nat.leb_le; vm_compute; reflexivity).
  assert (A5 : (io.room sample_broken_sink < 11 + length data)%nat)
    by (apply Nat.ltb_lt; vm_compute; reflexivity).
  refine (conj A1 (conj A2 (conj A3 (conj A4 (conj A5 _))))).
  exact (WriteMessage_flush_failure_count sample_constants sample_broken_sink
           sample_ping data A1 A2 A3 A4 A5).
Defined.

(** ** PeerAddrs and PeerError at their limits *)

Definition IP_len_ok (a : net.TCPAddr) : Prop :=
  length (net.IP a) = net.IPv4len \/ length (net.IP a) = net.IPv6len.

Lemma PeerAddrs_Bytes_entry_None (a : net.TCPAddr) :
  ~ IP_len_ok a -> PeerAddrs_Bytes_entry a = None.
Proof.
  unfold IP_len_ok, PeerAddrs_Bytes_entry. intros Hbad.
  destruct (Nat.eqb_spec (length (net.IP a)) net.IPv4len); [tauto|].
  destruct (Nat.eqb_spec (length (net.IP a)) net.IPv6len); [tauto|].
  reflexivity.
Qed.

Lemma IP_len_ok_dec (a : net.TCPAddr) : {IP_len_ok a} + {~ IP_len_ok a}.
Proof.
  unfold IP_len_ok.
  destruct (Nat.eq_dec (length (net.IP a)) net.IPv4len); [left; tauto|].
  destruct (Nat.eq_dec (length (net.IP a)) net.IPv6len); [left; tauto|].
  right. tauto.
Qed.

Lemma PeerAddrs_Bytes_loop_Some_inv (ps : list net.TCPAddr) (buff body : list byte) :
  PeerAddrs_Bytes_loop ps buff = Some body -> Forall IP_len_ok ps.
Proof.
  revert buff. induction ps as [|a ps IH]; intros buff E; [constructor|].
  cbn [PeerAddrs_Bytes_loop] in E.
  destruct (IP_len_ok_dec a) as [Ha|Ha].
  - rewrite (PeerAddrs_Bytes_entry_Some a Ha) in E. constructor; [exact Ha|].
    apply (IH _ E).
  - rewrite (PeerAddrs_Bytes_entry_None a Ha) in E. discriminate.
Qed.

(** X10: PeerAddrs.Bytes returns exactly when every address of the list
    has 4 or 16 bytes (otherwise logrus.Fatal ends the process); the body
    it returns is the count on four bytes followed, for each address in
    order, by the family byte (0 for four bytes, 1 for sixteen), the
    address bytes and the port on two bytes, 4 + sum of (3 + len(IP))
    bytes in all.  The count is not checked against maxPeerAddresses. *)
Theorem PeerAddrs_Bytes_returns_iff (p : PeerAddrs) :
  ((exists body, PeerAddrs_Bytes p = Some body) <-> Forall IP_len_ok (peers p))
  /\ (Forall IP_len_ok (peers p) ->
      PeerAddrs_Bytes p =
        Some (PutUint 4 (uint32 (Z.of_nat (length (peers p))))
              ++ flat_map entry_bytes (peers p))
      /\ length (flat_map entry_bytes (peers p))
         = list_sum (map (fun a => 3 + length (net.IP a))%nat (peers p))).
Proof.
  split; [split|].
  - intros (body & E). apply (PeerAddrs_Bytes_loop_Some_inv _ _ _ E).
  - intros Hall. eexists. apply PeerAddrs_Bytes_loop_Some. exact Hall.
  - intros Hall. split; [apply PeerAddrs_Bytes_loop_Some; exact Hall|].
    clear Hall. induction (peers p) as [|a ps IH]; [reflexivity|].
    cbn [flat_map map list_sum]. rewrite length_app, length_entry_bytes, IH.
    reflexivity.
Qed.

Lemma PeerAddrs_Bytes_returns_iff_witness :
  Forall IP_len_ok (peers sample_peer_addrs)
  /\ PeerAddrs_Bytes sample_peer_addrs =
       Some (PutUint 4 (uint32 (Z.of_nat (length (peers sample_peer_addrs))))
             ++ flat_map entry_bytes (peers sample_peer_addrs))
  /\ length (flat_map entry_bytes (peers sample_peer_addrs))
     = list_sum (map (fun a => 3 + length (net.IP a))%nat (peers sample_peer_addrs)).
Proof.
  assert (A : Forall IP_len_ok (peers sample_peer_addrs)).
  { constructor; [left; reflexivity|].
    constructor; [right; reflexivity|]. constructor. }
  split; [exact A|].
  exact (proj2 (PeerAddrs_Bytes_returns_iff sample_peer_addrs) A).
Defined.

Lemma firstn_exact {A : Type} (n : nat) (a x : list A) :
  length a = n -> firstn n (a ++ x) = a.
Proof.
  intros <-. rewrite firstn_app, firstn_all, Nat.sub_diag, firstn_O. apply app_nil_r.
Qed.

Lemma skipn_exact {A : Type} (n : nat) (a x : list A) :
  length a = n -> skipn n (a ++ x) = x.
Proof. intros <-. rewrite skipn_app, skipn_all, Nat.sub_diag. reflexivity. Qed.

(** X11: the ceilings are enforced on decode only.  A PeerError whose
    message is longer than maxStringLength and a PeerAddrs with more
    entries than maxPeerAddresses are encoded by Bytes like any other, and
    Read rejects the bytes so produced, with the messageLen error after the
    twelve bytes of code and length, and with the peersCount error after
    the four bytes of the count. *)
Theorem ceilings_checked_on_decode_only (c : Constants)
    (pe pe0 : PeerError) (pa pa0 : PeerAddrs) :
  (0 <= Code pe < 2 ^ 32 ->
   maxStringLength c < Z.of_nat (length (PeerError_Message pe)) < 2 ^ 64 ->
   exists body : list byte,
     Bytes pe = Some body
     /\ Read c (pe0, {| io.unread := body |}) =
          (Err (errors_New "invalid messageLen len value"),
           ({| Code := Code pe; PeerError_Message := PeerError_Message pe0 |},
            {| io.unread := PeerError_Message pe |})))
  /\ (Forall IP_len_ok (peers pa) ->
      maxPeerAddresses c < Z.of_nat (length (peers pa)) < 2 ^ 32 ->
      exists body : list byte,
        Bytes pa = Some body
        /\ Read c (pa0, {| io.unread := body |}) =
             (Err (errors_New "invalid peersCount value"),
              (pa0, {| io.unread := flat_map entry_bytes (peers pa) |}))).
Proof.
  split.
  - intros Hc Hlen. eexists. split; [reflexivity|].
    cbn [Read PeerError_Message_].
    assert (Hw : uint32 (Code pe) = Code pe) by (apply Z.mod_small; exact Hc).
    assert (Hl : uint64 (Z.of_nat (length (PeerError_Message pe)))
                 = Z.of_nat (length (PeerError_Message pe)))
      by (apply uint64_small; lia).
    rewrite Hw, Hl.
    set (a := PutUint 4 (Code pe)).
    set (b := PutUint 8 (Z.of_nat (length (PeerError_Message pe)))).
    assert (La : length a = 4%nat) by apply length_PutUint.
    assert (Lb : length b = 8%nat) by apply length_PutUint.
    assert (H4 : firstn 4 (a ++ b ++ PeerError_Message pe) = a)
      by (apply firstn_exact; exact La).
    assert (H8 : firstn 8 (skipn 4 (a ++ b ++ PeerError_Message pe)) = b)
      by (rewrite (skipn_exact 4 a _ La); apply firstn_exact; exact Lb).
    assert (H12 : skipn 12 (a ++ b ++ PeerError_Message pe) = PeerError_Message pe).
    { change 12%nat with (8 + 4)%nat. rewrite <- skipn_skipn.
      rewrite (skipn_exact 4 a _ La). apply skipn_exact. exact Lb. }
    rewrite PeerError_Read_oversized;
      cbn [io.avail io.advance io_facts.Stream_Lawful io.unread].
    + rewrite H4, H12. unfold a. rewrite Uint_PutUint_small by exact Hc. reflexivity.
    + rewrite !length_app, La, Lb. lia.
    + rewrite H8. unfold b. rewrite Uint_PutUint_small by (simpl Z.of_nat; lia). lia.
  - intros Hall Hlen. eexists. split.
    + cbn [Bytes PeerAddrs_Message]. apply PeerAddrs_Bytes_loop_Some. exact Hall.
    + cbn [Read PeerAddrs_Message].
      assert (Hw : uint32 (Z.of_nat (length (peers pa))) = Z.of_nat (length (peers pa)))
        by (apply Z.mod_small; lia).
      rewrite Hw.
      set (a := PutUint 4 (Z.of_nat (length (peers pa)))).
      assert (La : length a = 4%nat) by apply length_PutUint.
      rewrite PeerAddrs_Read_oversized;
        cbn [io.avail io.advance io_facts.Stream_Lawful io.unread].
      * rewrite (skipn_exact 4 a _ La). reflexivity.
      * rewrite length_app, La. lia.
      * rewrite (firstn_exact 4 a _ La). unfold a.
        rewrite Uint_PutUint_small by (simpl Z.of_nat; lia). lia.
Qed.

(** A configuration with small ceilings. *)
Definition tight_constants : Constants :=
  {| MagicCode := (x1e, xc5);
     HeaderLen := 11;
     MaxMsgLen := 64;
     msgTypePing := 0;
     msgTypePong := 1;
     msgTypeGetPeerAddrs := 2;
     msgTypePeerAddrs := 3;
     msgTypeError := 4;
     maxStringLength := 2;
     maxPeerAddresses := 1 |}.

Lemma ceilings_checked_on_decode_only_witness :
  (0 <= Code sample_peer_error < 2 ^ 32
   /\ maxStringLength tight_constants
      < Z.of_nat (length (PeerError_Message sample_peer_error)) < 2 ^ 64
   /\ exists body : list byte,
        Bytes sample_peer_error = Some body
        /\ Read tight_constants (PeerError_zero, {| io.unread := body |}) =
             (Err (errors_New "invalid messageLen len value"),
              ({| Code := 7; PeerError_Message := [] |},
               {| io.unread := [x62; x61; x64] |})))
  /\ (Forall IP_len_ok (peers sample_peer_addrs)
      /\ maxPeerAddresses tight_constants
         < Z.of_nat (length (peers sample_peer_addrs)) < 2 ^ 32
      /\ exists body : list byte,
           Bytes sample_peer_addrs = Some body
           /\ Read tight_constants (PeerAddrs_zero, {| io.unread := body |}) =
                (Err (errors_New "invalid peersCount value"),
                 (PeerAddrs_zero,
                  {| io.unread := flat_map entry_bytes (peers sample_peer_addrs) |}))).
Proof.
  pose proof (ceilings_checked_on_decode_only tight_constants sample_peer_error
                PeerError_zero sample_peer_addrs PeerAddrs_zero) as [T1 T2].
  assert (A1 : 0 <= Code sample_peer_error < 2 ^ 32) by decide_ranges.
  assert (A2 : maxStringLength tight_constants
               < Z.of_nat (length (PeerError_Message sample_peer_error)) < 2 ^ 64)
    by decide_ranges.
  assert (B1 : Forall IP_len_ok (peers sample_peer_addrs)).
  { constructor; [left; reflexivity|].
    constructor; [right; reflexivity|]. constructor. }
  assert (B2 : maxPeerAddresses tight_constants
               < Z.of_nat (length (peers sample_peer_addrs)) < 2 ^ 32)
    by decide_ranges.
  exact (conj (conj A1 (conj A2 (T1 A1 A2))) (conj B1 (conj B2 (T2 B1 B2)))).
Defined.

(** ** PeerAddrs.Read *)

(** X12: PeerAddrs.Read appends.  Reading the encoding of an address list
    into a receiver that already holds addresses leaves the old addresses
    followed by the decoded ones; the list is never reset, so a receiver
    that is used for two reads holds the addresses of both. *)
Theorem PeerAddrs_Read_appends (c : Constants) (p p0 : PeerAddrs) (rest : list byte) :
  PeerAddrs_valid c p ->
  exists body : list byte,
    Bytes p = Some body
    /\ Read c (p0, {| io.unread := body ++ rest |}) =
         (Ok tt, ({| peers := peers p0 ++ peers p |}, {| io.unread := rest |})).
Proof.
  intros Hv. pose proof Hv as (Hlen & Hmax & Hall).
  eexists. split; [apply (PeerAddrs_Bytes_valid c p Hv)|].
  cbn [Read PeerAddrs_Message]. unfold PeerAddrs_Read.
  set (a := PutUint 4 (Z.of_nat (length (peers p)))).
  set (r := {| io.unread := (a ++ flat_map entry_bytes (peers p)) ++ rest |}).
  assert (Ha : io.avail r = a ++ flat_map entry_bytes (peers p) ++ rest)
    by (cbn [io.avail io_facts.Stream_Lawful io.unread r]; apply eq_sym, app_assoc).
  rewrite (run_binary_Read_app 4 _ _ r _ _ Ha (length_PutUint _ _)).
  pose proof (avail_advance_app r _ _ 4 Ha (length_PutUint _ _)) as Ha1.
  unfold a. rewrite Uint_PutUint_small by (simpl Z.of_nat; lia).
  destruct (Z.gtb_spec (Z.of_nat (length (peers p))) (maxPeerAddresses c)); [lia|].
  rewrite Nat2Z.id. destruct p0 as [old].
  rewrite (PeerAddrs_Read_loop_entries _ old _ _ Hall Ha1), io.advance_add.
  cbn [peers io.advance io_facts.Stream_Lawful io.unread r].
  f_equal. f_equal. f_equal.
  rewrite <- (length_PutUint 4 (Z.of_nat (length (peers p)))), <- length_app.
  fold a. apply skipn_exact. reflexivity.
Qed.

Lemma PeerAddrs_Read_appends_witness :
  PeerAddrs_valid sample_constants sample_peer_addrs
  /\ exists body : list byte,
       Bytes sample_peer_addrs = Some body
       /\ Read sample_constants (sample_peer_addrs, {| io.unread := body ++ [xff] |}) =
            (Ok tt, ({| peers := peers sample_peer_addrs ++ peers sample_peer_addrs |},
                     {| io.unread := [xff] |})).
Proof.
  split; [exact sample_peer_addrs_valid|].
  exact (PeerAddrs_Read_appends sample_constants sample_peer_addrs sample_peer_addrs
           [xff] sample_peer_addrs_valid).
Defined.

(** ** Encoding what was decoded *)

Lemma byte_of_Z_add_mul (v k : Z) : byte_of_Z (v + k * 256) = byte_of_Z v.
Proof. unfold byte_of_Z. rewrite Z.mod_add by lia. reflexivity. Qed.

Lemma PutUint_add_mul (n m : nat) (v k : Z) :
  (n <= m)%nat -> PutUint n (v + k * 2 ^ (8 * Z.of_nat m)) = PutUint n v.
Proof.
  revert m. induction n as [|n IH]; intros m Hnm; [reflexivity|].
  cbn [PutUint]. f_equal; [|apply IH; lia].
  rewrite !Z.shiftr_div_pow2 by lia.
  replace (8 * Z.of_nat m) with (8 * Z.of_nat (m - n - 1) + 8 + 8 * Z.of_nat n) by lia.
  rewrite !Z.pow_add_r by lia. change (2 ^ 8) with 256.
  replace (k * (2 ^ (8 * Z.of_nat (m - n - 1)) * 256 * 2 ^ (8 * Z.of_nat n)))
    with (k * 2 ^ (8 * Z.of_nat (m - n - 1)) * 256 * 2 ^ (8 * Z.of_nat n)) by ring.
  rewrite Z.div_add by (apply Z.pow_nonzero; lia).
  apply byte_of_Z_add_mul.
Qed.

Lemma Uint_acc (bs : list byte) (acc : Z) :
  fold_left (fun acc b => acc * 256 + Z_of_byte b) bs acc
  = acc * 2 ^ (8 * Z.of_nat (length bs))
    + fold_left (fun acc b => acc * 256 + Z_of_byte b) bs 0.
Proof.
  revert acc. induction bs as [|b bs IH]; intros acc.
  - cbn. lia.
  - cbn [fold_left length]. rewrite IH, (IH (0 * 256 + Z_of_byte b)).
    replace (8 * Z.of_nat (S (length bs))) with (8 + 8 * Z.of_nat (length bs)) by lia.
    rewrite Z.pow_add_r by lia. change (2 ^ 8) with 256. ring.
Qed.

Lemma Uint_cons (b : byte) (bs : list byte) :
  Uint (b :: bs) = Z_of_byte b * 2 ^ (8 * Z.of_nat (length bs)) + Uint bs.
Proof.
  unfold Uint. rewrite !Uint_fold. cbn [fold_left]. rewrite Uint_acc. f_equal.
Qed.

(** The big-endian bytes of a decoded integer are the bytes it was decoded
    from. *)
Lemma PutUint_Uint (bs : list byte) : PutUint (length bs) (Uint bs) = bs.
Proof.
  induction bs as [|b bs IH]; [reflexivity|].
  cbn [length PutUint]. rewrite Uint_cons.
  pose proof (Uint_range bs) as Hu.
  assert (Hp : 0 < 2 ^ (8 * Z.of_nat (length bs))) by (apply Z.pow_pos_nonneg; lia).
  f_equal.
  - rewrite Z.shiftr_div_pow2 by lia.
    rewrite Z.add_comm, Z.div_add by lia.
    rewrite Z.div_small by exact Hu. cbn [Z.add]. apply byte_of_Z_of_byte.
  - rewrite Z.add_comm, PutUint_add_mul by lia. exact IH.
Qed.

Lemma PutUint_Uint_wrap (n : nat) (bs : list byte) :
  length bs = n -> PutUint n (wrap (8 * Z.of_nat n) (Uint bs)) = bs.
Proof.
  intros <-. unfold wrap. rewrite Z.mod_small by apply Uint_range. apply PutUint_Uint.
Qed.

Lemma firstn_plus {A : Type} (n m : nat) (l : list A) :
  firstn (n + m) l = firstn n l ++ firstn m (skipn n l).
Proof.
  revert l. induction n as [|n IH]; intros l; [reflexivity|].
  destruct l as [|x l]; cbn [Nat.add firstn skipn app].
  - rewrite firstn_nil. reflexivity.
  - rewrite IH. reflexivity.
Qed.

Section Reencoding.
Context {R : Type} `{io.LawfulReader R}.

Lemma Ping_Read_Ok_value (p0 p' : Ping) (r r' : R) :
  Ping_Read (p0, r) = (Ok tt, (p', r')) ->
  (16 <= length (io.avail r))%nat
  /\ p' = {| TotalDifficulty := Uint (firstn 8 (io.avail r));
             Height := Uint (firstn 8 (skipn 8 (io.avail r))) |}.
Proof.
  unfold Ping_Read. rewrite run_binary_Read.
  destruct (Nat.leb_spec 8 (length (io.avail r))) as [H1|H1]; [|discriminate].
  rewrite run_assign, run_binary_Read, io.avail_advance, length_skipn.
  destruct (Nat.leb_spec 8 (length (io.avail r) - 8)) as [H2|H2]; [|discriminate].
  rewrite run_assign_last. intros E. apply state_eq_inv in E. destruct E as [<- _].
  split; [lia|reflexivity].
Qed.

Lemma Ping_reencodes (p0 p' : Ping) (r r' : R) :
  Ping_Read (p0, r) = (Ok tt, (p', r')) ->
  Ping_Bytes p' = Some (firstn 16 (io.avail r)).
Proof.
  intros E. apply Ping_Read_Ok_value in E. destruct E as (H16 & ->).
  unfold Ping_Bytes. cbn [TotalDifficulty Height].
  change uint64 with (wrap (8 * Z.of_nat 8)).
  rewrite !PutUint_Uint_wrap by (rewrite length_firstn, ?length_skipn; lia).
  change 16%nat with (8 + 8)%nat. rewrite firstn_plus. reflexivity.
Qed.

Lemma GetPeerAddrs_reencodes (p0 p' : GetPeerAddrs) (r r' : R) :
  GetPeerAddrs_Read (p0, r) = (Ok tt, (p', r')) ->
  GetPeerAddrs_Bytes p' = Some (firstn 4 (io.avail r)).
Proof.
  unfold GetPeerAddrs_Read. rewrite run_binary_Read.
  destruct (Nat.leb_spec 4 (length (io.avail r))) as [H1|H1]; [|discriminate].
  rewrite run_assign_last. intros E. apply state_eq_inv in E. destruct E as [<- _].
  unfold GetPeerAddrs_Bytes. cbn [Capabilities].
  change uint32 with (wrap (8 * Z.of_nat 4)).
  rewrite PutUint_Uint_wrap by (rewrite length_firstn; lia). reflexivity.
Qed.

Lemma PeerError_reencodes (c : Constants) (p0 p' : PeerError) (r r' : R) :
  PeerError_Read c (p0, r) = (Ok tt, (p', r')) ->
  PeerError_Bytes p' =
    Some (firstn (12 + length (PeerError_Message p')) (io.avail r)).
Proof.
  unfold PeerError_Read. rewrite run_binary_Read.
  destruct (Nat.leb_spec 4 (length (io.avail r))) as [H1|H1]; [|discriminate].
  rewrite run_assign, run_binary_Read, io.avail_advance, length_skipn.
  destruct (Nat.leb_spec 8 (length (io.avail r) - 4)) as [H2|H2]; [|discriminate].
  destruct (Uint (firstn 8 (skipn 4 (io.avail r))) >? maxStringLength c);
    [discriminate|].
  set (n := Z.to_nat (Uint (firstn 8 (skipn 4 (io.avail r))))).
  rewrite run_binary_ReadBytes, !io.avail_advance, skipn_skipn, length_skipn.
  change (8 + 4)%nat with 12%nat.
  destruct (Nat.leb_spec n (length (io.avail r) - 12)) as [H3|H3]; [|discriminate].
  rewrite run_assign_last. intros E. apply state_eq_inv in E. destruct E as [<- _].
  unfold PeerError_Bytes. cbv beta iota delta [Code PeerError_Message].
  assert (Hn : length (firstn n (skipn 12 (io.avail r))) = n)
    by (rewrite length_firstn, length_skipn; lia).
  rewrite Hn.
  assert (Hnat : Z.of_nat n = Uint (firstn 8 (skipn 4 (io.avail r)))).
  { unfold n. apply Z2Nat.id. apply Uint_range. }
  rewrite Hnat.
  change uint32 with (wrap (8 * Z.of_nat 4)).
  change uint64 with (wrap (8 * Z.of_nat 8)).
  rewrite !PutUint_Uint_wrap by (rewrite length_firstn, ?length_skipn; lia).
  change (12 + n)%nat with (4 + (8 + n))%nat.
  rewrite firstn_plus, firstn_plus, skipn_skipn. reflexivity.
Qed.

End Reencoding.

(** A successful [Read] decoded bytes that [Bytes] gives back: the
    encoding of the decoded message is the very bytes that were taken from
    the reader. *)
Definition reencodes_consumed (M : Type) `{Message M} : Prop :=
  forall (c : Constants) (R : Type) (HR : io.Reader R) (HL : io.LawfulReader R)
         (m0 m' : M) (r r' : R),
    Read c (m0, r) = (Ok tt, (m', r')) ->
    exists body : list byte,
      Bytes m' = Some body
      /\ body = firstn (length body) (io.avail r)
      /\ r' = io.advance r (length body).

(** X13: for Ping, Pong, GetPeerAddrs and PeerError the encoding is
    canonical: whenever Read succeeds, whatever the receiver held, Bytes of
    the decoded message returns exactly the bytes that Read consumed, so
    no two different byte sequences decode to the same message. *)
Theorem decoded_message_reencodes_to_consumed_bytes :
  reencodes_consumed Ping
  /\ reencodes_consumed Pong
  /\ reencodes_consumed GetPeerAddrs
  /\ reencodes_consumed PeerError.
Proof.
  split; [|split; [|split]]; intros c R HR HL m0 m' r r' E.
  - cbn [Read Ping_Message] in E.
    pose proof (Ping_reencodes _ _ _ _ E) as HB.
    apply Ping_Read_Ok_inv in E. destruct E as (H16 & ->).
    exists (firstn 16 (io.avail r)).
    rewrite length_firstn, Nat.min_l by exact H16.
    split; [exact HB|]. split; reflexivity.
  - cbn [Read Pong_Message] in E. unfold Pong_Read in E.
    destruct (Ping_Read (Pong_Ping m0, r)) as [res [q r1]] eqn:Eq.
    apply state_eq_inv in E as E'. destruct E' as [<- <-].
    assert (res = Ok tt) by congruence. subst res.
    pose proof (Ping_reencodes _ _ _ _ Eq) as HB.
    apply Ping_Read_Ok_inv in Eq. destruct Eq as (H16 & ->).
    exists (firstn 16 (io.avail r)).
    rewrite length_firstn, Nat.min_l by exact H16.
    split; [exact HB|]. split; reflexivity.
  - cbn [Read GetPeerAddrs_Message] in E.
    pose proof (GetPeerAddrs_reencodes _ _ _ _ E) as HB.
    apply GetPeerAddrs_Read_Ok_inv in E. destruct E as (H4 & ->).
    exists (firstn 4 (io.avail r)).
    rewrite length_firstn, Nat.min_l by exact H4.
    split; [exact HB|]. split; reflexivity.
  - cbn [Read PeerError_Message_] in E.
    pose proof (PeerError_reencodes _ _ _ _ _ E) as HB.
    apply PeerError_Read_Ok_inv in E. destruct E as (H12 & ->).
    exists (firstn (12 + length (PeerError_Message m')) (io.avail r)).
    rewrite length_firstn, Nat.min_l by exact H12.
    split; [exact HB|]. split; reflexivity.
Qed.

Lemma decoded_message_reencodes_to_consumed_bytes_witness :
  let r := {| io.unread := sample_cut_error_body ++ [x61; x64; xff] |} in
  Read sample_constants (PeerError_zero, r)
    = (Ok tt, (sample_peer_error, {| io.unread := [xff] |}))
  /\ exists body : list byte,
       Bytes sample_peer_error = Some body
       /\ body = firstn (length body) (io.avail r)
       /\ {| io.unread := [xff] |} = io.advance r (length body).
Proof.
  intros r.
  assert (A : Read sample_constants (PeerError_zero, r)
              = (Ok tt, (sample_peer_error, {| io.unread := [xff] |})))
    by (vm_compute; reflexivity).
  split; [exact A|].
  exact (proj2 (proj2 (proj2 decoded_message_reencodes_to_consumed_bytes))
           sample_constants _ _ _ PeerError_zero sample_peer_error r
           {| io.unread := [xff] |} A).
Defined.

Lemma int8_byte_zero (f : byte) : (int8 (Uint [f]) =? 0) = true -> f = x00.
Proof.
  intros E. apply Z.eqb_eq in E.
  assert (HU : Uint [f] = Z_of_byte f)
    by (unfold Uint; rewrite Uint_fold; cbn [fold_left]; lia).
  rewrite HU in E. pose proof (Z_of_byte_range f) as Hr.
  unfold int8, signed, wrap in E. change (8 - 1) with 7 in E.
  rewrite Z.mod_small in E by (change (2 ^ 8) with 256; lia).
  change (2 ^ 7) with 128 in E. change (2 ^ 8) with 256 in E.
  destruct (Z_of_byte f <? 128); [|lia].
  apply Z_of_byte_inj. rewrite E. reflexivity.
Qed.

(** X14: PeerAddrs.Read takes every family byte other than 0 for IPv6:
    after such a byte it reads sixteen address bytes and two port bytes,
    and the address it appends is encoded by PeerAddrs.Bytes with the
    family byte 1.  For an address list the encoding is therefore not
    canonical: entries that differ in a non-zero family byte decode to the
    same address. *)
Theorem PeerAddrs_Read_family_byte (c : Constants) {R : Type} `{io.LawfulReader R}
    (p0 : PeerAddrs) (r : R) (f : byte) (addr port rest : list byte) :
  1 <= maxPeerAddresses c ->
  f <> x00 ->
  length addr = 16%nat ->
  length port = 2%nat ->
  io.avail r = PutUint 4 1 ++ [f] ++ addr ++ port ++ rest ->
  PeerAddrs_Read c (p0, r) =
    (Ok tt,
     ({| peers := peers p0
                  ++ [ {| net.IP := addr; net.Port := Uint port; net.Zone := "" |} ] |},
      io.advance r 23))
  /\ PeerAddrs_Bytes_entry {| net.IP := addr; net.Port := Uint port; net.Zone := "" |}
     = Some ([x01] ++ addr ++ port).
Proof.
  intros Hmax Hf Haddr Hport Ha. split.
  - unfold PeerAddrs_Read.
    rewrite (run_binary_Read_app 4 _ _ r _ _ Ha (length_PutUint _ _)).
    pose proof (avail_advance_app r _ _ 4 Ha (length_PutUint _ _)) as Ha1.
    change (Uint (PutUint 4 1)) with 1.
    destruct (Z.gtb_spec 1 (maxPeerAddresses c)); [lia|].
    change (Z.to_nat 1) with 1%nat. cbn [PeerAddrs_Read_loop].
    rewrite (run_binary_Read_app 1 _ _ _ [f] _ Ha1 eq_refl).
    pose proof (avail_advance_app _ [f] _ 1 Ha1 eq_refl) as Ha2.
    destruct (int8 (Uint [f]) =? 0) eqn:E0.
    { apply int8_byte_zero in E0. contradiction. }
    rewrite (run_binary_ReadBytes_app _ _ _ _ _ _ Ha2 Haddr).
    pose proof (avail_advance_app _ _ _ _ Ha2 Haddr) as Ha3.
    rewrite (run_binary_Read_app 2 _ _ _ _ _ Ha3 Hport), run_assign.
    cbn [ret]. rewrite !io.advance_add. destruct p0; reflexivity.
  - unfold PeerAddrs_Bytes_entry. cbn [net.IP net.Port]. rewrite Haddr.
    cbn [Nat.eqb net.IPv4len net.IPv6len].
    change uint16 with (wrap (8 * Z.of_nat 2)).
    rewrite PutUint_Uint_wrap by exact Hport. reflexivity.
Qed.

Lemma PeerAddrs_Read_family_byte_witness :
  let addr := [x00; x00; x00; x00; x00; x00; x00; x00;
               x00; x00; x00; x00; x00; x00; x00; x01] in
  let r := {| io.unread := PutUint 4 1 ++ [x07] ++ addr ++ [x0d; x56] ++ [xff] |} in
  1 <= maxPeerAddresses sample_constants
  /\ x07 <> x00
  /\ PeerAddrs_Read sample_constants (PeerAddrs_zero, r) =
       (Ok tt,
        ({| peers := [ {| net.IP := addr; net.Port := 3414; net.Zone := "" |} ] |},
         {| io.unread := [xff] |}))
  /\ PeerAddrs_Bytes_entry {| net.IP := addr; net.Port := 3414; net.Zone := "" |}
     = Some ([x01] ++ addr ++ [x0d; x56]).
Proof.
  intros addr r.
  assert (A1 : 1 <= maxPeerAddresses sample_constants) by (vm_compute; discriminate).
  assert (A2 : x07 <> x00) by discriminate.
  refine (conj A1 (conj A2 _)).
  exact (PeerAddrs_Read_family_byte sample_constants PeerAddrs_zero r x07 addr
           [x0d; x56] [xff] A1 A2 eq_refl eq_refl eq_refl).
Defined.

(** ** Bodies that end early *)

(** The error of a Ping body that ends early: EOF on a field boundary,
    ErrUnexpectedEOF inside a field. *)
Definition Ping_short_error (n : nat) : error :=
  if ((n =? 0) || (n =? 8))%nat then EOF else ErrUnexpectedEOF.

(** What a Ping body that ends early leaves in the receiver. *)
Definition Ping_after_short (p0 : Ping) (a : list byte) : Ping :=
  {| TotalDifficulty := if (8 <=? length a)%nat then Uint (firstn 8 a)
                        else TotalDifficulty p0;
     Height := Height p0 |}.

Lemma Ping_Read_short {R : Type} `{io.LawfulReader R} (p0 : Ping) (r : R) :
  (length (io.avail r) < 16)%nat ->
  Ping_Read (p0, r) =
    (Err (if ((length (io.avail r) =? 0) || (length (io.avail r) =? 8))%nat
          then EOF else ErrUnexpectedEOF),
     ({| TotalDifficulty := if (8 <=? length (io.avail r))%nat
                            then Uint (firstn 8 (io.avail r))
                            else TotalDifficulty p0;
         Height := Height p0 |},
      io.advance r (length (io.avail r)))).
Proof.
  intros Hshort. unfold Ping_Read. rewrite run_binary_Read.
  destruct (Nat.leb_spec 8 (length (io.avail r))) as [H8|H8].
  - rewrite run_assign, run_binary_Read, io.avail_advance, length_skipn.
    replace (8 <=? length (io.avail r) - 8)%nat with false
      by (symmetry; apply Nat.leb_gt; lia).
    rewrite io.advance_add.
    replace (8 + (length (io.avail r) - 8))%nat with (length (io.avail r)) by lia.
    replace (length (io.avail r) =? 0)%nat with false
      by (symmetry; apply Nat.eqb_neq; lia).
    cbn [orb].
    destruct (Nat.eqb_spec (length (io.avail r)) 8) as [E8|E8].
    + rewrite skipn_all2 by lia. reflexivity.
    + destruct (skipn 8 (io.avail r)) as [|x l] eqn:Es; [|reflexivity].
      apply (f_equal (@length byte)) in Es. rewrite length_skipn in Es.
      cbn [length] in Es. lia.
  - replace (length (io.avail r) =? 8)%nat with false
      by (symmetry; apply Nat.eqb_neq; lia).
    rewrite orb_false_r.
    destruct (io.avail r) as [|x l]; [|destruct p0; reflexivity].
    destruct p0; reflexivity.
Qed.

(** X15: Ping.Read, and Pong.Read which is the same method, on a reader
    that ends before sixteen bytes fail and have taken every byte that was
    there.  The error is EOF when the reader ends on a field boundary (no
    byte, or exactly the eight bytes of the total difficulty) and
    ErrUnexpectedEOF when it ends inside a field; the height is untouched,
    and the total difficulty is assigned when its eight bytes were
    there. *)
Theorem Ping_Read_short_body {R : Type} `{io.LawfulReader R} (r : R) :
  (length (io.avail r) < 16)%nat ->
  (forall p0 : Ping,
      Ping_Read (p0, r) =
        (Err (Ping_short_error (length (io.avail r))),
         (Ping_after_short p0 (io.avail r), io.advance r (length (io.avail r)))))
  /\ (forall p0 : Pong,
        Pong_Read (p0, r) =
          (Err (Ping_short_error (length (io.avail r))),
           ({| Pong_Ping := Ping_after_short (Pong_Ping p0) (io.avail r) |},
            io.advance r (length (io.avail r))))).
Proof.
  intros Hshort. split; intros p0.
  - exact (Ping_Read_short p0 r Hshort).
  - unfold Pong_Read. rewrite (Ping_Read_short (Pong_Ping p0) r Hshort). reflexivity.
Qed.

Lemma Ping_Read_short_body_witness :
  let r := {| io.unread := PutUint 8 1000 |} in
  (length (io.avail r) < 16)%nat
  /\ Ping_Read (Ping_zero, r) =
       (Err EOF, ({| TotalDifficulty := 1000; Height := 0 |}, {| io.unread := [] |}))
  /\ Pong_Read (Pong_zero, {| io.unread := [x01; x02; x03] |}) =
       (Err ErrUnexpectedEOF, (Pong_zero, {| io.unread := [] |})).
Proof.
  intros r.
  assert (A : (length (io.avail r) < 16)%nat) by (apply Nat.ltb_lt; reflexivity).
  assert (B : (length (io.avail {| io.unread := [x01; x02; x03] |}) < 16)%nat)
    by (apply Nat.ltb_lt; reflexivity).
  refine (conj A (conj _ _)).
  - exact (proj1 (Ping_Read_short_body r A) Ping_zero).
  - exact (proj2 (Ping_Read_short_body {| io.unread := [x01; x02; x03] |} B) Pong_zero).
Defined.

(** X16: a Ping frame whose header declares fewer than sixteen body bytes
    cannot be decoded: ReadMessage returns EOF or ErrUnexpectedEOF with the
    count header width + header.length, and the stream has lost exactly the
    eleven header bytes and the declared body, so that it stands at the
    first byte after the frame. *)
Theorem ReadMessage_Ping_declared_too_short (c : Constants) (len : Z)
    (body rest : list byte) (msg : Ping) :
  11 <= HeaderLen c < 2 ^ 63 ->
  0 <= msgTypePing c < 2 ^ 8 ->
  0 <= len < 16 ->
  len <= MaxMsgLen c ->
  length body = Z.to_nat len ->
  exists (e : error) (msg' : Ping),
    ReadMessage c
      {| io.unread := Header_bytes {| magic := (x1e, xc5);
                                      Header_Type := msgTypePing c; Len := len |}
                      ++ body ++ rest |} msg
    = (HeaderLen c + len, Some e, {| io.unread := rest |}, msg')
    /\ (e = EOF \/ e = ErrUnexpectedEOF).
Proof.
  intros HHL Htag Hlen Hmax Hbody.
  set (h := {| magic := (x1e, xc5); Header_Type := msgTypePing c; Len := len |}).
  set (r := {| io.unread := Header_bytes h ++ body ++ rest |}).
  assert (Hv : Header_valid h) by (repeat split; cbn [Header_Type Len h]; lia).
  assert (Hhead : Header_Read (Header_zero, io.LimitReader r (int64 (HeaderLen c)))
                  = (Ok tt, (h, io.advance (io.LimitReader r (int64 (HeaderLen c))) 11))).
  { apply Header_Read_bytes
      with (rest := firstn (Z.to_nat (HeaderLen c) - 11) (body ++ rest)); [exact Hv|].
    cbn [io.avail io_facts.LimitedReader_Lawful].
    unfold io_facts.LimitedReader_avail.
    cbn [io.LR io.N io.LimitReader io.avail io_facts.Stream_Lawful io.unread r].
    rewrite int64_small by lia.
    rewrite firstn_app, length_Header_bytes.
    rewrite firstn_all2 by (rewrite length_Header_bytes; lia). reflexivity. }
  set (rh := io.advance (io.LimitReader r (int64 (HeaderLen c))) 11) in *.
  assert (Hrest : io.unread (io.LR rh) = body ++ rest).
  { unfold rh. cbn [io.advance io_facts.LimitedReader_Lawful].
    unfold io_facts.LimitedReader_advance.
    cbn [io.LR io.LimitReader io.advance io_facts.Stream_Lawful io.unread r].
    apply skipn_exact. apply length_Header_bytes. }
  set (rb := io.LimitReader (io.LR rh) (int64 (Len h))).
  assert (Hav : io.avail rb = body).
  { cbn [io.avail io_facts.LimitedReader_Lawful].
    unfold io_facts.LimitedReader_avail.
    cbn [io.LR io.N io.LimitReader rb io.avail io_facts.Stream_Lawful Len h].
    rewrite Hrest, int64_small by lia. apply firstn_exact. exact Hbody. }
  assert (Hshort : (length (io.avail rb) < 16)%nat) by (rewrite Hav, Hbody; lia).
  pose proof (Ping_Read_short msg rb Hshort) as Hread.
  assert (Htype : Header_Type h = Type_ c msg) by reflexivity.
  assert (Hfit : Len h <= MaxMsgLen c) by exact Hmax.
  rewrite (ReadMessage_body c r msg h rh _ _ _ Hhead Htype Hfit Hread).
  cbn [err_of Len h].
  rewrite (uint64_small (HeaderLen c)), (uint64_small len), uint64_small by lia.
  eexists. eexists. split.
  - f_equal. f_equal. rewrite Hav.
    unfold rb. cbn [io.advance io_facts.LimitedReader_Lawful].
    unfold io_facts.LimitedReader_advance.
    cbn [io.LR io.LimitReader io.advance io_facts.Stream_Lawful].
    rewrite Hrest, skipn_app, skipn_all, Nat.sub_diag. reflexivity.
  - destruct ((length (io.avail rb) =? 0) || (length (io.avail rb) =? 8))%nat;
      [left|right]; reflexivity.
Qed.

Lemma ReadMessage_Ping_declared_too_short_witness :
  let body := PutUint 8 1000 ++ [x01; x02] in
  11 <= HeaderLen sample_constants < 2 ^ 63
  /\ 0 <= msgTypePing sample_constants < 2 ^ 8
  /\ 0 <= 10 < 16
  /\ 10 <= MaxMsgLen sample_constants
  /\ length body = Z.to_nat 10
  /\ exists (e : error) (msg' : Ping),
       ReadMessage sample_constants
         {| io.unread := Header_bytes {| magic := (x1e, xc5);
                                         Header_Type := msgTypePing sample_constants;
                                         Len := 10 |}
                         ++ body ++ sample_ping_header 16 |} Ping_zero
       = (HeaderLen sample_constants + 10, Some e,
          {| io.unread := sample_ping_header 16 |}, msg')
       /\ (e = EOF \/ e = ErrUnexpectedEOF).
Proof.
  intros body.
  assert (A1 : 11 <= HeaderLen sample_constants < 2 ^ 63) by decide_ranges.
  assert (A2 : 0 <= msgTypePing sample_constants < 2 ^ 8) by decide_ranges.
  assert (A3 : 0 <= 10 < 16) by decide_ranges.
  assert (A4 : 10 <= MaxMsgLen sample_constants) by decide_ranges.
  assert (A5 : length body = Z.to_nat 10) by reflexivity.
  refine (conj A1 (conj A2 (conj A3 (conj A4 (conj A5 _))))).
  exact (ReadMessage_Ping_declared_too_short sample_constants 10 body
           (sample_ping_header 16) Ping_zero A1 A2 A3 A4 A5).
Defined.
